(** * Loush: a shallow embedding of the fiber reconciler of [src/Loush.js]

    The module keeps its scheduling state in module-level variables and
    mutates fiber objects that are shared between the current tree, the
    work-in-progress tree and the pending-deletions list.  The embedding
    therefore threads an explicit state: a heap of fiber objects addressed
    by reference, the module variables, and a log of what the code asked of
    its collaborators (the host DOM and the callbacks it invokes). *)

From Stdlib Require Import Ascii String ZArith QArith Lia.
From stdpp Require Import base option list gmap strings.

Local Open Scope string_scope.
Local Open Scope list_scope.

(** ** Values, element types, elements *)

(** JavaScript values that may appear as prop values, hook states,
    dependencies and children.  Functions and objects are compared by
    identity, so they are represented by an identity; the numbers are the
    integers and [NaN].  [VBuiltin name] is the member [name] of
    [Object.prototype], which every plain object inherits. *)
Inductive value : Type :=
| VUndefined
| VNull
| VBool (b : bool)
| VNum (z : Z)
| VNaN
| VStr (s : string)
| VFun (id : nat)
| VObj (id : nat)
| VBuiltin (name : string).

#[global] Instance value_eq_dec : EqDecision value.
Proof. solve_decision. Defined.

(** [a !== b]: the values are not the same, or they are [NaN], the one
    value that is not strictly equal to itself. *)
Definition strict_neq (a b : value) : bool :=
  match a, b with
  | VNaN, _ | _, VNaN => true
  | _, _ => bool_decide (a ≠ b)
  end.

(** A fiber's or element's [type]: a host tag (a string, the text marker
    included) or a function component, named by its identity. *)
Inductive etype : Type :=
| Host (tag : string)
| Component (fn : nat).

#[global] Instance etype_eq_dec : EqDecision etype.
Proof. solve_decision. Defined.

Module ElementType.
Definition TEXT_ELEMENT : etype := Host "TEXT_ELEMENT".
End ElementType.

(** [props] objects: the own string-keyed entries other than [children], in
    key order, and the [children] entry when the object has one ([{}] has
    none; every element's props has one, written last by [createElement]). *)
Inductive props : Type :=
| Props (attrs : list (string * value)) (children : option (list element))
with element : Type :=
| Element (type : etype) (p : props).

Definition attrs (p : props) : list (string * value) :=
  match p with Props a _ => a end.
Definition children (p : props) : option (list element) :=
  match p with Props _ c => c end.
Definition el_type (e : element) : etype :=
  match e with Element t _ => t end.
Definition el_props (e : element) : props :=
  match e with Element _ p => p end.

(** [{}] *)
Definition empty_object : props := Props [] None.

(** [Object.keys(p)] *)
Definition Object_keys (p : props) : list string :=
  map fst (attrs p) ++ match children p with Some _ => ["children"] | None => [] end.

(** The props objects are plain objects (object literals, lines 28, 67 and
    206), so besides their own entries they have the members of
    [Object.prototype]: those of the language standard (Annex B included),
    the application adding none. *)
Definition Object_prototype : list string :=
  [ "constructor"; "__defineGetter__"; "__defineSetter__"; "hasOwnProperty";
    "__lookupGetter__"; "__lookupSetter__"; "isPrototypeOf";
    "propertyIsEnumerable"; "toString"; "valueOf"; "__proto__";
    "toLocaleString" ].

Definition inherited (key : string) : bool :=
  bool_decide (key ∈ Object_prototype).

(** [key in p]: an own key or an inherited one. *)
Definition key_in (key : string) (p : props) : bool :=
  bool_decide (key ∈ Object_keys p) || inherited key.

Fixpoint assoc (key : string) (l : list (string * value)) : option value :=
  match l with
  | [] => None
  | (k, v) :: l' => if String.eqb k key then Some v else assoc key l'
  end.

(** [p[key]] for the keys [updateDom] reads: the own entry, else the
    inherited member, else [undefined].  The [children] entry is an array,
    not a [value]; both of [updateDom]'s first filters reject that key
    before any of its lookups, so it is never read through here. *)
Definition prop_get (p : props) (key : string) : value :=
  match assoc key (attrs p) with
  | Some v => v
  | None => if inherited key then VBuiltin key else VUndefined
  end.

(** ** Strings *)

Definition lower_ascii (c : ascii) : ascii :=
  let n := nat_of_ascii c in
  if (65 <=? n)%nat && (n <=? 90)%nat then ascii_of_nat (n + 32) else c.

(** [s.toLowerCase()] on ASCII strings *)
Fixpoint toLowerCase (s : string) : string :=
  match s with
  | EmptyString => EmptyString
  | String c r => String (lower_ascii c) (toLowerCase r)
  end.

(** [s.substring(start)] *)
Fixpoint substring (start : nat) (s : string) : string :=
  match start, s with
  | O, _ => s
  | S n, EmptyString => EmptyString
  | S n, String _ r => substring n r
  end.

(** ** Helpers of the module (lines 13-16) *)

Definition isEvent (key : string) : bool := String.prefix "on" key.
Definition isProperty (key : string) : bool :=
  negb (String.eqb key "children") && negb (isEvent key).
Definition isNew (prev next : props) (key : string) : bool :=
  strict_neq (prop_get prev key) (prop_get next key).
Definition isGone (prev next : props) (key : string) : bool :=
  negb (key_in key next).

(** ** The host: nodes and the operations the module performs on them *)

(** A host node is either handed in by the caller of [render] or created by
    the host on request; the host numbers the nodes it creates. *)
Inductive node : Type :=
| Container (id : nat)
| Created (serial : nat).

#[global] Instance node_eq_dec : EqDecision node.
Proof. solve_decision. Defined.

Inductive host_op : Type :=
| CreateTextNode (d : node)
| CreateElement (ty : option etype) (d : node)
| RemoveEventListener (d : node) (eventType : string) (listener : value)
| AddEventListener (d : node) (eventType : string) (listener : value)
| SetProperty (d : node) (name : string) (v : value)
| AppendChild (domParent child : node)
| RemoveChild (domParent child : node).

#[global] Instance host_op_eq_dec : EqDecision host_op.
Proof. solve_decision. Defined.


(** ** [updateDom] (lines 80-128)

    The function has no result; what it does to [dom] is the sequence of
    host operations below, one per [forEach] callback, pass after pass. *)
Definition removed_listeners (dom : node) (prevProps nextProps : props) : list host_op :=
  map (fun name =>
         RemoveEventListener dom (substring 2 (toLowerCase name)) (prop_get prevProps name))
      (List.filter
         (fun key => negb (key_in key nextProps) || isNew prevProps nextProps key)
         (List.filter isEvent (Object_keys prevProps))).

Definition cleared_properties (dom : node) (prevProps nextProps : props) : list host_op :=
  map (fun name => SetProperty dom name (VStr ""))
      (List.filter (isGone prevProps nextProps)
         (List.filter isProperty (Object_keys prevProps))).

Definition assigned_properties (dom : node) (prevProps nextProps : props) : list host_op :=
  map (fun name => SetProperty dom name (prop_get nextProps name))
      (List.filter (isNew prevProps nextProps)
         (List.filter isProperty (Object_keys nextProps))).

Definition added_listeners (dom : node) (prevProps nextProps : props) : list host_op :=
  map (fun name =>
         AddEventListener dom (substring 2 (toLowerCase name)) (prop_get nextProps name))
      (List.filter (isNew prevProps nextProps)
         (List.filter isEvent (Object_keys nextProps))).

Definition updateDom (dom : node) (prevProps nextProps : props) : list host_op :=
  removed_listeners dom prevProps nextProps
  ++ cleared_properties dom prevProps nextProps
  ++ assigned_properties dom prevProps nextProps
  ++ added_listeners dom prevProps nextProps.

(** ** Callbacks, hooks, fibers *)

(** A function handed to [useEffect]: its identity, and the cleanup function
    it returns when it returns a function. *)
Record effect_fn : Type := EffectFn { fn_id : nat; fn_cleanup : option nat }.

(** The zero-argument functions kept in [effects] and [cleanups] lists: a
    function of the application, or the closure that [useEffect] builds
    around its [callback] (lines 303-308). *)
Inductive callback : Type :=
| UserFn (id : nat)
| EffectClosure (fn : effect_fn).

Definition ref := nat.

(** Hook records are plain objects: [useState] writes [{state, queue}],
    [useEffect] writes [{dependencies, cleanup: null}]; a field the object
    lacks reads as [undefined]. *)
Module Hook.
Record t : Type := mk {
  state : value;
  queue : option (list (value -> value));
  dependencies : option (list value);
  cleanup : option callback
}.
End Hook.

Inductive tag : Type := PLACEMENT | UPDATE | DELETION.

#[global] Instance tag_eq_dec : EqDecision tag.
Proof. solve_decision. Defined.

Module Fiber.
Record t : Type := mk {
  type : option etype;
  props : props;
  dom : option node;
  parent : option ref;
  child : option ref;
  sibling : option ref;
  alternate : option ref;
  effectTag : option tag;
  hooks : option (list Hook.t);
  effects : option (list callback);
  cleanups : option (list callback)
}.

Definition set_dom (d : option node) (f : t) : t :=
  mk (type f) (props f) d (parent f) (child f) (sibling f) (alternate f)
     (effectTag f) (hooks f) (effects f) (cleanups f).
Definition set_child (c : option ref) (f : t) : t :=
  mk (type f) (props f) (dom f) (parent f) c (sibling f) (alternate f)
     (effectTag f) (hooks f) (effects f) (cleanups f).
Definition set_sibling (c : option ref) (f : t) : t :=
  mk (type f) (props f) (dom f) (parent f) (child f) c (alternate f)
     (effectTag f) (hooks f) (effects f) (cleanups f).
Definition set_effectTag (e : option tag) (f : t) : t :=
  mk (type f) (props f) (dom f) (parent f) (child f) (sibling f) (alternate f)
     e (hooks f) (effects f) (cleanups f).
Definition set_hooks (h : option (list Hook.t)) (f : t) : t :=
  mk (type f) (props f) (dom f) (parent f) (child f) (sibling f) (alternate f)
     (effectTag f) h (effects f) (cleanups f).
Definition set_effects (e : option (list callback)) (f : t) : t :=
  mk (type f) (props f) (dom f) (parent f) (child f) (sibling f) (alternate f)
     (effectTag f) (hooks f) e (cleanups f).
Definition set_cleanups (c : option (list callback)) (f : t) : t :=
  mk (type f) (props f) (dom f) (parent f) (child f) (sibling f) (alternate f)
     (effectTag f) (hooks f) (effects f) c.
End Fiber.

(** [fiber.type instanceof Function] *)
Definition isFunctionComponent (f : Fiber.t) : bool :=
  match Fiber.type f with Some (Component _) => true | _ => false end.

(** ** The module state *)

(** What the module asks of its collaborators, in order. *)
Inductive event : Type :=
| Dom (op : host_op)
| Call (fnid : nat).

Record state : Type := State {
  heap : gmap ref Fiber.t;
  created : nat;
  nextUnitOfWork : option ref;
  currentRoot : option ref;
  wipRoot : option ref;
  deletions : option (list ref);
  wipFiber : option ref;
  hookIndex : nat;
  log : list event
}.

(** The variables as the module initialises them (lines 5-10).  [hookIndex]
    starts as [null]; it is read only by the hooks, after [wipFiber], which
    is [null] exactly as long as [hookIndex] is, so the hooks throw before
    they reach it and a number stands for it here. *)
Definition initial_state : state :=
  State ∅ 0 None None None None None 0 [].

Definition set_heap (h : gmap ref Fiber.t) (s : state) : state :=
  State h (created s) (nextUnitOfWork s) (currentRoot s) (wipRoot s)
        (deletions s) (wipFiber s) (hookIndex s) (log s).
Definition set_created (n : nat) (s : state) : state :=
  State (heap s) n (nextUnitOfWork s) (currentRoot s) (wipRoot s)
        (deletions s) (wipFiber s) (hookIndex s) (log s).
Definition set_nextUnitOfWork (r : option ref) (s : state) : state :=
  State (heap s) (created s) r (currentRoot s) (wipRoot s)
        (deletions s) (wipFiber s) (hookIndex s) (log s).
Definition set_currentRoot (r : option ref) (s : state) : state :=
  State (heap s) (created s) (nextUnitOfWork s) r (wipRoot s)
        (deletions s) (wipFiber s) (hookIndex s) (log s).
Definition set_wipRoot (r : option ref) (s : state) : state :=
  State (heap s) (created s) (nextUnitOfWork s) (currentRoot s) r
        (deletions s) (wipFiber s) (hookIndex s) (log s).
Definition set_deletions (d : option (list ref)) (s : state) : state :=
  State (heap s) (created s) (nextUnitOfWork s) (currentRoot s) (wipRoot s)
        d (wipFiber s) (hookIndex s) (log s).
Definition set_wipFiber (r : option ref) (s : state) : state :=
  State (heap s) (created s) (nextUnitOfWork s) (currentRoot s) (wipRoot s)
        (deletions s) r (hookIndex s) (log s).
Definition set_hookIndex (n : nat) (s : state) : state :=
  State (heap s) (created s) (nextUnitOfWork s) (currentRoot s) (wipRoot s)
        (deletions s) (wipFiber s) n (log s).
Definition set_log (l : list event) (s : state) : state :=
  State (heap s) (created s) (nextUnitOfWork s) (currentRoot s) (wipRoot s)
        (deletions s) (wipFiber s) (hookIndex s) l.

(** ** A state-and-exception monad

    A computation ends normally with a result, or abruptly; either way the
    mutations made so far stay.  [TypeError] is the exception JavaScript
    raises on a property access on [null] or [undefined]; the two others
    are limits of the embedding (a loop cut off by its fuel, a reference
    that names no object), which no JavaScript run produces. *)
Inductive error : Type := TypeError | OutOfFuel | InvalidRef.

#[global] Instance error_eq_dec : EqDecision error.
Proof. solve_decision. Defined.

Inductive outcome (A : Type) : Type :=
| Ok (a : A) (s : state)
| Throw (e : error) (s : state).
Arguments Ok {A} a s.
Arguments Throw {A} e s.

Definition M (A : Type) : Type := state -> outcome A.

Definition ret {A} (a : A) : M A := fun s => Ok a s.
Definition bind {A B} (m : M A) (k : A -> M B) : M B :=
  fun s => match m s with
           | Ok a s' => k a s'
           | Throw e s' => Throw e s'
           end.
Definition throw {A} (e : error) : M A := fun s => Throw e s.
Definition gets {A} (f : state -> A) : M A := fun s => Ok (f s) s.
Definition modify (f : state -> state) : M unit := fun s => Ok tt (f s).

Declare Scope js_scope.
Delimit Scope js_scope with js.
Notation "x <- m ;; k" := (bind m (fun x => k))
  (at level 100, m at next level, right associativity) : js_scope.
Notation "m ;;; k" := (bind m (fun _ => k))
  (at level 100, right associativity) : js_scope.
Local Open Scope js_scope.

(** The state a computation leaves behind, however it ends. *)
Definition final {A} (o : outcome A) : state :=
  match o with Ok _ s => s | Throw _ s => s end.

(** Reading through a reference. *)
Definition deref (r : ref) : M Fiber.t :=
  fun s => match heap s !! r with
           | Some f => Ok f s
           | None => Throw InvalidRef s
           end.

(** Reading a property of what a variable or a field holds: the value must
    be an object, [null.x] and [undefined.x] throw. *)
Definition the {A} (o : option A) : M A :=
  match o with
  | Some a => ret a
  | None => throw TypeError
  end.

(** Writing a field of the object behind a reference. *)
Definition update (r : ref) (g : Fiber.t -> Fiber.t) : M unit :=
  f <- deref r ;; modify (fun s => set_heap (<[r := g f]> (heap s)) s).

(** An object literal: a new object, distinct from all existing ones. *)
Definition alloc (f : Fiber.t) : M ref :=
  fun s => let r := fresh (dom (heap s)) in
           Ok r (set_heap (<[r := f]> (heap s)) s).

Definition emit (e : event) : M unit :=
  modify (fun s => set_log (log s ++ [e]) s).

Definition emit_ops (ops : list host_op) : M unit :=
  modify (fun s => set_log (log s ++ map Dom ops) s).

(** [l.forEach(f)] *)
Fixpoint forEach {A} (l : list A) (f : A -> M unit) : M unit :=
  match l with
  | [] => ret tt
  | x :: l' => f x ;;; forEach l' f
  end.

(** ** Element model (lines 25-53) *)

Definition createTextElement (text : value) : element :=
  Element ElementType.TEXT_ELEMENT (Props [("nodeValue", text)] (Some [])).

(** [typeof v === "object"]: [null] and the objects; of the members of
    [Object.prototype], [__proto__] reads as that object itself and the
    others are functions. *)
Definition typeof_object (v : value) : bool :=
  match v with
  | VNull | VObj _ => true
  | VBuiltin name => String.eqb name "__proto__"
  | _ => false
  end.

(** An argument of [createElement] after the props, and an entry of the
    [children] array it builds: an element ([inl]) or any other value
    ([inr]). *)
Definition child_value : Type := element + value.

(** What [createElement] returns.  Its [children] array may hold values
    that are no elements, which the [element] type above, the Element of
    the data model, has no place for. *)
Record created_element : Type := CreatedElement {
  ce_type : etype;
  ce_attrs : list (string * value);
  ce_children : list child_value
}.

(** Line 31: a child whose [typeof] is "object" is kept as it is, an
    element and [null] alike; any other becomes a text element. *)
Definition wrap_child (c : child_value) : child_value :=
  match c with
  | inl e => inl e
  | inr v => if typeof_object v then inr v else inl (createTextElement v)
  end.

(** [createElement(type, props, ...children)]: [{...props, children}]
    copies the own entries of [props] ([null] having none) and then
    defines [children], replacing an entry of that name. *)
Definition createElement (type : etype) (props : list (string * value))
    (children : list child_value) : created_element :=
  CreatedElement type
    (List.filter (fun kv => negb (String.eqb (fst kv) "children")) props)
    (map wrap_child children).

(** The elements of a [children] array that holds nothing else. *)
Fixpoint all_elements (cs : list child_value) : option (list element) :=
  match cs with
  | [] => Some []
  | inl e :: cs' => option_map (cons e) (all_elements cs')
  | inr _ :: _ => None
  end.

(** The created element as an Element of the data model, when all its
    children are elements. *)
Definition as_element (c : created_element) : option element :=
  option_map (fun cs => Element (ce_type c) (Props (ce_attrs c) (Some cs)))
             (all_elements (ce_children c)).

(** ** Host adapter: [createDom] (lines 61-70) *)

Definition createDom (fiber : Fiber.t) : M node :=
  n <- gets created ;;
  modify (set_created (S n)) ;;;
  let dom := Created n in
  emit (Dom (if bool_decide (Fiber.type fiber = Some ElementType.TEXT_ELEMENT)
             then CreateTextNode dom
             else CreateElement (Fiber.type fiber) dom)) ;;;
  emit_ops (updateDom dom empty_object (Fiber.props fiber)) ;;;
  ret dom.

(** ** Commit (lines 134-195) *)

(** [commitDeletion(fiber, domParent)]; the recursive call passes
    [fiber.child], which may be [undefined]. *)
Fixpoint commitDeletion (fuel : nat) (fiber : option ref) (domParent : node) : M unit :=
  match fuel with
  | O => throw OutOfFuel
  | S fuel' =>
      r <- the fiber ;;
      f <- deref r ;;
      match Fiber.dom f with
      | Some d => emit (Dom (RemoveChild domParent d))
      | None => commitDeletion fuel' (Fiber.child f) domParent
      end
  end.

(** Lines 154-158: the nearest ancestor that owns a host node. *)
Fixpoint domParentOf (fuel : nat) (domParentFiber : option ref) : M node :=
  match fuel with
  | O => throw OutOfFuel
  | S fuel' =>
      r <- the domParentFiber ;;
      f <- deref r ;;
      match Fiber.dom f with
      | Some d => ret d
      | None => domParentOf fuel' (Fiber.parent f)
      end
  end.

(** Lines 160-176: what [commitWork] does for the fiber itself. *)
Definition commitEffect (fuel : nat) (r : ref) (f : Fiber.t) (domParent : node) : M unit :=
  match Fiber.effectTag f, Fiber.dom f with
  | Some PLACEMENT, Some d => emit (Dom (AppendChild domParent d))
  | Some UPDATE, Some d =>
      a <- the (Fiber.alternate f) ;;
      alt <- deref a ;;
      emit_ops (updateDom d (Fiber.props alt) (Fiber.props f))
  | Some DELETION, _ => commitDeletion fuel (Some r) domParent
  | _, _ => ret tt
  end.

(** [commitWork(fiber)].  Nothing in the commit writes to a fiber's links,
    so [fiber.child] and [fiber.sibling] are read from the record fetched on
    entry. *)
Fixpoint commitWork (fuel : nat) (fiber : option ref) : M unit :=
  match fiber with
  | None => ret tt
  | Some r =>
      match fuel with
      | O => throw OutOfFuel
      | S fuel' =>
          f <- deref r ;;
          domParent <- domParentOf fuel (Fiber.parent f) ;;
          commitEffect fuel r f domParent ;;;
          commitWork fuel' (Fiber.child f) ;;;
          commitWork fuel' (Fiber.sibling f)
      end
  end.

(** [wipFiber.hooks[hookIndex].cleanup = cleanup], with the variables as
    they are when the closure runs. *)
Definition store_cleanup (c : callback) : M unit :=
  wf <- gets wipFiber ;;
  r <- the wf ;;
  f <- deref r ;;
  hs <- the (Fiber.hooks f) ;;
  i <- gets hookIndex ;;
  h <- the (hs !! i) ;;
  update r (Fiber.set_hooks
              (Some (<[i := Hook.mk (Hook.state h) (Hook.queue h)
                                    (Hook.dependencies h) (Some c)]> hs))).

(** Calling a function of an [effects] or [cleanups] list.  What a function
    of the application does is its own business and is recorded as a call;
    the closure of [useEffect] calls its callback and keeps the cleanup it
    returns (lines 303-308). *)
Definition run_callback (c : callback) : M unit :=
  match c with
  | UserFn id => emit (Call id)
  | EffectClosure fn =>
      emit (Call (fn_id fn)) ;;;
      match fn_cleanup fn with
      | Some cleanup => store_cleanup (UserFn cleanup)
      | None => ret tt
      end
  end.

Definition commitRoot (fuel : nat) : M unit :=
  wr <- gets wipRoot ;;
  r <- the wr ;;
  root <- deref r ;;
  cleanups <- the (Fiber.cleanups root) ;;
  forEach cleanups run_callback ;;;
  ds <- gets deletions ;;
  ds <- the ds ;;
  forEach ds (fun d => commitWork fuel (Some d)) ;;;
  wr <- gets wipRoot ;;
  r <- the wr ;;
  root <- deref r ;;
  commitWork fuel (Fiber.child root) ;;;
  wr <- gets wipRoot ;;
  r <- the wr ;;
  root <- deref r ;;
  effects <- the (Fiber.effects root) ;;
  forEach effects run_callback ;;;
  wr <- gets wipRoot ;;
  modify (set_currentRoot wr) ;;;
  modify (set_wipRoot None).

(** ** [render] (lines 203-213) *)

Definition render (element : element) (container : option node) : M unit :=
  cr <- gets currentRoot ;;
  r <- alloc (Fiber.mk None (Props [] (Some [element])) container
                None None None cr None None None None) ;;
  modify (set_wipRoot (Some r)) ;;;
  modify (set_deletions (Some [])) ;;;
  wr <- gets wipRoot ;;
  modify (set_nextUnitOfWork wr).

(** ** [reconcileChildren] (lines 373-429) *)

(** One turn of the loop body, for position [index]: the result is the
    pair of the loop variables [oldFiber] and [prevSibling] for the next
    turn.  [element.type == oldFiber.type] holds for the same tag or the
    same function; a tag and a function are taken as different (JavaScript
    would compare the tag with the function's source text). *)
Definition reconcile_position (wipFiber : ref) (elements : list element)
    (index : nat) (oldFiber prevSibling : option ref) : M (option ref * option ref) :=
  let element := elements !! index in
  old <- match oldFiber with
         | Some o => f <- deref o ;; ret (Some f)
         | None => ret None
         end ;;
  let sameType :=
    match old, element with
    | Some o, Some e => bool_decide (Some (el_type e) = Fiber.type o)
    | _, _ => false
    end in
  newFiber <- match old, element with
              | Some o, Some e =>
                  if sameType
                  then n <- alloc (Fiber.mk (Fiber.type o) (el_props e) (Fiber.dom o)
                                     (Some wipFiber) None None oldFiber (Some UPDATE)
                                     None None None) ;;
                       ret (Some n)
                  else ret None
              | _, _ => ret None
              end ;;
  newFiber <- match element with
              | Some e =>
                  if sameType then ret newFiber
                  else n <- alloc (Fiber.mk (Some (el_type e)) (el_props e) None
                                     (Some wipFiber) None None None (Some PLACEMENT)
                                     None None None) ;;
                       ret (Some n)
              | None => ret newFiber
              end ;;
  match oldFiber with
  | Some o =>
      if sameType then ret tt
      else update o (Fiber.set_effectTag (Some DELETION)) ;;;
           ds <- gets deletions ;;
           ds <- the ds ;;
           modify (set_deletions (Some (ds ++ [o])))
  | None => ret tt
  end ;;;
  oldFiber' <- match oldFiber with
               | Some o => f <- deref o ;; ret (Fiber.sibling f)
               | None => ret None
               end ;;
  match index with
  | O => update wipFiber (Fiber.set_child newFiber)
  | S _ =>
      match element with
      | Some _ =>
          p <- the prevSibling ;;
          update p (Fiber.set_sibling newFiber)
      | None => ret tt
      end
  end ;;;
  ret (oldFiber', newFiber).

(** The [while] loop of lines 379-428. *)
Fixpoint reconcile_loop (fuel : nat) (wipFiber : ref) (elements : list element)
    (index : nat) (oldFiber prevSibling : option ref) : M unit :=
  if bool_decide (index < length elements) || bool_decide (is_Some oldFiber) then
    match fuel with
    | O => throw OutOfFuel
    | S fuel' =>
        next <- reconcile_position wipFiber elements index oldFiber prevSibling ;;
        reconcile_loop fuel' wipFiber elements (S index) (fst next) (snd next)
    end
  else ret tt.

Definition reconcileChildren (fuel : nat) (wipFiber : ref) (elements : list element) : M unit :=
  w <- deref wipFiber ;;
  oldFiber <- match Fiber.alternate w with
              | Some a => alt <- deref a ;; ret (Fiber.child alt)
              | None => ret None
              end ;;
  reconcile_loop fuel wipFiber elements 0 oldFiber None.

(** ** Hook state store (lines 285-351) *)

(** [wipFiber.alternate && wipFiber.alternate.hooks &&
    wipFiber.alternate.hooks[hookIndex]]: a hook record, or a falsy value. *)
Definition oldHookOf : M (option Hook.t) :=
  wf <- gets wipFiber ;;
  r <- the wf ;;
  f <- deref r ;;
  match Fiber.alternate f with
  | None => ret None
  | Some a =>
      alt <- deref a ;;
      match Fiber.hooks alt with
      | None => ret None
      | Some hs => i <- gets hookIndex ;; ret (hs !! i)
      end
  end.

(** [wipFiber.hooks.push(hook)] *)
Definition push_hook (hook : Hook.t) : M nat :=
  wf <- gets wipFiber ;;
  r <- the wf ;;
  f <- deref r ;;
  hs <- the (Fiber.hooks f) ;;
  update r (Fiber.set_hooks (Some (hs ++ [hook]))) ;;;
  ret (length hs).

Definition push_cleanup (c : callback) : M unit :=
  wf <- gets wipFiber ;;
  r <- the wf ;;
  f <- deref r ;;
  cs <- the (Fiber.cleanups f) ;;
  update r (Fiber.set_cleanups (Some (cs ++ [c]))).

Definition push_effect (c : callback) : M unit :=
  wf <- gets wipFiber ;;
  r <- the wf ;;
  f <- deref r ;;
  es <- the (Fiber.effects f) ;;
  update r (Fiber.set_effects (Some (es ++ [c]))).

(** [dependencies.some((dep, i) => dep !== old[i])], where [old] is the
    prior record's [dependencies] field; indexing [undefined] throws, on
    the first element tested. *)
Definition some_dep_differs (dependencies : list value) (old : option (list value)) : M bool :=
  match dependencies, old with
  | [], _ => ret false
  | _ :: _, None => throw TypeError
  | _ :: _, Some o =>
      ret (existsb id
             (imap (fun i dep => strict_neq dep (default VUndefined (o !! i)))
                   dependencies))
  end.

(** [useEffect(callback, dependencies)]; [dependencies] is [None] when the
    caller passes no list. *)
Definition useEffect (callback : effect_fn) (dependencies : option (list value)) : M unit :=
  oldHook <- oldHookOf ;;
  hasChanged <- match oldHook with
                | Some h =>
                    deps <- the dependencies ;;
                    some_dep_differs deps (Hook.dependencies h)
                | None => ret true
                end ;;
  (if hasChanged then
     match oldHook with
     | Some h =>
         match Hook.cleanup h with
         | Some c => push_cleanup c
         | None => ret tt
         end
     | None => ret tt
     end ;;;
     push_effect (EffectClosure callback)
   else ret tt) ;;;
  push_hook (Hook.mk VUndefined None dependencies None) ;;;
  modify (fun s => set_hookIndex (S (hookIndex s)) s).

(** The [setState] closure of a state hook is named by the hook object it
    captured: the fiber whose [hooks] array holds it and its position there.
    (A fiber's [hooks] array is written once, when the fiber is rendered.) *)
Definition setter : Type := ref * nat.

(** [useState(initial)], up to the pair it returns. *)
Definition useState (initial : value) : M (value * setter) :=
  oldHook <- oldHookOf ;;
  let state0 := match oldHook with Some h => Hook.state h | None => initial end in
  actions <- match oldHook with
             | Some h => the (Hook.queue h)
             | None => ret []
             end ;;
  let state := fold_left (fun st action => action st) actions state0 in
  wf <- gets wipFiber ;;
  r <- the wf ;;
  i <- push_hook (Hook.mk state (Some []) None None) ;;
  modify (fun s => set_hookIndex (S (hookIndex s)) s) ;;;
  ret (state, (r, i)).

(** A call [setState(action)] of the closure built at lines 337-346. *)
Definition setState (h : setter) (action : value -> value) : M unit :=
  f <- deref (fst h) ;;
  match Fiber.hooks f with
  | None => throw InvalidRef
  | Some hs =>
      match hs !! snd h with
      | None => throw InvalidRef
      | Some hook =>
          q <- the (Hook.queue hook) ;;
          update (fst h)
            (Fiber.set_hooks
               (Some (<[snd h := Hook.mk (Hook.state hook) (Some (q ++ [action]))
                                    (Hook.dependencies hook) (Hook.cleanup hook)]> hs)))
      end
  end ;;;
  cr <- gets currentRoot ;;
  c <- the cr ;;
  root <- deref c ;;
  r <- alloc (Fiber.mk None (Fiber.props root) (Fiber.dom root)
                None None None cr None None None None) ;;
  modify (set_wipRoot (Some r)) ;;;
  wr <- gets wipRoot ;;
  modify (set_nextUnitOfWork wr) ;;;
  modify (set_deletions (Some [])).

(** ** Function components

    The body of a function component, as far as the module sees it: a
    sequence of hook calls, each continued with what the hook returned,
    ended by the element the function returns. *)
Inductive prog : Type :=
| Return (e : element)
| UseState (initial : value) (k : value -> setter -> prog)
| UseEffect (callback : effect_fn) (dependencies : option (list value)) (k : prog).

Fixpoint run_prog (p : prog) : M element :=
  match p with
  | Return e => ret e
  | UseState initial k =>
      res <- useState initial ;;
      run_prog (k (fst res) (snd res))
  | UseEffect callback dependencies k =>
      useEffect callback dependencies ;;;
      run_prog k
  end.

Section Scheduler.

(** The function components of the application, by identity. *)
Variable component : nat -> props -> prog.

(** ** Units of work (lines 242-278, 361-366) *)

Definition updateFunctionComponent (fuel : nat) (fiber : ref) : M unit :=
  modify (set_wipFiber (Some fiber)) ;;;
  modify (set_hookIndex 0) ;;;
  update fiber (Fiber.set_hooks (Some [])) ;;;
  update fiber (Fiber.set_effects (Some [])) ;;;
  update fiber (Fiber.set_cleanups (Some [])) ;;;
  f <- deref fiber ;;
  match Fiber.type f with
  | Some (Component fn) =>
      e <- run_prog (component fn (Fiber.props f)) ;;
      reconcileChildren fuel fiber [e]
  | _ => throw TypeError
  end.

(** [reconcileChildren] reads [elements.length] first: a props object
    without [children] makes it throw. *)
Definition updateHostComponent (fuel : nat) (fiber : ref) : M unit :=
  f <- deref fiber ;;
  match Fiber.dom f with
  | Some _ => ret tt
  | None =>
      d <- createDom f ;;
      update fiber (Fiber.set_dom (Some d))
  end ;;;
  f <- deref fiber ;;
  elements <- the (children (Fiber.props f)) ;;
  reconcileChildren fuel fiber elements.

(** Lines 253-259: the walk up to a fiber with a sibling. *)
Fixpoint nextSibling (fuel : nat) (nextFiber : option ref) : M (option ref) :=
  match nextFiber with
  | None => ret None
  | Some r =>
      match fuel with
      | O => throw OutOfFuel
      | S fuel' =>
          f <- deref r ;;
          match Fiber.sibling f with
          | Some sb => ret (Some sb)
          | None => nextSibling fuel' (Fiber.parent f)
          end
      end
  end.

Definition performUnitOfWork (fuel : nat) (fiber : ref) : M (option ref) :=
  f <- deref fiber ;;
  (if isFunctionComponent f
   then updateFunctionComponent fuel fiber
   else updateHostComponent fuel fiber) ;;;
  f <- deref fiber ;;
  match Fiber.child f with
  | Some c => ret (Some c)
  | None => nextSibling fuel (Some fiber)
  end.

(** ** The cooperative loop (lines 219-233)

    [deadline k] is what the [k]-th call of [deadline.timeRemaining()]
    answers.  Next to the outcome, the loop reports the fibers it handed to
    [performUnitOfWork], in order.  [n] bounds the turns of the [while];
    [fuel] is passed on to the loops of the callees. *)
Fixpoint workLoop_while (fuel n : nat) (deadline : nat -> Q) (k : nat)
    (shouldYield : bool) (s : state) : list ref * outcome unit :=
  match nextUnitOfWork s with
  | Some fiber =>
      if shouldYield then ([], Ok tt s)
      else
        match n with
        | O => ([], Throw OutOfFuel s)
        | S n' =>
            match performUnitOfWork fuel fiber s with
            | Ok next s1 =>
                let rest := workLoop_while fuel n' deadline (S k)
                              (negb (Qle_bool 1 (deadline k)))
                              (set_nextUnitOfWork next s1) in
                (fiber :: fst rest, snd rest)
            | Throw e s1 => ([fiber], Throw e s1)
            end
        end
  | None => ([], Ok tt s)
  end.

(** Lines 228-230. *)
Definition commit_when_done (fuel : nat) : M unit :=
  nu <- gets nextUnitOfWork ;;
  wr <- gets wipRoot ;;
  match nu, wr with
  | None, Some _ => commitRoot fuel
  | _, _ => ret tt
  end.

Definition then_commit (fuel : nat) (r : list ref * outcome unit) : list ref * outcome unit :=
  match snd r with
  | Ok _ s1 => (fst r, commit_when_done fuel s1)
  | Throw e s1 => (fst r, Throw e s1)
  end.

(** One call of [workLoop] by the host.  Its last statement registers the
    function for the next idle period; an exception skips it. *)
Definition workLoop (fuel n : nat) (deadline : nat -> Q) (s : state)
    : list ref * outcome unit :=
  then_commit fuel (workLoop_while fuel n deadline 0 false s).

(** The successive idle periods the host grants, each with its deadline.
    After an exception the function is registered no more. *)
Fixpoint idle_periods (fuel n : nat) (deadlines : list (nat -> Q)) (s : state)
    : list ref * outcome unit :=
  match deadlines with
  | [] => ([], Ok tt s)
  | deadline :: rest =>
      match workLoop fuel n deadline s with
      | (units, Ok _ s1) =>
          let r := idle_periods fuel n rest s1 in
          (units ++ fst r, snd r)
      | (units, Throw e s1) => (units, Throw e s1)
      end
  end.

End Scheduler.

(** ** The exported object (lines 431-435) *)

(** The functions the file declares. *)
Inductive function_name : Type :=
| createElement_ | createTextElement_ | createDom_ | updateDom_
| commitRoot_ | commitWork_ | commitDeletion_ | render_ | workLoop_
| performUnitOfWork_ | updateFunctionComponent_ | useEffect_ | useState_
| updateHostComponent_ | reconcileChildren_.

#[global] Instance function_name_eq_dec : EqDecision function_name.
Proof. solve_decision. Defined.

Definition declared : list function_name :=
  [ createElement_; createTextElement_; createDom_; updateDom_; commitRoot_;
    commitWork_; commitDeletion_; render_; workLoop_; performUnitOfWork_;
    updateFunctionComponent_; useEffect_; useState_; updateHostComponent_;
    reconcileChildren_ ].

(** [export const Loush = { createElement, render, useState }] *)
Definition Loush : list (string * function_name) :=
  [ ("createElement", createElement_); ("render", render_); ("useState", useState_) ].


(** ** Vocabulary of the statements *)

(** The sibling chain that starts at [o]: the fibers [o], [o.sibling], ...
    up to the one without a sibling.  A chain listed by a finite list is
    what the spec calls a finite chain. *)
Inductive sibling_chain (h : gmap ref Fiber.t) : option ref -> list ref -> Prop :=
| chain_end : sibling_chain h None []
| chain_next r f l :
    h !! r = Some f ->
    sibling_chain h (Fiber.sibling f) l ->
    sibling_chain h (Some r) (r :: l).

(** The function a callback of an [effects] or [cleanups] list calls. *)
Definition callback_id (c : callback) : nat :=
  match c with
  | UserFn id => id
  | EffectClosure fn => fn_id fn
  end.

(** The three phases of [commitRoot], for the statements about it: line 135,
    lines 136-137, lines 138-140. *)
Definition run_cleanups : M unit :=
  wr <- gets wipRoot ;;
  r <- the wr ;;
  root <- deref r ;;
  cleanups <- the (Fiber.cleanups root) ;;
  forEach cleanups run_callback.

Definition commit_tree (fuel : nat) : M unit :=
  ds <- gets deletions ;;
  ds <- the ds ;;
  forEach ds (fun d => commitWork fuel (Some d)) ;;;
  wr <- gets wipRoot ;;
  r <- the wr ;;
  root <- deref r ;;
  commitWork fuel (Fiber.child root).

Definition run_effects : M unit :=
  wr <- gets wipRoot ;;
  r <- the wr ;;
  root <- deref r ;;
  effects <- the (Fiber.effects root) ;;
  forEach effects run_callback ;;;
  wr <- gets wipRoot ;;
  modify (set_currentRoot wr) ;;;
  modify (set_wipRoot None).

(** The root fiber of the pending tree, like every fiber that is not a
    function component, carries neither a [cleanups] nor an [effects]
    list. *)
Definition bare_heap (h : gmap ref Fiber.t) (root : option ref) : Prop :=
  (forall r f, h !! r = Some f -> isFunctionComponent f = false ->
               Fiber.cleanups f = None /\ Fiber.effects f = None)
  /\ (forall r, root = Some r ->
                exists f, h !! r = Some f /\ Fiber.type f = None).

Definition root_bare (s : state) : Prop := bare_heap (heap s) (wipRoot s).

(** The ways the module is entered: the application calls [render], a
    [setState] closure is called, the host calls [workLoop] in an idle
    period. *)
Inductive entry : Type :=
| CallRender (element : element) (container : option node)
| CallSetState (h : setter) (action : value -> value)
| CallWorkLoop (deadline : nat -> Q).

Definition enter (component : nat -> props -> prog) (fuel n : nat)
    (c : entry) (s : state) : state :=
  match c with
  | CallRender element container => final (render element container s)
  | CallSetState h action => final (setState h action s)
  | CallWorkLoop deadline => final (snd (workLoop component fuel n deadline s))
  end.

(** The order of the walk, in the spec's words: after a fiber comes its
    child when it has one, otherwise the sibling of the nearest fiber that
    has one on the way up through the parents, the fiber itself first;
    nothing when the way up ends without one. *)
Inductive climb (h : gmap ref Fiber.t) : option ref -> option ref -> Prop :=
| climb_past_root : climb h None None
| climb_sibling r f sb :
    h !! r = Some f -> Fiber.sibling f = Some sb -> climb h (Some r) (Some sb)
| climb_parent r f next :
    h !! r = Some f -> Fiber.sibling f = None ->
    climb h (Fiber.parent f) next -> climb h (Some r) next.

Definition dfs_next (h : gmap ref Fiber.t) (fiber : ref) (next : option ref) : Prop :=
  exists f, h !! fiber = Some f
            /\ match Fiber.child f with
               | Some c => next = Some c
               | None => climb h (Some fiber) next
               end.

(** A run of idle periods is over when it ended in an exception or left
    neither a unit of work nor a pending root. *)
Definition settled (r : list ref * outcome unit) : Prop :=
  match snd r with
  | Ok _ s => nextUnitOfWork s = None /\ wipRoot s = None
  | Throw _ _ => True
  end.

(** The run was not cut short by the fuel of the embedding. *)
Definition fuel_sufficed (r : list ref * outcome unit) : Prop :=
  forall s, snd r <> Throw OutOfFuel s.

(** A deadline that never asks for a yield. *)
Definition no_deadline : nat -> Q := fun _ => 1%Q.

(** [key] is an own key of [p] other than [children]. *)
Definition own_key (p : props) (key : string) : Prop :=
  In key (map fst (attrs p)).



(** ** Vocabulary of the proofs *)

(** [keeps P m]: if [P] holds when [m] starts, it holds when [m] ends,
    normally or not. *)
Definition keeps {A} (P : state -> Prop) (m : M A) : Prop :=
  forall s, P s -> P (final (m s)).

(** The record [reconcileChildren] writes for a position: the one of lines
    392-399 when the types agree, the one of lines 402-409 otherwise. *)
Definition update_fiber (wipFiber o : ref) (fo : Fiber.t) (e : element) : Fiber.t :=
  Fiber.mk (Fiber.type fo) (el_props e) (Fiber.dom fo) (Some wipFiber)
           None None (Some o) (Some UPDATE) None None None.
Definition placement_fiber (wipFiber : ref) (e : element) : Fiber.t :=
  Fiber.mk (Some (el_type e)) (el_props e) None (Some wipFiber)
           None None None (Some PLACEMENT) None None None.

(** What holds whenever the loop condition is evaluated. *)
Definition loop_inv (wipFiber : ref) (elements : list element) (index : nat)
    (oldFiber prevSibling : option ref) (olds : list ref) (s : state) : Prop :=
  sibling_chain (heap s) oldFiber olds
  /\ is_Some (heap s !! wipFiber)
  /\ is_Some (deletions s)
  /\ (index <> 0 -> index < length elements ->
      exists p, prevSibling = Some p /\ is_Some (heap s !! p) /\ p ∉ olds).

(** What the turns of the loop leave of the fibers that exist already:
    they stay, with their type, props and parent; a DELETION tag stays; the
    tag of a fiber outside the old chain stays whatever it is. *)
Definition heap_frame (olds : list ref) (h h' : gmap ref Fiber.t) : Prop :=
  forall r f, h !! r = Some f ->
    exists f', h' !! r = Some f'
      /\ Fiber.type f' = Fiber.type f
      /\ Fiber.props f' = Fiber.props f
      /\ Fiber.parent f' = Fiber.parent f
      /\ (Fiber.effectTag f = Some DELETION -> Fiber.effectTag f' = Some DELETION)
      /\ (r ∉ olds -> Fiber.effectTag f' = Fiber.effectTag f).

(** [dom_only m]: whatever [m] does, it only appends host operations to the
    log. *)
Definition dom_only {A} (m : M A) : Prop :=
  forall s, exists ops, final (m s) = set_log (log s ++ map Dom ops) s.

(** [hooks_aside s s']: [s'] is [s] up to the log, the host's counter and
    the [hooks] of the fibers. *)
Definition hooks_aside (s s' : state) : Prop :=
  nextUnitOfWork s' = nextUnitOfWork s
  /\ currentRoot s' = currentRoot s
  /\ wipRoot s' = wipRoot s
  /\ deletions s' = deletions s
  /\ (forall r f, heap s !! r = Some f ->
        exists f', heap s' !! r = Some f'
                   /\ Fiber.set_hooks None f' = Fiber.set_hooks None f).

Section RunToCompletion.
Variable component : nat -> props -> prog.

(** The walk without yields: at most [m] units of work, in a row. *)
Definition walk (fuel m : nat) (s : state) : list ref * outcome unit :=
  workLoop_while component fuel m no_deadline 0 false s.

Definition finish (fuel m : nat) (s : state) : list ref * outcome unit :=
  then_commit fuel (walk fuel m s).

End RunToCompletion.


(** ** Example states *)

(** An application without function components, and two trees for it:
    a [div] with three [p] children, and the same [div] with one. *)
Definition no_components (fn : nat) (p : props) : prog :=
  Return (Element (Host "p") (Props [] (Some []))).
Definition p_element : element := Element (Host "p") (Props [] (Some [])).
Definition div_of_three : element :=
  Element (Host "div") (Props [] (Some [p_element; p_element; p_element])).
Definition div_of_one : element :=
  Element (Host "div") (Props [] (Some [p_element])).

(** The walk of a whole render pass, without the commit. *)
Definition walked (s : state) : state :=
  final (snd (walk no_components 10 10 s)).

(** The state lines 139-140 leave: the pending root is the current one. *)
Definition promoted (s : state) : state :=
  set_wipRoot None (set_currentRoot (wipRoot s) s).

(** [render(<div><p/><p/><p/></div>, container)] walked and taken as
    committed, then [render(<div><p/></div>, container)] walked: the pending
    tree and the pending deletions as the second commit finds them. *)
Definition first_pass : state :=
  walked (final (render div_of_three (Some (Container 0)) initial_state)).
Definition second_render : state :=
  final (render div_of_one (Some (Container 0)) (promoted first_pass)).
Definition second_pass : state := walked second_render.

(** The same state with empty [cleanups] and [effects] lists on the root,
    so that [commitRoot] gets past its first line. *)
Definition second_pass_with_lists : state :=
  set_heap
    (alter (fun f => Fiber.set_cleanups (Some []) (Fiber.set_effects (Some []) f))
           5 (heap second_pass))
    second_pass.


(** An updater in the manner of the repository's counter, guarded so that
    its sum is exact:
    [c => Number.isSafeInteger(c) && Number.isSafeInteger(c + 1) ? c + 1 : c].
    The safe integers are those of absolute value below [2^53]. *)
Definition isSafeInteger (z : Z) : bool := (Z.log2 (Z.abs z) <? 53)%Z.
Definition increment (v : value) : value :=
  match v with
  | VNum z => if isSafeInteger z && isSafeInteger (z + 1) then VNum (z + 1) else v
  | _ => v
  end.

(** A state hook holding 1, two calls of [setState(increment)], and the
    fiber rendered again. *)
Definition counter_hook : Hook.t := Hook.mk (VNum 1) (Some []) None None.
Definition counter_fiber : Fiber.t :=
  Fiber.mk (Some (Component 0)) (Props [] (Some [])) None None None None None
           (Some PLACEMENT) (Some [counter_hook]) (Some []) (Some []).
Definition counter_example : state :=
  State {[0 := counter_fiber]} 0 None None None (Some []) (Some 0) 1 [].
Definition counter_rerender_fiber : Fiber.t :=
  Fiber.mk (Some (Component 0)) (Props [] (Some [])) None None None None (Some 0)
           (Some UPDATE) (Some []) (Some []) (Some []).
Definition counter_rerender : state :=
  let s1 := fold_left (fun s action => final (setState (0, 0) action s))
                      [increment; increment] counter_example in
  set_hookIndex 0 (set_wipFiber (Some 1)
    (set_heap (<[1 := counter_rerender_fiber]> (heap s1)) s1)).

(** A deadline that asks for a yield after every unit of work. *)
Definition yield_always : nat -> Q := fun _ => 0%Q.

(** The second pass, stopped after the root's unit of work: the new [div]
    fiber 6 is about to reconcile its one child against the old chain of
    three. *)
Definition second_pass_at_div : state :=
  final (performUnitOfWork no_components 10 5 second_render).
Definition second_render_root : Fiber.t :=
  Fiber.mk None (Props [] (Some [div_of_one])) (Some (Container 0))
           None None None (Some 0) None None None None.

(** ** Vocabulary of the further properties *)

(** [relates R m]: the state [m] ends in, normally or not, stands in the
    relation [R] to the state it started in. *)
Definition relates {A} (R : state -> state -> Prop) (m : M A) : Prop :=
  forall s, R s (final (m s)).

(** A host operation that initialises the node [d]: it sets a property of
    [d] or adds a listener to it. *)
Definition initialises (d : node) (op : host_op) : Prop :=
  match op with
  | SetProperty d' _ _ | AddEventListener d' _ _ => d' = d
  | _ => False
  end.

(** The operation by which [createDom] asks the host for the node [d] of a
    fiber of type [ty] (lines 62-65). *)
Definition creation (ty : option etype) (d : node) : host_op :=
  if bool_decide (ty = Some ElementType.TEXT_ELEMENT)
  then CreateTextNode d
  else CreateElement ty d.

(** The first fiber with a host node on the way down through the [child]
    links from [o], [o] itself first: the node [commitDeletion] looks for. *)
Inductive first_host_node (h : gmap ref Fiber.t) : option ref -> node -> Prop :=
| host_node_here r f d :
    h !! r = Some f -> Fiber.dom f = Some d -> first_host_node h (Some r) d
| host_node_below r f d :
    h !! r = Some f -> Fiber.dom f = None ->
    first_host_node h (Fiber.child f) d -> first_host_node h (Some r) d.

(** The way down ends at a fiber without child before any host node. *)
Inductive no_host_node (h : gmap ref Fiber.t) : option ref -> Prop :=
| no_host_node_end : no_host_node h None
| no_host_node_below r f :
    h !! r = Some f -> Fiber.dom f = None ->
    no_host_node h (Fiber.child f) -> no_host_node h (Some r).

(** The nearest fiber with a host node on the way up through the [parent]
    links from [o], [o] itself first (lines 154-158). *)
Inductive host_ancestor (h : gmap ref Fiber.t) : option ref -> node -> Prop :=
| host_ancestor_here r f d :
    h !! r = Some f -> Fiber.dom f = Some d -> host_ancestor h (Some r) d
| host_ancestor_above r f d :
    h !! r = Some f -> Fiber.dom f = None ->
    host_ancestor h (Fiber.parent f) d -> host_ancestor h (Some r) d.

(** The way up ends past the root before any host node. *)
Inductive no_host_ancestor (h : gmap ref Fiber.t) : option ref -> Prop :=
| no_host_ancestor_end : no_host_ancestor h None
| no_host_ancestor_above r f :
    h !! r = Some f -> Fiber.dom f = None ->
    no_host_ancestor h (Fiber.parent f) -> no_host_ancestor h (Some r).

(** A function component fiber above a host fiber, under a root that has
    the container: fibers 0 (root), 1 (component), 2 (host [p]). *)
Definition nested_example : state :=
  State (<[2 := Fiber.mk (Some (Host "p")) (Props [] (Some [])) (Some (Created 0))
                         (Some 1) None None None (Some PLACEMENT) None None None]>
        (<[1 := Fiber.mk (Some (Component 0)) (Props [] (Some [])) None
                         (Some 0) (Some 2) None None (Some PLACEMENT)
                         (Some []) (Some []) (Some [])]>
           {[0 := Fiber.mk None (Props [] (Some [])) (Some (Container 0))
                           None (Some 1) None None None None None None]}))
        1 None None (Some 0) (Some []) None 0 [].

(** What a fiber record holds besides its links and its tag. *)
Definition beyond_links (f : Fiber.t) :=
  (Fiber.type f, Fiber.props f, Fiber.dom f, Fiber.parent f, Fiber.alternate f,
   Fiber.hooks f, Fiber.effects f, Fiber.cleanups f).

(** [links_only s s']: from [s] to [s'] nothing was asked of the host and no
    module variable changed but [deletions], which was at most extended;
    every fiber of [s] is still there, changed at most in its [child] and
    [sibling] links and in its tag, and the tag only to DELETION. *)
Definition links_only (s s' : state) : Prop :=
  log s' = log s
  /\ created s' = created s
  /\ nextUnitOfWork s' = nextUnitOfWork s
  /\ currentRoot s' = currentRoot s
  /\ wipRoot s' = wipRoot s
  /\ wipFiber s' = wipFiber s
  /\ hookIndex s' = hookIndex s
  /\ (exists dl, deletions s' = (fun ds => ds ++ dl) <$> deletions s)
  /\ (forall r f, heap s !! r = Some f ->
        exists f', heap s' !! r = Some f'
                   /\ beyond_links f' = beyond_links f
                   /\ (Fiber.effectTag f' = Fiber.effectTag f
                       \/ Fiber.effectTag f' = Some DELETION)).

(** Every fiber of [s] is still there in [s'], with the same [part]. *)
Definition fibers_keep {X} (part : Fiber.t -> X) (s s' : state) : Prop :=
  forall r f, heap s !! r = Some f ->
    exists f', heap s' !! r = Some f' /\ part f' = part f.

(** [element.type == oldFiber.type] (line 389) *)
Definition same_type (fo : Fiber.t) (e : element) : bool :=
  bool_decide (Some (el_type e) = Fiber.type fo).

(** The record [reconcileChildren] writes for an element that meets the
    old fiber [old] at its position; its [sibling] link is written by the
    next turn. *)
Definition fiber_for (h : gmap ref Fiber.t) (wipFiber : ref) (old : option ref)
    (e : element) : Fiber.t :=
  match old with
  | Some o =>
      match h !! o with
      | Some fo => if same_type fo e then update_fiber wipFiber o fo e
                   else placement_fiber wipFiber e
      | None => placement_fiber wipFiber e
      end
  | None => placement_fiber wipFiber e
  end.

(** The old fiber [o] meets an element of its own type. *)
Definition kept (h : gmap ref Fiber.t) (o : ref) (e : option element) : bool :=
  match h !! o, e with
  | Some fo, Some e => same_type fo e
  | _, _ => false
  end.

(** The old fibers that do not: those whose position holds an element of
    another type, or no element. *)
Fixpoint unmatched (h : gmap ref Fiber.t) (olds : list ref) (els : list element)
    : list ref :=
  match olds with
  | [] => []
  | o :: olds' =>
      (if kept h o (head els) then [] else [o]) ++ unmatched h olds' (tail els)
  end.

(** The children of the fiber's previous version: the sibling chain that
    starts at [alternate.child], none when there is no [alternate]. *)
Definition old_children (h : gmap ref Fiber.t) (w : Fiber.t) (olds : list ref) : Prop :=
  match Fiber.alternate w with
  | Some a => exists fa, h !! a = Some fa /\ sibling_chain h (Fiber.child fa) olds
  | None => olds = []
  end.

(** What the turns of the loop of [reconcileChildren] from position
    [index] on leave of the fibers that exist already: all but links and
    tag; the tag of a fiber outside the old chain, and a DELETION tag; the
    [child] link after the first turn; the [sibling] link of every fiber
    but the previous sibling. *)
Definition loop_frame (olds : list ref) (elements : list element) (index : nat)
    (prevSibling : option ref) (h h' : gmap ref Fiber.t) : Prop :=
  forall r f, h !! r = Some f ->
    exists f', h' !! r = Some f'
      /\ beyond_links f' = beyond_links f
      /\ (r ∉ olds -> Fiber.effectTag f' = Fiber.effectTag f)
      /\ (Fiber.effectTag f = Some DELETION -> Fiber.effectTag f' = Some DELETION)
      /\ (index <> 0 -> Fiber.child f' = Fiber.child f)
      /\ (Some r <> prevSibling \/ index = 0 \/ length elements <= index ->
          Fiber.sibling f' = Fiber.sibling f).

(** What the loop of [reconcileChildren], entered at position [index] in
    state [s], has done when it ends in [s'] with the new fibers [news]. *)
Definition loop_result (wipFiber : ref) (elements : list element) (index : nat)
    (prevSibling : option ref) (olds : list ref) (s s' : state) (news : list ref)
    : Prop :=
  length news = length elements - index
  /\ (forall n, n ∈ news -> heap s !! n = None)
  /\ (forall ds, deletions s = Some ds ->
        deletions s' = Some (ds ++ unmatched (heap s) olds (drop index elements)))
  /\ (forall o, o ∈ unmatched (heap s) olds (drop index elements) ->
        exists fo', heap s' !! o = Some fo' /\ Fiber.effectTag fo' = Some DELETION)
  /\ sibling_chain (heap s') (head news) news
  /\ (forall j n e, news !! j = Some n -> elements !! (index + j) = Some e ->
        exists fn, heap s' !! n = Some fn
                   /\ Fiber.set_sibling None fn
                      = fiber_for (heap s) wipFiber (olds !! j) e)
  /\ (index = 0 -> 0 < max (length elements) (length olds) ->
        exists w', heap s' !! wipFiber = Some w' /\ Fiber.child w' = head news)
  /\ (forall p, index <> 0 -> index < length elements -> prevSibling = Some p ->
        exists fp', heap s' !! p = Some fp' /\ Fiber.sibling fp' = head news)
  /\ loop_frame olds elements index prevSibling (heap s) (heap s').

(** Every old fiber meets an element of its own type, and every element an
    old fiber: the children are rendered again with the types they had. *)
Definition same_shape (h : gmap ref Fiber.t) (olds : list ref)
    (elements : list element) : Prop :=
  Forall2 (fun o e => kept h o (Some e) = true) olds elements.

(** The first pass rendered again with the same tree, stopped after the
    root's unit of work: the new [div] fiber 6 is about to reconcile three
    [p] elements against the old chain of three [p] fibers 2, 3, 4. *)
Definition same_pass_at_div : state :=
  final (performUnitOfWork no_components 10 5
           (final (render div_of_three (Some (Container 0)) (promoted first_pass)))).

(** The [div] fiber 6 of a second pass, before its children are
    reconciled. *)
Definition second_div (e : element) : Fiber.t :=
  Fiber.mk (Some (Host "div")) (el_props e) (Some (Created 0)) (Some 5) None None
           (Some 1) (Some UPDATE) None None None.

(** The fiber being rendered has as many hook records as [hookIndex]
    counts: every hook call has pushed one record and moved the index on
    by one. *)
Definition hook_slots_full (s : state) : Prop :=
  forall r, wipFiber s = Some r ->
    exists f hs, heap s !! r = Some f /\ Fiber.hooks f = Some hs
                 /\ length hs = hookIndex s.

(** A host operation that builds a node the host numbered from [lo] up to,
    not including, [hi]: it creates the node, sets a property of it or adds
    a listener to it. *)
Definition builds (lo hi : nat) (op : host_op) : Prop :=
  match op with
  | CreateTextNode (Created k) | CreateElement _ (Created k)
  | SetProperty (Created k) _ _ | AddEventListener (Created k) _ _ => lo <= k < hi
  | _ => False
  end.

(** What does not change when a fiber is rendered. *)
Definition identity (f : Fiber.t) :=
  (Fiber.type f, Fiber.props f, Fiber.parent f, Fiber.alternate f).

(** [render_step s s']: from [s] to [s'] the current and the pending root
    stayed; the host was only asked to build nodes it created in between,
    and no callback was called; every fiber of [s] is still there, with its
    type, props, parent and alternate, and with its host node if it had
    one. *)
Definition render_step (s s' : state) : Prop :=
  currentRoot s' = currentRoot s
  /\ wipRoot s' = wipRoot s
  /\ created s <= created s'
  /\ (exists ops, log s' = log s ++ map Dom ops
                  /\ Forall (builds (created s) (created s')) ops)
  /\ (forall r f, heap s !! r = Some f ->
        exists f', heap s' !! r = Some f'
                   /\ identity f' = identity f
                   /\ (forall d, Fiber.dom f = Some d -> Fiber.dom f' = Some d)).

(** A log that holds nothing but operations that build nodes. *)
Definition only_builds (l : list event) : Prop :=
  Forall (fun ev => exists op lo hi, ev = Dom op /\ builds lo hi op) l.

(** The first render, after the root's unit of work: fiber 1, for the
    [div], has no host node yet. *)
Definition first_pass_at_div : state :=
  final (performUnitOfWork no_components 10 0
           (final (render div_of_three (Some (Container 0)) initial_state))).

(** No tree made current, and nothing in the log but nodes being built. *)
Definition unshown (s : state) : Prop :=
  currentRoot s = None /\ only_builds (log s).

(** What the body [p] of a function component does when its fiber [r] is
    rendered for the first time, from hook position [i] on: the element it
    returns, the hook records it pushes and the effects it schedules.
    Without a previous version every [useState] returns its initial value
    with the [setState] closure of its record, and every [useEffect]
    schedules its callback. *)
Fixpoint first_run (p : prog) (r : ref) (i : nat)
    : element * (list Hook.t * list callback) :=
  match p with
  | Return e => (e, ([], []))
  | UseState initial k =>
      let res := first_run (k initial (r, i)) r (S i) in
      (fst res, (Hook.mk initial (Some []) None None :: fst (snd res), snd (snd res)))
  | UseEffect callback dependencies k =>
      let res := first_run k r (S i) in
      (fst res, (Hook.mk VUndefined None dependencies None :: fst (snd res),
                 EffectClosure callback :: snd (snd res)))
  end.

(** A component with a state hook and an effect, as the repository's
    counter example has them. *)
Definition counter_component (fn : nat) (p : props) : prog :=
  UseState (VNum 1)
    (fun count setCount =>
       UseEffect (EffectFn 3 None) (Some [count])
         (Return (Element (Host "h1") (Props [("title", count)] (Some []))))).

(** A function component fiber about to be rendered for the first time. *)
Definition component_fiber : Fiber.t :=
  Fiber.mk (Some (Component 0)) (Props [] (Some [])) None (Some 0) None None None
           (Some PLACEMENT) None None None.
Definition component_example : state :=
  State {[1 := component_fiber]} 0 (Some 1) None (Some 0) (Some []) None 0 [].

(** The fibers on the way up through the [parent] links from [o], [o]
    itself first, to the one without parent. *)
Inductive parent_chain (h : gmap ref Fiber.t) : option ref -> list ref -> Prop :=
| parent_chain_end : parent_chain h None []
| parent_chain_next r f l :
    h !! r = Some f ->
    parent_chain h (Fiber.parent f) l ->
    parent_chain h (Some r) (r :: l).

(** Every fiber of [s] other than those of [X] is still there in [s'],
    with the [child] and [sibling] links it had. *)
Definition keep_links_except (X : ref -> Prop) (s s' : state) : Prop :=
  forall r f, heap s !! r = Some f -> ~ X r ->
    exists f', heap s' !! r = Some f'
               /\ Fiber.child f' = Fiber.child f
               /\ Fiber.sibling f' = Fiber.sibling f.

(** The number of elements of an element tree, and of a list of trees. *)
Fixpoint esize (e : element) : nat :=
  match e with Element _ p => S (psize p) end
with psize (p : props) : nat :=
  match p with
  | Props _ (Some l) =>
      (fix sizes (l : list element) : nat :=
         match l with
         | [] => 0
         | x :: l' => esize x + sizes l'
         end) l
  | Props _ None => 0
  end.

Definition sizes (l : list element) : nat := psize (Props [] (Some l)).

(** A tree of host elements, as [createElement] builds them from tags and
    primitives: every node has a tag, not a function, as its type and a
    [children] array. *)
#[warnings="-register-all"]
Inductive host_tree : element -> Prop :=
| host_tree_node tag attrs cs :
    Forall host_tree cs ->
    host_tree (Element (Host tag) (Props attrs (Some cs))).

(** [built h n r e l]: in the heap [h] the fiber [r] and the fibers below
    it are the rendered tree of the element [e]: [r] has the type and the
    props of [e], is tagged PLACEMENT, has no previous version, and has
    the host node the host numbered [n]; its [child] link leads to the
    chain of the fibers of the children of [e], in order, each with [r] as
    parent, and these are built in turn, with the host nodes numbered on
    in document order.  [l] lists the fibers of the tree in document
    order. *)
Inductive built (h : gmap ref Fiber.t) : nat -> ref -> element -> list ref -> Prop :=
| built_node n r f e cs kids ls :
    h !! r = Some f ->
    Fiber.type f = Some (el_type e) ->
    Fiber.props f = el_props e ->
    Fiber.dom f = Some (Created n) ->
    Fiber.effectTag f = Some PLACEMENT ->
    Fiber.alternate f = None ->
    children (el_props e) = Some cs ->
    sibling_chain h (Fiber.child f) kids ->
    built_children h (S n) r kids cs ls ->
    built h n r e (r :: ls)
with built_children (h : gmap ref Fiber.t)
    : nat -> ref -> list ref -> list element -> list ref -> Prop :=
| built_none n p : built_children h n p [] [] []
| built_more n p k f kids c cs l ls :
    h !! k = Some f ->
    Fiber.parent f = Some p ->
    built h n k c l ->
    built_children h (n + esize c) p kids cs ls ->
    built_children h n p (k :: kids) (c :: cs) (l ++ ls).

Section Runs.
Variable component : nat -> props -> prog.
Variable fuel : nat.

(** [runs k s units s']: [k] units of work in a row, as the loop of
    [workLoop] performs them, lead from [s] to [s']; [units] are the
    fibers handed to [performUnitOfWork]. *)
Inductive runs : nat -> state -> list ref -> state -> Prop :=
| runs_none s : runs 0 s [] s
| runs_unit k s fiber next s1 units s' :
    nextUnitOfWork s = Some fiber ->
    performUnitOfWork component fuel fiber s = Ok next s1 ->
    runs k (set_nextUnitOfWork next s1) units s' ->
    runs (S k) s (fiber :: units) s'.

(** The units of work of the tree of the fiber [r], pending in [s] as the
    fiber of the element [e] under the parent [p] with the sibling [sb],
    have led to [s'], through [r] and then the fibers [l]. *)
Definition subtree_done (s : state) (r p : ref) (sb : option ref) (e : element)
    (s' : state) (l : list ref) : Prop :=
  runs (esize e) s (r :: l) s'
  /\ (forall x, x ∈ l -> heap s !! x = None)
  /\ (forall x, x ∈ r :: l -> is_Some (heap s' !! x))
  /\ (forall h, (forall x, x ∈ r :: l -> h !! x = heap s' !! x) ->
                built h (created s) r e (r :: l))
  /\ climb (heap s') (Some r) (nextUnitOfWork s')
  /\ (forall r' f', heap s !! r' = Some f' -> r' <> r -> heap s' !! r' = Some f')
  /\ (exists f', heap s' !! r = Some f' /\ Fiber.parent f' = Some p
                  /\ Fiber.sibling f' = sb)
  /\ created s' = created s + esize e
  /\ deletions s' = deletions s
  /\ wipRoot s' = wipRoot s
  /\ currentRoot s' = currentRoot s.

(** The same for the trees of the children [kids] of [r], pending in [s]
    as the fibers of the elements [cs]. *)
Definition children_done (s : state) (r : ref) (kids : list ref) (cs : list element)
    (s' : state) (ls : list ref) : Prop :=
  runs (sizes cs) s ls s'
  /\ (forall x, x ∈ ls -> x ∈ kids \/ heap s !! x = None)
  /\ (forall x, x ∈ ls -> is_Some (heap s' !! x))
  /\ (forall k, k ∈ kids -> k ∈ ls)
  /\ (forall h, (forall x, x ∈ ls -> h !! x = heap s' !! x) ->
                built_children h (created s) r kids cs ls)
  /\ (forall i k, kids !! i = Some k ->
        exists f', heap s' !! k = Some f' /\ Fiber.sibling f' = kids !! S i)
  /\ (kids <> [] -> climb (heap s') (Some r) (nextUnitOfWork s'))
  /\ (forall r' f', heap s !! r' = Some f' -> r' ∉ kids -> heap s' !! r' = Some f')
  /\ created s' = created s + sizes cs
  /\ deletions s' = deletions s
  /\ wipRoot s' = wipRoot s
  /\ currentRoot s' = currentRoot s.

End Runs.
(** ** Vocabulary of the statements about whole runs *)

(** The counter component mounted: [render(<Counter />, container)] on the
    module as loaded. *)
Definition counter_app : element := Element (Component 0) (Props [] (Some [])).
Definition counter_mounted : state :=
  final (render counter_app (Some (Container 0)) initial_state).

(** [render(<div><p/><p/><p/></div>, container)] on the module as loaded. *)
Definition div_mounted : state :=
  final (render div_of_three (Some (Container 0)) initial_state).

(** The walk came to its end: no unit of work is left, or a unit of work
    threw an exception of its own (not the fuel of the embedding). *)
Definition walk_ended (r : list ref * outcome unit) : Prop :=
  match snd r with
  | Ok _ s => nextUnitOfWork s = None
  | Throw e _ => e <> OutOfFuel
  end.

Section Walks.
Variable component : nat -> props -> prog.
Variable fuel : nat.

(** [depth_first s units o]: from [s], the units of work [units] were
    performed one after the other, each on the fiber the one before it
    returned, and each returned fiber is the next in depth-first order
    (the child, else the sibling found on the way up); the last one
    returned nothing, leaving [o], or threw, leaving [o]. *)
Inductive depth_first : state -> list ref -> outcome unit -> Prop :=
| depth_first_done s :
    nextUnitOfWork s = None -> depth_first s [] (Ok tt s)
| depth_first_throw s fiber e s1 :
    nextUnitOfWork s = Some fiber ->
    performUnitOfWork component fuel fiber s = Throw e s1 ->
    depth_first s [fiber] (Throw e s1)
| depth_first_unit s fiber next s1 units o :
    nextUnitOfWork s = Some fiber ->
    performUnitOfWork component fuel fiber s = Ok next s1 ->
    dfs_next (heap s1) fiber next ->
    depth_first (set_nextUnitOfWork next s1) units o ->
    depth_first s (fiber :: units) o.

End Walks.


(** * Properties *)

(** ** The monad: what a computation keeps true *)

Lemma final_bind {A B} (m : M A) (k : A -> M B) (s : state) :
  final (bind m k s) =
    match m s with
    | Ok a s' => final (k a s')
    | Throw _ s' => s'
    end.
Proof. unfold bind. by destruct (m s). Qed.

Section Keeps.
Context (P : state -> Prop).

Lemma keeps_ret {A} (a : A) : keeps P (ret a).
Proof. by intros s. Qed.

Lemma keeps_throw {A} (e : error) : keeps P (@throw A e).
Proof. by intros s. Qed.

Lemma keeps_gets {A} (f : state -> A) : keeps P (gets f).
Proof. by intros s. Qed.

Lemma keeps_the {A} (o : option A) : keeps P (the o).
Proof. by destruct o; intros s. Qed.

Lemma keeps_deref (r : ref) : keeps P (deref r).
Proof. intros s. unfold deref. by destruct (heap s !! r). Qed.

Lemma keeps_bind {A B} (m : M A) (k : A -> M B) :
  keeps P m -> (forall a, keeps P (k a)) -> keeps P (bind m k).
Proof.
  intros Hm Hk s Hs. rewrite final_bind. specialize (Hm s Hs).
  destruct (m s) as [a s'|e s']; simpl in Hm; [by apply Hk|done].
Qed.

Lemma keeps_modify (f : state -> state) :
  (forall s, P s -> P (f s)) -> keeps P (modify f).
Proof. intros Hf s Hs. by apply Hf. Qed.

Lemma keeps_forEach {A} (l : list A) (f : A -> M unit) :
  (forall x, keeps P (f x)) -> keeps P (forEach l f).
Proof.
  intros Hf. induction l as [|x l IH]; simpl.
  - apply keeps_ret.
  - apply keeps_bind; [apply Hf|intros _; apply IH].
Qed.

(** A write to a fiber the heap holds, when [P] survives it. *)
Lemma keeps_update (r : ref) (g : Fiber.t -> Fiber.t) :
  (forall s f, P s -> heap s !! r = Some f ->
               P (set_heap (<[r := g f]> (heap s)) s)) ->
  keeps P (update r g).
Proof.
  intros H s Hs. unfold update, bind, deref, modify.
  destruct (heap s !! r) as [f|] eqn:E; simpl; [by apply H|done].
Qed.

Lemma keeps_alloc (f : Fiber.t) :
  (forall s r, P s -> heap s !! r = None ->
               P (set_heap (<[r := f]> (heap s)) s)) ->
  keeps P (alloc f).
Proof.
  intros H s Hs. unfold alloc. simpl. apply H; [done|].
  apply not_elem_of_dom, is_fresh.
Qed.
End Keeps.

(** Structure-directed proof of [keeps P m]: peel the binds and branch on
    the scrutinees; what is left are the writes. *)
Ltac keeps_structure :=
  repeat lazymatch goal with
    | |- keeps _ (ret _) => apply keeps_ret
    | |- keeps _ (throw _) => apply keeps_throw
    | |- keeps _ (gets _) => apply keeps_gets
    | |- keeps _ (the _) => apply keeps_the
    | |- keeps _ (deref _) => apply keeps_deref
    | |- keeps _ (bind _ _) => apply keeps_bind; [|intros ?]
    | |- keeps _ (forEach _ _) => apply keeps_forEach; intros ?
    | |- keeps _ (match ?x with _ => _ end) => destruct x
    | |- keeps _ (let _ := _ in _) => cbv zeta
    | |- _ => fail
    end.
(** ** [updateDom] *)

Lemma isEvent_on (key : string) :
  isEvent key = true <-> exists rest, key = "on" +:+ rest.
Proof.
  unfold isEvent. split.
  - destruct key as [|a [|b rest]]; cbn [String.prefix]; try discriminate.
    + destruct (ascii_dec "o"%char a); intros; discriminate.
    + destruct (ascii_dec "o"%char a) as [<-|]; [|intros; discriminate].
      destruct (ascii_dec "n"%char b) as [<-|]; [|intros; discriminate].
      intros _. by exists rest.
  - intros [rest ->]. cbn [String.prefix String.append].
    destruct (ascii_dec "o"%char "o"%char); [|congruence].
    destruct (ascii_dec "n"%char "n"%char); [|congruence].
    by destruct rest.
Qed.

Lemma eventType_on (rest : string) :
  substring 2 (toLowerCase ("on" +:+ rest)) = toLowerCase rest.
Proof. reflexivity. Qed.

Lemma isEvent_not_on (key : string) :
  isEvent key = false <-> forall rest, key <> "on" +:+ rest.
Proof.
  split.
  - intros E rest ->. by rewrite (proj2 (isEvent_on _)) in E; [|eexists].
  - intros H. destruct (isEvent key) eqn:E; [|reflexivity].
    apply isEvent_on in E as [rest ->]. by destruct (H rest).
Qed.

Lemma isProperty_spec (key : string) :
  isProperty key = true <-> key <> "children" /\ isEvent key = false.
Proof.
  unfold isProperty. rewrite andb_true_iff, !negb_true_iff.
  rewrite String.eqb_neq. tauto.
Qed.

Lemma inherited_spec (key : string) :
  inherited key = true <-> In key Object_prototype.
Proof.
  unfold inherited. rewrite bool_decide_eq_true. apply list_elem_of_In.
Qed.

(** No member of [Object.prototype] is an event key, and none is called
    [children]. *)
Lemma inherited_property (key : string) :
  In key Object_prototype -> isEvent key = false /\ key <> "children".
Proof.
  unfold Object_prototype. simpl.
  intros H. repeat (destruct H as [<-|H]; [by split|]). done.
Qed.

Lemma own_key_keys (p : props) (key : string) :
  key <> "children" -> (In key (Object_keys p) <-> own_key p key).
Proof.
  intros Hc. unfold Object_keys, own_key. rewrite in_app_iff.
  split; [|by left]. intros [H|H]; [done|].
  destruct (children p); simpl in H; [|done]. by destruct H as [<-|[]].
Qed.

Lemma key_in_spec (key : string) (p : props) :
  key <> "children" ->
  (key_in key p = true <-> own_key p key \/ In key Object_prototype).
Proof.
  intros Hc. unfold key_in.
  rewrite orb_true_iff, bool_decide_eq_true, list_elem_of_In, inherited_spec.
  by rewrite own_key_keys.
Qed.

(** An event key is in an object exactly when it is an own key. *)
Lemma key_in_event (rest : string) (p : props) :
  key_in ("on" +:+ rest) p = true <-> own_key p ("on" +:+ rest).
Proof.
  rewrite key_in_spec by done. split; [|by left]. intros [H|H]; [done|].
  apply inherited_property in H as [H _].
  by rewrite (proj2 (isEvent_on _)) in H; [|eexists].
Qed.

Lemma strict_neq_spec (a b : value) :
  strict_neq a b = true <-> a <> b \/ a = VNaN.
Proof.
  unfold strict_neq.
  destruct a, b; try rewrite bool_decide_eq_true;
    first [ by intuition congruence | by split; [intros _; by right|done]
          | by split; [intros _; by left|done] ].
Qed.






Section Passes.
Variables (dom : node) (prevProps nextProps : props).

Lemma removed_listeners_spec (op : host_op) :
  In op (removed_listeners dom prevProps nextProps) <->
    exists rest,
      own_key prevProps ("on" +:+ rest)
      /\ (~ own_key nextProps ("on" +:+ rest) \/ isNew prevProps nextProps ("on" +:+ rest) = true)
      /\ op = RemoveEventListener dom (toLowerCase rest)
                (prop_get prevProps ("on" +:+ rest)).
Proof.
  unfold removed_listeners. rewrite in_map_iff. split.
  - intros (key & <- & Hin). rewrite !filter_In in Hin.
    destruct Hin as [[Hk He] Hc]. apply isEvent_on in He as [rest ->].
    exists rest. rewrite eventType_on.
    split; [by apply own_key_keys in Hk|]. split; [|done].
    apply orb_true_iff in Hc as [Hc|Hc]; [left|by right].
    rewrite <- key_in_event. by destruct (key_in _ _).
  - intros (rest & Hk & Hc & ->). exists ("on" +:+ rest).
    rewrite eventType_on. split; [reflexivity|].
    rewrite !filter_In.
    split; [split; [by apply own_key_keys|by apply isEvent_on; eexists]|].
    apply orb_true_iff. destruct Hc as [Hc|Hc]; [left|by right].
    rewrite <- key_in_event in Hc. by destruct (key_in _ _).
Qed.

Lemma cleared_properties_spec (op : host_op) :
  In op (cleared_properties dom prevProps nextProps) <->
    exists key,
      own_key prevProps key
      /\ key <> "children" /\ (forall rest, key <> "on" +:+ rest)
      /\ ~ own_key nextProps key /\ ~ In key Object_prototype
      /\ op = SetProperty dom key (VStr "").
Proof.
  unfold cleared_properties. rewrite in_map_iff. split.
  - intros (key & <- & Hin). rewrite !filter_In in Hin.
    destruct Hin as [[Hk Hp] Hg]. apply isProperty_spec in Hp as [Hc He].
    exists key. rewrite <- isEvent_not_on.
    unfold isGone in Hg. apply negb_true_iff in Hg.
    assert (Hn : ~ (own_key nextProps key \/ In key Object_prototype)).
    { rewrite <- key_in_spec by done. by rewrite Hg. }
    split; [by apply own_key_keys in Hk|]. tauto.
  - intros (key & Hk & Hc & He & Hg & Hi & ->). exists key.
    split; [reflexivity|].
    rewrite !filter_In, isProperty_spec, isEvent_not_on.
    split; [split; [by apply own_key_keys|done]|].
    unfold isGone. apply negb_true_iff.
    destruct (key_in key nextProps) eqn:E; [|done].
    apply key_in_spec in E; tauto.
Qed.

Lemma assigned_properties_spec (op : host_op) :
  In op (assigned_properties dom prevProps nextProps) <->
    exists key,
      own_key nextProps key
      /\ key <> "children" /\ (forall rest, key <> "on" +:+ rest)
      /\ isNew prevProps nextProps key = true
      /\ op = SetProperty dom key (prop_get nextProps key).
Proof.
  unfold assigned_properties. rewrite in_map_iff. split.
  - intros (key & <- & Hin). rewrite !filter_In in Hin.
    destruct Hin as [[Hk Hp] Hn]. apply isProperty_spec in Hp as [Hc He].
    exists key. rewrite <- isEvent_not_on.
    split; [by apply own_key_keys in Hk|]. done.
  - intros (key & Hk & Hc & He & Hn & ->). exists key. split; [reflexivity|].
    rewrite !filter_In, isProperty_spec, isEvent_not_on.
    split; [split; [by apply own_key_keys|done]|done].
Qed.

Lemma added_listeners_spec (op : host_op) :
  In op (added_listeners dom prevProps nextProps) <->
    exists rest,
      own_key nextProps ("on" +:+ rest)
      /\ isNew prevProps nextProps ("on" +:+ rest) = true
      /\ op = AddEventListener dom (toLowerCase rest)
                (prop_get nextProps ("on" +:+ rest)).
Proof.
  unfold added_listeners. rewrite in_map_iff. split.
  - intros (key & <- & Hin). rewrite !filter_In in Hin.
    destruct Hin as [[Hk He] Hn]. apply isEvent_on in He as [rest ->].
    exists rest. rewrite eventType_on.
    split; [by apply own_key_keys in Hk|]. done.
  - intros (rest & Hk & Hn & ->). exists ("on" +:+ rest).
    rewrite eventType_on. split; [reflexivity|].
    rewrite !filter_In.
    split; [split; [by apply own_key_keys|by apply isEvent_on; eexists]|done].
Qed.


End Passes.



(** ** [useState] and [setState] *)

(** What a call of [setState] does to the hook record it captured, whether
    or not the call then fails on [currentRoot]. *)
Lemma setState_enqueues (s : state) (h : setter) (action : value -> value)
    (f : Fiber.t) (hs : list Hook.t) (hook : Hook.t) (q : list (value -> value)) :
  heap s !! fst h = Some f ->
  Fiber.hooks f = Some hs ->
  hs !! snd h = Some hook ->
  Hook.queue hook = Some q ->
  heap (final (setState h action s)) !! fst h =
    Some (Fiber.set_hooks
            (Some (<[snd h := Hook.mk (Hook.state hook) (Some (q ++ [action]))
                                 (Hook.dependencies hook) (Hook.cleanup hook)]> hs)) f).
Proof.
  intros Hf Hhs Hh Hq. unfold setState.
  rewrite final_bind. unfold deref at 1. rewrite Hf, Hhs, Hh, Hq.
  rewrite final_bind. unfold bind at 1, the at 1, ret at 1.
  unfold update at 1, bind at 1, deref at 1, modify at 1. rewrite Hf.
  match goal with |- heap (final (?m ?s1)) !! _ = Some ?X =>
    change ((fun s => heap s !! fst h = Some X) (final (m s1)));
    assert (Hk : keeps (fun s => heap s !! fst h = Some X) m)
  end.
  { keeps_structure; try (apply keeps_modify; by intros []).
    apply keeps_alloc. intros s' r' H' Hr. simpl.
    rewrite lookup_insert_ne; [done|]. intros ->. congruence. }
  apply Hk. simpl. apply lookup_insert_eq.
Qed.

(** C4. A call [setState(updater)] appends [updater] to the queue of the
    hook record it captured and leaves that record's [state] as it is: after
    any sequence of such calls the record holds the same state and the queue
    extended by the updaters in call order.  When a later render reaches the
    same hook position -- [useState] running for a fiber whose [alternate]
    is the fiber holding that record, at the record's index -- the state it
    returns is the left fold of the queued updaters, in that order, over the
    record's state. *)
Theorem setState_queue_then_useState_fold
    (s0 : state) (a : ref) (i : nat) (alt : Fiber.t) (hs : list Hook.t)
    (hook : Hook.t) (q0 : list (value -> value)) (actions : list (value -> value)) :
  heap s0 !! a = Some alt ->
  Fiber.hooks alt = Some hs ->
  hs !! i = Some hook ->
  Hook.queue hook = Some q0 ->
  let s1 := fold_left (fun s action => final (setState (a, i) action s)) actions s0 in
  let queued := Hook.mk (Hook.state hook) (Some (q0 ++ actions))
                        (Hook.dependencies hook) (Hook.cleanup hook) in
  heap s1 !! a = Some (Fiber.set_hooks (Some (<[i := queued]> hs)) alt)
  /\ forall (s2 : state) (wf : ref) (f : Fiber.t) (cur : list Hook.t) (initial : value),
       heap s2 !! a = heap s1 !! a ->
       wipFiber s2 = Some wf ->
       hookIndex s2 = i ->
       heap s2 !! wf = Some f ->
       Fiber.alternate f = Some a ->
       Fiber.hooks f = Some cur ->
       exists s3 f3,
         useState initial s2 =
           Ok (fold_left (fun st action => action st) (q0 ++ actions) (Hook.state hook),
               (wf, length cur)) s3
         /\ heap s3 !! wf = Some f3
         /\ Fiber.hooks f3 =
              Some (cur ++ [Hook.mk (fold_left (fun st action => action st)
                                               (q0 ++ actions) (Hook.state hook))
                                    (Some []) None None]).
Proof.
  intros Halt Hhs Hi Hq s1 queued.
  assert (H1 : heap s1 !! a = Some (Fiber.set_hooks (Some (<[i := queued]> hs)) alt)).
  { subst s1 queued. revert s0 alt hs hook q0 Halt Hhs Hi Hq.
    induction actions as [|action actions IH]; intros s0 alt hs hook q0 Halt Hhs Hi Hq.
    - simpl. rewrite app_nil_r, Halt. f_equal.
      rewrite list_insert_id; [by destruct alt; simpl in *; subst|].
      rewrite Hi. f_equal. destruct hook; simpl in *. by subst.
    - simpl fold_left.
      pose proof (setState_enqueues s0 (a, i) action alt hs hook q0 Halt Hhs Hi Hq) as Hs.
      simpl fst in Hs; simpl snd in Hs.
      assert (Hlt : i < length hs) by (by eapply lookup_lt_Some).
      rewrite (IH _ _ _ _ (q0 ++ [action]) Hs eq_refl
                 (list_lookup_insert_eq _ _ _ Hlt) eq_refl).
      simpl. by rewrite list_insert_insert_eq, <- app_assoc. }
  split; [exact H1|].
  intros s2 wf f cur initial Ha Hwf Hidx Hf Hfa Hcur.
  rewrite H1 in Ha.
  assert (Hlt : i < length hs) by (by eapply lookup_lt_Some).
  eexists _, _. split.
  { unfold useState, oldHookOf, push_hook, update, bind, gets, the, ret, deref, modify.
    rewrite Hwf, Hf, Hfa, Ha. simpl. rewrite Hidx, list_lookup_insert_eq by done.
    simpl. repeat (first [rewrite Hwf | rewrite Hf | rewrite Hcur]; simpl).
    reflexivity. }
  simpl. rewrite lookup_insert_eq. split; [reflexivity|]. subst queued. by simpl.
Qed.

Lemma setState_queue_then_useState_fold_witness :
  exists s3 f3,
    useState (VNum 0) counter_rerender = Ok (VNum 3, (1, 0)) s3
    /\ heap s3 !! 1 = Some f3
    /\ Fiber.hooks f3 = Some [Hook.mk (VNum 3) (Some []) None None].
Proof.
  destruct (setState_queue_then_useState_fold counter_example 0 0 counter_fiber
              [counter_hook] counter_hook [] [increment; increment]
              ltac:(vm_compute; reflexivity) eq_refl eq_refl eq_refl) as [_ H].
  apply (H counter_rerender 1 counter_rerender_fiber [] (VNum 0));
    vm_compute; reflexivity.
Defined.

(** ** [useEffect] *)



(** ** [reconcileChildren] *)

(** One turn of the loop, in full: its results, the three classifications,
    and what it leaves untouched. *)
Lemma reconcile_position_turn
    (wipFiber : ref) (elements : list element) (index : nat)
    (oldFiber prevSibling : option ref) (s : state) (w : Fiber.t) (ds : list ref) :
  heap s !! wipFiber = Some w ->
  deletions s = Some ds ->
  (forall o, oldFiber = Some o -> is_Some (heap s !! o)) ->
  (index <> 0 -> is_Some (elements !! index) ->
   exists p, prevSibling = Some p /\ is_Some (heap s !! p)) ->
  exists s' oldFiber' newFiber,
    reconcile_position wipFiber elements index oldFiber prevSibling s
      = Ok (oldFiber', newFiber) s'
    /\ (forall o fo e,
          oldFiber = Some o -> heap s !! o = Some fo ->
          elements !! index = Some e -> Some (el_type e) = Fiber.type fo ->
          exists n, newFiber = Some n /\ heap s !! n = None
                    /\ heap s' !! n = Some (update_fiber wipFiber o fo e)
                    /\ deletions s' = deletions s)
    /\ (forall e,
          elements !! index = Some e ->
          (oldFiber = None
           \/ exists o fo, oldFiber = Some o /\ heap s !! o = Some fo
                           /\ Some (el_type e) <> Fiber.type fo) ->
          exists n, newFiber = Some n /\ heap s !! n = None
                    /\ heap s' !! n = Some (placement_fiber wipFiber e))
    /\ (forall o fo,
          oldFiber = Some o -> heap s !! o = Some fo ->
          (elements !! index = None
           \/ exists e, elements !! index = Some e
                        /\ Some (el_type e) <> Fiber.type fo) ->
          (exists fo', heap s' !! o = Some fo'
                       /\ Fiber.effectTag fo' = Some DELETION)
          /\ deletions s' = Some (ds ++ [o])
          /\ newFiber <> Some o
          /\ (forall r f',
                heap s' !! r = Some f' ->
                Fiber.child f' = Some o \/ Fiber.sibling f' = Some o ->
                exists f, heap s !! r = Some f
                          /\ (Fiber.child f = Some o \/ Fiber.sibling f = Some o)))
    /\ oldFiber' = oldFiber ≫= (fun o => heap s !! o ≫= Fiber.sibling)
    /\ (elements !! index = None -> newFiber = None)
    /\ (forall e, elements !! index = Some e ->
          exists n, newFiber = Some n /\ heap s !! n = None
                    /\ is_Some (heap s' !! n))
    /\ (exists dl, deletions s' = Some (ds ++ dl))
    /\ (forall r f,
          heap s !! r = Some f ->
          exists f', heap s' !! r = Some f'
                     /\ Fiber.type f' = Fiber.type f
                     /\ Fiber.props f' = Fiber.props f
                     /\ Fiber.parent f' = Fiber.parent f
                     /\ (Fiber.effectTag f = Some DELETION ->
                         Fiber.effectTag f' = Some DELETION)
                     /\ (Some r <> oldFiber -> Fiber.effectTag f' = Fiber.effectTag f)
                     /\ (Some r <> prevSibling \/ index = 0
                         \/ elements !! index = None ->
                         Fiber.sibling f' = Fiber.sibling f)).
Proof.
  intros Hw Hds Hold Hprev.
  remember (fresh (dom (heap s))) as n eqn:Heqn.
  assert (Hn : heap s !! n = None) by (subst n; apply not_elem_of_dom, is_fresh).
  assert (Hnw : n <> wipFiber) by (intros E; rewrite E in Hn; congruence).
  assert (Hprev' : index <> 0 -> is_Some (elements !! index) ->
            exists p fp, prevSibling = Some p /\ heap s !! p = Some fp /\ n <> p).
  { intros H1 H2. destruct (Hprev H1 H2) as (p & -> & fp & Hp).
    exists p, fp. repeat split; try done. intros E; rewrite E in Hn; congruence. }
  clear Hprev.
  assert (Hold' : forall o, oldFiber = Some o ->
            exists fo, heap s !! o = Some fo /\ n <> o).
  { intros o Ho. destruct (Hold o Ho) as [fo Hfo]. exists fo. split; [done|].
    intros E; rewrite E in Hn; congruence. }
  clear Hold.
  unfold reconcile_position.
  destruct oldFiber as [o|];
    [destruct (Hold' o eq_refl) as (fo & Hfo & Hno);
     destruct (decide (wipFiber = o)) as [Ewo|Ewo];
     [subst o; assert (w = fo) by congruence; subst w|]|];
    (destruct (elements !! index) as [e|] eqn:He);
    try (destruct (decide (Some (el_type e) = Fiber.type fo)) as [Hty|Hty]);
    (destruct index as [|index];
     [|try (destruct (Hprev' ltac:(done) ltac:(by eexists)) as (p & fp & -> & Hp & Hnp);
            destruct (decide (p = wipFiber)) as [Epw|Epw];
            [subst p; first [assert (fp = fo) by congruence
                            |assert (fp = w) by congruence]; subst fp|];
            try (destruct (decide (p = o)) as [Epo|Epo];
                 [subst p; assert (fp = fo) by congruence; subst fp|]))]);
    unfold bind, deref, alloc, update, gets, the, ret, modify; cbn;
    eexists _, _, _;
    (split;
     [ repeat (first [ rewrite <- Heqn
                     | rewrite lookup_insert_eq
                     | rewrite lookup_insert_ne by congruence
                     | rewrite Hds
                     | rewrite (bool_decide_eq_true_2 _ Hty)
                     | rewrite (bool_decide_eq_false_2 _ Hty)
                     | match goal with
                       | H : heap s !! _ = _ |- _ => rewrite H
                       end
                     | progress unfold bind, deref, alloc, update, gets, the,
                         ret, modify ]; cbn);
       reflexivity |]).
  all: split; [|split; [|split; [|split; [|split; [|split; [|split]]]]]].
  all: try match goal with
           | |- _ = _ ≫= _ => cbn; rewrite ?Hfo; reflexivity
           | |- _ -> _ = None => done
           | |- exists dl, _ => cbn; first [by exists [] ; rewrite app_nil_r
                                            | by eexists]
           end.
  all: lazymatch goal with
           | |- forall r f, heap _ !! r = Some f -> _ =>
               intros r f Hr; cbn [heap set_heap set_deletions];
               repeat match goal with
                      | |- context [<[?a := ?x]> ?m !! r] =>
                          let E := fresh "E" in
                          destruct (decide (a = r)) as [E|E];
                          [ subst r; setoid_rewrite lookup_insert_eq
                          | setoid_rewrite (lookup_insert_ne m a r x E) ]
                      end;
               try congruence;
               try setoid_rewrite Hr;
               (eexists; split; [reflexivity|]);
               assert (forall a b : ref, Some a <> Some a -> b = a) by done;
               cbn; split_and!; intros; destruct_or?; try done;
               try congruence; eauto
           | |- _ => idtac
            end.
  all: intros;
    repeat first [ progress destruct_or?
                 | progress destruct_and?
                 | match goal with H : exists _, _ |- _ => destruct H end ];
    simplify_eq/=; try done; try congruence.
  all: try match goal with
           | |- _ /\ _ /\ _ /\ forall _ _, _ =>
               split; [|split; [|split]];
               [| | |
                intros r f' Hr Hlink; cbn in Hr;
                rewrite ?lookup_insert in Hr;
                repeat case_decide; simplify_eq; cbn in Hlink;
                destruct_or?; simplify_eq; eauto]
           end.
  all: try (exists (fresh (dom (heap s))));
    repeat match goal with
              | |- _ /\ _ => split
              | |- exists _, _ => eexists
              end;
    cbn;
    repeat (first [ rewrite lookup_insert_eq
                  | rewrite lookup_insert_ne by congruence ]);
    try reflexivity; try done; try congruence.
Qed.

(** C3. At every position [reconcileChildren] handles: when the old fiber
    and the new element have the same type, the fiber produced is a new
    record tagged UPDATE that carries the old fiber's type and host node,
    the element's props, and the old fiber as [alternate]; when an element
    is present and there is no old fiber or its type differs, the fiber
    produced is a new record tagged PLACEMENT with no host node and no
    [alternate]; when an old fiber is present and there is no element or
    the types differ, the old fiber is tagged DELETION and appended to
    [deletions], it is not the fiber produced for the position, and the turn
    writes no child or sibling link to it. *)
Theorem reconcile_position_classifies
    (wipFiber : ref) (elements : list element) (index : nat)
    (oldFiber prevSibling : option ref) (s : state) (w : Fiber.t) (ds : list ref) :
  heap s !! wipFiber = Some w ->
  deletions s = Some ds ->
  (forall o, oldFiber = Some o -> is_Some (heap s !! o)) ->
  (index <> 0 -> is_Some (elements !! index) ->
   exists p, prevSibling = Some p /\ is_Some (heap s !! p)) ->
  exists s' oldFiber' newFiber,
    reconcile_position wipFiber elements index oldFiber prevSibling s
      = Ok (oldFiber', newFiber) s'
    /\ (forall o fo e,
          oldFiber = Some o -> heap s !! o = Some fo ->
          elements !! index = Some e -> Some (el_type e) = Fiber.type fo ->
          exists n, newFiber = Some n /\ heap s !! n = None
                    /\ heap s' !! n = Some (update_fiber wipFiber o fo e)
                    /\ deletions s' = deletions s)
    /\ (forall e,
          elements !! index = Some e ->
          (oldFiber = None
           \/ exists o fo, oldFiber = Some o /\ heap s !! o = Some fo
                           /\ Some (el_type e) <> Fiber.type fo) ->
          exists n, newFiber = Some n /\ heap s !! n = None
                    /\ heap s' !! n = Some (placement_fiber wipFiber e))
    /\ (forall o fo,
          oldFiber = Some o -> heap s !! o = Some fo ->
          (elements !! index = None
           \/ exists e, elements !! index = Some e
                        /\ Some (el_type e) <> Fiber.type fo) ->
          (exists fo', heap s' !! o = Some fo'
                       /\ Fiber.effectTag fo' = Some DELETION)
          /\ deletions s' = Some (ds ++ [o])
          /\ newFiber <> Some o
          /\ (forall r f',
                heap s' !! r = Some f' ->
                Fiber.child f' = Some o \/ Fiber.sibling f' = Some o ->
                exists f, heap s !! r = Some f
                          /\ (Fiber.child f = Some o \/ Fiber.sibling f = Some o))).
Proof.
  intros Hw Hds Hold Hprev.
  destruct (reconcile_position_turn wipFiber elements index oldFiber prevSibling
              s w ds Hw Hds Hold Hprev)
    as (s' & oldFiber' & newFiber & Hrun & H1 & H2 & H3 & _).
  by exists s', oldFiber', newFiber.
Qed.

Lemma reconcile_position_classifies_witness :
  exists s' oldFiber' newFiber,
    reconcile_position 5 [div_of_one] 0 (Some 1) None second_render
      = Ok (oldFiber', newFiber) s'
    /\ (forall o fo e,
          Some 1 = Some o -> heap second_render !! o = Some fo ->
          [div_of_one] !! 0 = Some e -> Some (el_type e) = Fiber.type fo ->
          exists n, newFiber = Some n /\ heap second_render !! n = None
                    /\ heap s' !! n = Some (update_fiber 5 o fo e)
                    /\ deletions s' = deletions second_render)
    /\ (forall e,
          [div_of_one] !! 0 = Some e ->
          (Some 1 = None
           \/ exists o fo, Some 1 = Some o /\ heap second_render !! o = Some fo
                           /\ Some (el_type e) <> Fiber.type fo) ->
          exists n, newFiber = Some n /\ heap second_render !! n = None
                    /\ heap s' !! n = Some (placement_fiber 5 e))
    /\ (forall o fo,
          Some 1 = Some o -> heap second_render !! o = Some fo ->
          ([div_of_one] !! 0 = None
           \/ exists e, [div_of_one] !! 0 = Some e
                        /\ Some (el_type e) <> Fiber.type fo) ->
          (exists fo', heap s' !! o = Some fo'
                       /\ Fiber.effectTag fo' = Some DELETION)
          /\ deletions s' = Some ([] ++ [o])
          /\ newFiber <> Some o
          /\ (forall r f',
                heap s' !! r = Some f' ->
                Fiber.child f' = Some o \/ Fiber.sibling f' = Some o ->
                exists f, heap second_render !! r = Some f
                          /\ (Fiber.child f = Some o \/ Fiber.sibling f = Some o))).
Proof.
  apply (reconcile_position_classifies 5 [div_of_one] 0 (Some 1) None second_render
           second_render_root []).
  - vm_compute; reflexivity.
  - vm_compute; reflexivity.
  - intros o [= <-]. vm_compute. by eexists.
  - intros H. by destruct H.
Defined.

(** ** Termination of the loop of [reconcileChildren] *)

Lemma sibling_chain_frame (h h' : gmap ref Fiber.t) (o : option ref) (l : list ref) :
  sibling_chain h o l ->
  (forall r f, r ∈ l -> h !! r = Some f ->
     exists f', h' !! r = Some f' /\ Fiber.sibling f' = Fiber.sibling f) ->
  sibling_chain h' o l.
Proof.
  induction 1 as [|r f l Hr Hc IH]; intros Hfr; [constructor|].
  destruct (Hfr r f ltac:(left) Hr) as (f' & Hr' & Hs).
  econstructor; [exact Hr'|]. rewrite Hs. apply IH.
  intros r0 f0 Hin. apply Hfr. by right.
Qed.

Lemma sibling_chain_in_heap (h : gmap ref Fiber.t) (o : option ref) (l : list ref) (r : ref) :
  sibling_chain h o l -> r ∈ l -> is_Some (h !! r).
Proof.
  induction 1 as [|r0 f l Hr Hc IH]; intros Hin.
  - by apply elem_of_nil in Hin.
  - apply elem_of_cons in Hin as [->|Hin]; [by eexists|by apply IH].
Qed.

Lemma heap_frame_refl (olds : list ref) (h : gmap ref Fiber.t) : heap_frame olds h h.
Proof. intros r f Hr. by exists f. Qed.

Lemma heap_frame_trans (olds olds' : list ref) (h h1 h2 : gmap ref Fiber.t) :
  heap_frame olds h h1 -> heap_frame olds' h1 h2 -> olds' ⊆ olds ->
  heap_frame olds h h2.
Proof.
  intros H1 H2 Hsub r f Hr.
  destruct (H1 r f Hr) as (f1 & Hr1 & Ht1 & Hp1 & Hq1 & Hd1 & He1).
  destruct (H2 r f1 Hr1) as (f2 & Hr2 & Ht2 & Hp2 & Hq2 & Hd2 & He2).
  exists f2. split; [done|]. repeat split; try congruence.
  - intros Hd. by apply Hd2, Hd1.
  - intros Hn. rewrite He2, He1; [done..|]. intros Hin. by apply Hn, Hsub.
Qed.

Lemma loop_condition (wipFiber : ref) (elements : list element) (index : nat)
    (oldFiber prevSibling : option ref) (olds : list ref) (s : state) :
  loop_inv wipFiber elements index oldFiber prevSibling olds s ->
  bool_decide (index < length elements) || bool_decide (is_Some oldFiber) = true
  <-> 0 < max (length elements - index) (length olds).
Proof.
  intros (Hc & _). rewrite orb_true_iff, !bool_decide_eq_true.
  inversion Hc; subst; simpl.
  - split; [intros [?|[? ?]]; [lia|done]|]. intros ?. left. lia.
  - split; [intros _; lia|]. intros _. right. by eexists.
Qed.

(** One turn, from the invariant to the invariant. *)
Lemma turn_keeps_inv (wipFiber : ref) (elements : list element) (index : nat)
    (oldFiber prevSibling : option ref) (olds : list ref) (s : state) :
  loop_inv wipFiber elements index oldFiber prevSibling olds s ->
  exists s1 oldFiber' newFiber ds dl,
    reconcile_position wipFiber elements index oldFiber prevSibling s
      = Ok (oldFiber', newFiber) s1
    /\ loop_inv wipFiber elements (S index) oldFiber' newFiber (tail olds) s1
    /\ deletions s = Some ds /\ deletions s1 = Some (ds ++ dl)
    /\ heap_frame olds (heap s) (heap s1)
    /\ (forall o, olds !! 0 = Some o -> length elements <= index ->
          dl = [o] /\ exists f', heap s1 !! o = Some f'
                                 /\ Fiber.effectTag f' = Some DELETION)
    /\ (forall e, elements !! index = Some e -> olds = [] ->
          exists n, heap s !! n = None
                    /\ heap s1 !! n = Some (placement_fiber wipFiber e)).
Proof.
  intros (Hc & [w Hw] & [ds Hds] & Hprev).
  assert (Hold : forall o, oldFiber = Some o -> is_Some (heap s !! o)).
  { intros o ->. inversion Hc; subst. by eexists. }
  assert (Hprev0 : index <> 0 -> is_Some (elements !! index) ->
            exists p, prevSibling = Some p /\ is_Some (heap s !! p)).
  { intros H0 He. apply lookup_lt_is_Some in He.
    destruct (Hprev H0 He) as (p & -> & Hp & _). by exists p. }
  destruct (reconcile_position_turn wipFiber elements index oldFiber prevSibling
              s w ds Hw Hds Hold Hprev0)
    as (s1 & oldFiber' & newFiber & Hrun & Hsame & Hplace & Hdel & Hnext & Hnone
        & Hsome & [dl Hdl] & Hfr).
  exists s1, oldFiber', newFiber, ds, dl.
  split; [done|].
  assert (Hframe : heap_frame olds (heap s) (heap s1)).
  { intros r f Hr. destruct (Hfr r f Hr) as (f' & Hr' & Ht & Hp & Hq & Hd & He & _).
    exists f'. repeat split; try done. intros Hn. apply He. intros <-.
    inversion Hc; subst. apply Hn. by left. }
  split; [|split; [done|split; [done|split; [done|split]]]].
  - (* the invariant *)
    split; [|split; [|split]].
    + subst oldFiber'. inversion Hc as [|r f l Hr Hl]; subst; simpl; [constructor|].
      rewrite Hr. simpl.
      eapply sibling_chain_frame; [exact Hl|].
      intros r0 f0 Hin Hr0.
      destruct (Hfr r0 f0 Hr0) as (f' & Hr' & _ & _ & _ & _ & _ & Hs).
      exists f'. split; [done|]. apply Hs.
      destruct (decide (index = 0)) as [->|H0]; [by right; left|].
      destruct (elements !! index) as [e|] eqn:He; [|by right; right].
      left. intros <-.
      destruct (Hprev H0 (lookup_lt_Some _ _ _ He)) as (p & [= <-] & _ & Hp).
      apply Hp. by right.
    + destruct (Hframe _ _ Hw) as (f' & Hr' & _). by eexists.
    + rewrite Hdl. by eexists.
    + intros _ Hlt. assert (Hlt' : index < length elements) by lia.
      apply lookup_lt_is_Some in Hlt' as [e He].
      destruct (Hsome e He) as (n & -> & Hn & Hn').
      exists n. split; [done|]. split; [done|].
      intros Hin.
      assert (Hin' : n ∈ olds) by (destruct olds; [done|by right]).
      destruct (sibling_chain_in_heap _ _ _ _ Hc Hin') as [f Hf]. congruence.
  - intros o Ho Hlen. inversion Hc as [|r f l Hr Hl]; subst; [done|].
    simpl in Ho. injection Ho as <-.
    assert (He : elements !! index = None) by (by apply lookup_ge_None).
    destruct (Hdel r f eq_refl Hr (or_introl He)) as (Hf' & Hds' & _).
    split; [|done]. rewrite Hdl in Hds'. injection Hds' as Hds'.
    by apply app_inv_head in Hds'.
  - intros e He ->. inversion Hc; subst.
    destruct (Hplace e He (or_introl eq_refl)) as (n & _ & Hn & Hn').
    by exists n.
Qed.

Lemma reconcile_loop_runs (wipFiber : ref) (elements : list element) (fuel : nat) :
  forall (index : nat) (oldFiber prevSibling : option ref) (olds : list ref) (s : state)
         (ds : list ref),
    loop_inv wipFiber elements index oldFiber prevSibling olds s ->
    deletions s = Some ds ->
    max (length elements - index) (length olds) <= fuel ->
    exists s' dl,
      reconcile_loop fuel wipFiber elements index oldFiber prevSibling s = Ok tt s'
      /\ deletions s' = Some (ds ++ dl)
      /\ heap_frame olds (heap s) (heap s')
      /\ (forall j o, olds !! j = Some o -> length elements <= index + j ->
            o ∈ dl /\ exists f', heap s' !! o = Some f'
                                 /\ Fiber.effectTag f' = Some DELETION)
      /\ (forall i e, elements !! i = Some e -> index + length olds <= i ->
            exists n f, heap s !! n = None /\ heap s' !! n = Some f
                        /\ Fiber.type f = Some (el_type e)
                        /\ Fiber.props f = el_props e
                        /\ Fiber.parent f = Some wipFiber
                        /\ Fiber.effectTag f = Some PLACEMENT).
Proof.
  induction fuel as [|fuel IH]; intros index oldFiber prevSibling olds s ds Hinv Hds Hfuel.
  - (* no turn is due *)
    assert (Hcond : ~ 0 < max (length elements - index) (length olds)) by lia.
    rewrite <- (loop_condition _ _ _ _ _ _ _ Hinv) in Hcond.
    simpl. destruct (_ || _); [done|].
    exists s, []. rewrite app_nil_r. split; [done|]. split; [done|].
    split; [apply heap_frame_refl|].
    split.
    + intros j o Ho. apply lookup_lt_Some in Ho. lia.
    + intros i e He. apply lookup_lt_Some in He. lia.
  - simpl. destruct (_ || _) eqn:Hcond.
    2:{ exists s, []. rewrite app_nil_r. split; [done|]. split; [done|].
        split; [apply heap_frame_refl|].
        assert (H0 : ~ 0 < max (length elements - index) (length olds)).
        { rewrite <- (loop_condition _ _ _ _ _ _ _ Hinv). congruence. }
        split.
        + intros j o Ho. apply lookup_lt_Some in Ho. lia.
        + intros i e He. apply lookup_lt_Some in He. lia. }
    destruct (turn_keeps_inv _ _ _ _ _ _ _ Hinv)
      as (s1 & oldFiber' & newFiber & ds0 & dl0 & Hrun & Hinv1 & Hds0 & Hds1 & Hfr
          & Hdel & Hplace).
    assert (ds0 = ds) by congruence. subst ds0.
    destruct (IH (S index) oldFiber' newFiber (tail olds) s1 (ds ++ dl0) Hinv1 Hds1)
      as (s' & dl1 & Hloop & Hds' & Hfr1 & Hdel1 & Hplace1).
    { destruct olds; simpl in *; lia. }
    exists s', (dl0 ++ dl1).
    split; [unfold bind; by rewrite Hrun|].
    split; [by rewrite app_assoc|].
    assert (Hsub : tail olds ⊆ olds).
    { intros x Hx. destruct olds; [done|by right]. }
    split; [by eapply heap_frame_trans|].
    split.
    + intros [|j] o Ho Hlen.
      * destruct (Hdel o Ho ltac:(lia)) as (-> & f1 & Hf1 & Ht1).
        split; [apply elem_of_app; left; by left|].
        destruct (Hfr1 o f1 Hf1) as (f' & Hf' & _ & _ & _ & Hd & _).
        exists f'. split; [done|]. by apply Hd.
      * destruct olds as [|o0 olds]; [done|]. simpl in *.
        destruct (Hdel1 j o Ho ltac:(lia)) as (Hin & Hf').
        split; [apply elem_of_app; by right|done].
    + intros i e He Hlen.
      destruct (decide (i = index)) as [->|Hi].
      * assert (olds = []) as -> by (destruct olds; [done|simpl in *; lia]).
        destruct (Hplace e He eq_refl) as (n & Hn & Hn1).
        destruct (Hfr1 n _ Hn1) as (f' & Hf' & Ht & Hp & Hq & _ & Het).
        exists n, f'. repeat split; try done.
        rewrite Het; [done|]. simpl. apply not_elem_of_nil.
      * destruct (Hplace1 i e He) as (n & f & Hn1 & Hn' & Hrest).
        { destruct olds; simpl in *; lia. }
        exists n, f. split; [|done].
        destruct (heap s !! n) as [f0|] eqn:Hn; [|done].
        destruct (Hfr n f0 Hn) as (f1 & Hf1 & _). congruence.
Qed.

Lemma reconcile_loop_needs_fuel (wipFiber : ref) (elements : list element) (fuel : nat) :
  forall (index : nat) (oldFiber prevSibling : option ref) (olds : list ref) (s : state),
    loop_inv wipFiber elements index oldFiber prevSibling olds s ->
    fuel < max (length elements - index) (length olds) ->
    exists s',
      reconcile_loop fuel wipFiber elements index oldFiber prevSibling s
        = Throw OutOfFuel s'.
Proof.
  induction fuel as [|fuel IH]; intros index oldFiber prevSibling olds s Hinv Hfuel.
  - simpl. rewrite (proj2 (loop_condition _ _ _ _ _ _ _ Hinv)) by lia. by eexists.
  - simpl. rewrite (proj2 (loop_condition _ _ _ _ _ _ _ Hinv)) by lia.
    destruct (turn_keeps_inv _ _ _ _ _ _ _ Hinv)
      as (s1 & oldFiber' & newFiber & ds0 & dl0 & Hrun & Hinv1 & _).
    destruct (IH (S index) oldFiber' newFiber (tail olds) s1 Hinv1) as [s' Hs'].
    { destruct olds; simpl in *; lia. }
    exists s'. unfold bind. by rewrite Hrun.
Qed.

(** C8. For a parent whose previous children form a finite sibling chain
    and for any finite sequence of new elements, the loop of
    [reconcileChildren] terminates: it takes one turn for as long as an old
    fiber remains or the index is below the number of elements, that is
    [max (length elements) (length olds)] turns, neither fewer (a smaller
    budget of turns is exhausted) nor more (that budget suffices).  A
    shrinking and a growing child list are both processed to the end: every
    old fiber beyond the last element ends up tagged DELETION and listed in
    [deletions], and every element beyond the last old fiber gets a new
    PLACEMENT fiber under the parent. *)
Theorem reconcileChildren_loop_terminates
    (wipFiber : ref) (elements : list element) (oldFiber : option ref)
    (olds : list ref) (s : state) (ds : list ref) :
  sibling_chain (heap s) oldFiber olds ->
  is_Some (heap s !! wipFiber) ->
  deletions s = Some ds ->
  (forall fuel, max (length elements) (length olds) <= fuel ->
     exists s' dl,
       reconcile_loop fuel wipFiber elements 0 oldFiber None s = Ok tt s'
       /\ deletions s' = Some (ds ++ dl)
       /\ (forall j o, olds !! j = Some o -> length elements <= j ->
             o ∈ dl /\ exists f', heap s' !! o = Some f'
                                  /\ Fiber.effectTag f' = Some DELETION)
       /\ (forall i e, elements !! i = Some e -> length olds <= i ->
             exists n f, heap s !! n = None /\ heap s' !! n = Some f
                         /\ Fiber.type f = Some (el_type e)
                         /\ Fiber.props f = el_props e
                         /\ Fiber.parent f = Some wipFiber
                         /\ Fiber.effectTag f = Some PLACEMENT))
  /\ (forall fuel, fuel < max (length elements) (length olds) ->
        exists s', reconcile_loop fuel wipFiber elements 0 oldFiber None s
                   = Throw OutOfFuel s').
Proof.
  intros Hc Hw Hds.
  assert (Hinv : loop_inv wipFiber elements 0 oldFiber None olds s).
  { split; [done|]. split; [done|]. split; [by eexists|]. done. }
  split.
  - intros fuel Hfuel.
    destruct (reconcile_loop_runs wipFiber elements fuel 0 oldFiber None olds s ds
                Hinv Hds ltac:(lia))
      as (s' & dl & Hrun & Hds' & _ & Hdel & Hplace).
    exists s', dl. repeat split; try done.
    + by eapply Hdel.
    + by eapply Hdel.
  - intros fuel Hfuel.
    apply (reconcile_loop_needs_fuel wipFiber elements fuel 0 oldFiber None olds s Hinv).
    lia.
Qed.

Lemma reconcileChildren_loop_terminates_witness :
  (forall fuel, max (length [p_element]) (length [2; 3; 4]) <= fuel ->
     exists s' dl,
       reconcile_loop fuel 6 [p_element] 0 (Some 2) None second_pass_at_div = Ok tt s'
       /\ deletions s' = Some ([] ++ dl)
       /\ (forall j o, [2; 3; 4] !! j = Some o -> length [p_element] <= j ->
             o ∈ dl /\ exists f', heap s' !! o = Some f'
                                  /\ Fiber.effectTag f' = Some DELETION)
       /\ (forall i e, [p_element] !! i = Some e -> length [2; 3; 4] <= i ->
             exists n f, heap second_pass_at_div !! n = None /\ heap s' !! n = Some f
                         /\ Fiber.type f = Some (el_type e)
                         /\ Fiber.props f = el_props e
                         /\ Fiber.parent f = Some 6
                         /\ Fiber.effectTag f = Some PLACEMENT))
  /\ (forall fuel, fuel < max (length [p_element]) (length [2; 3; 4]) ->
        exists s', reconcile_loop fuel 6 [p_element] 0 (Some 2) None second_pass_at_div
                   = Throw OutOfFuel s').
Proof.
  apply (reconcileChildren_loop_terminates 6 [p_element] (Some 2) [2; 3; 4]
           second_pass_at_div []).
  - repeat (econstructor; [vm_compute; reflexivity|]). constructor.
  - vm_compute. by eexists.
  - vm_compute; reflexivity.
Defined.

(** ** The exported object *)

(** C10. The object the module exports has exactly the three members
    [createElement], [render] and [useState], in this order, each bound to
    the function of that name; [useEffect] is declared in the file, like
    [useState], but no member of the exported object is bound to it. *)
Theorem Loush_export_surface :
  map fst Loush = ["createElement"; "render"; "useState"]
  /\ Loush = [ ("createElement", createElement_); ("render", render_);
               ("useState", useState_) ]
  /\ In useState_ declared
  /\ In useEffect_ declared
  /\ ~ In "useEffect" (map fst Loush)
  /\ ~ In useEffect_ (map snd Loush).
Proof.
  split; [reflexivity|]. split; [reflexivity|].
  split; [cbv; tauto|]. split; [cbv; tauto|].
  split; cbv; intros H; repeat destruct H as [H|H]; try discriminate; done.
Qed.

(** ** Commit *)

Lemma set_log_same (s : state) : set_log (log s ++ []) s = s.
Proof. destruct s. unfold set_log. simpl. by rewrite app_nil_r. Qed.

Lemma set_log_twice (s : state) (l1 l2 : list event) :
  set_log (log (set_log (log s ++ l1) s) ++ l2) (set_log (log s ++ l1) s)
  = set_log (log s ++ l1 ++ l2) s.
Proof. unfold set_log. simpl. by rewrite app_assoc. Qed.

Lemma dom_only_silent {A} (m : M A) :
  (forall s, final (m s) = s) -> dom_only m.
Proof. intros H s. exists []. rewrite H. simpl. by rewrite set_log_same. Qed.

Lemma dom_only_ret {A} (a : A) : dom_only (ret a).
Proof. by apply dom_only_silent. Qed.

Lemma dom_only_throw {A} (e : error) : dom_only (@throw A e).
Proof. by apply dom_only_silent. Qed.

Lemma dom_only_gets {A} (f : state -> A) : dom_only (gets f).
Proof. by apply dom_only_silent. Qed.

Lemma dom_only_the {A} (o : option A) : dom_only (the o).
Proof. apply dom_only_silent. by destruct o. Qed.

Lemma dom_only_deref (r : ref) : dom_only (deref r).
Proof. apply dom_only_silent. intros s. unfold deref. by destruct (heap s !! r). Qed.

Lemma dom_only_emit_ops (ops : list host_op) : dom_only (emit_ops ops).
Proof. intros s. by exists ops. Qed.

Lemma dom_only_emit (op : host_op) : dom_only (emit (Dom op)).
Proof. intros s. by exists [op]. Qed.

Lemma dom_only_bind {A B} (m : M A) (k : A -> M B) :
  dom_only m -> (forall a, dom_only (k a)) -> dom_only (bind m k).
Proof.
  intros Hm Hk s. rewrite final_bind. destruct (Hm s) as [ops1 H1].
  destruct (m s) as [a s1|e s1]; simpl in H1; subst s1; [|by exists ops1].
  destruct (Hk a (set_log (log s ++ map Dom ops1) s)) as [ops2 H2].
  exists (ops1 ++ ops2). rewrite H2, map_app. apply set_log_twice.
Qed.

Lemma dom_only_forEach {A} (l : list A) (f : A -> M unit) :
  (forall x, dom_only (f x)) -> dom_only (forEach l f).
Proof.
  intros Hf. induction l as [|x l IH]; simpl.
  - apply dom_only_ret.
  - apply dom_only_bind; [apply Hf|intros _; apply IH].
Qed.

Ltac dom_only_structure :=
  repeat first
    [ apply dom_only_ret | apply dom_only_throw | apply dom_only_gets
    | apply dom_only_the | apply dom_only_deref | apply dom_only_emit
    | apply dom_only_emit_ops
    | apply dom_only_bind; [|intros ?]
    | match goal with
      | |- dom_only (match ?x with _ => _ end) => destruct x
      end ].

Lemma commitDeletion_dom_only (fuel : nat) (fiber : option ref) (domParent : node) :
  dom_only (commitDeletion fuel fiber domParent).
Proof.
  revert fiber. induction fuel as [|fuel IH]; intros fiber; simpl.
  - apply dom_only_throw.
  - dom_only_structure. apply IH.
Qed.

Lemma domParentOf_dom_only (fuel : nat) (fiber : option ref) :
  dom_only (domParentOf fuel fiber).
Proof.
  revert fiber. induction fuel as [|fuel IH]; intros fiber; simpl.
  - apply dom_only_throw.
  - dom_only_structure. apply IH.
Qed.

Lemma commitWork_dom_only (fuel : nat) (fiber : option ref) :
  dom_only (commitWork fuel fiber).
Proof.
  revert fiber. induction fuel as [|fuel IH]; intros [r|]; cbn [commitWork];
    try apply dom_only_ret; try apply dom_only_throw.
  apply dom_only_bind; [apply dom_only_deref|intros f].
  apply dom_only_bind; [apply domParentOf_dom_only|intros d].
  apply dom_only_bind.
  { unfold commitEffect. dom_only_structure. apply commitDeletion_dom_only. }
  intros _. apply dom_only_bind; [apply IH|intros _; apply IH].
Qed.

Lemma commitRoot_phases (fuel : nat) (s : state) :
  commitRoot fuel s = (run_cleanups ;;; commit_tree fuel ;;; run_effects) s.
Proof.
  unfold commitRoot, run_cleanups, commit_tree, run_effects, bind, gets, the,
    ret, throw, deref.
  repeat case_match; simplify_eq; try reflexivity.
Qed.

Lemma hooks_aside_refl (s : state) : hooks_aside s s.
Proof. repeat split. intros r f Hr. by exists f. Qed.

Lemma hooks_aside_trans (s1 s2 s3 : state) :
  hooks_aside s1 s2 -> hooks_aside s2 s3 -> hooks_aside s1 s3.
Proof.
  intros (A1 & A2 & A3 & A4 & A5) (B1 & B2 & B3 & B4 & B5).
  repeat split; try congruence.
  intros r f Hr. destruct (A5 r f Hr) as (f' & Hr' & E').
  destruct (B5 r f' Hr') as (f'' & Hr'' & E''). exists f''. split; congruence.
Qed.

Lemma hooks_aside_log (s : state) (l : list event) : hooks_aside s (set_log l s).
Proof. repeat split. intros r f Hr. by exists f. Qed.

Lemma run_callback_spec (c : callback) (s : state) :
  log (final (run_callback c s)) = log s ++ [Call (callback_id c)]
  /\ hooks_aside s (final (run_callback c s)).
Proof.
  set (P := fun s' : state =>
              log s' = log s ++ [Call (callback_id c)] /\ hooks_aside s s').
  assert (Hstore : forall x, keeps P (store_cleanup x)).
  { intros x. unfold store_cleanup. keeps_structure.
    apply keeps_update. intros s' f [HL HA] Hf. split; [done|].
    eapply hooks_aside_trans; [exact HA|].
    repeat split. intros r0 f0 Hr0. simpl.
    destruct (decide (a0 = r0)) as [->|Hne].
    - rewrite lookup_insert_eq. eexists. split; [done|].
      assert (f0 = f) by congruence. by subst.
    - rewrite lookup_insert_ne by done. by exists f0. }
  assert (P0 : P (set_log (log s ++ [Call (callback_id c)]) s)).
  { split; [done|apply hooks_aside_log]. }
  destruct c as [id|fn]; simpl; [exact P0|].
  rewrite final_bind. unfold emit at 1, modify at 1.
  destruct (fn_cleanup fn); [|exact P0].
  by apply Hstore.
Qed.

Lemma forEach_callbacks (cs : list callback) (s : state) :
  exists a,
    a `prefix_of` map callback_id cs
    /\ log (final (forEach cs run_callback s)) = log s ++ map Call a
    /\ hooks_aside s (final (forEach cs run_callback s))
    /\ (forall s', forEach cs run_callback s = Ok tt s' -> a = map callback_id cs).
Proof.
  revert s. induction cs as [|c cs IH]; intros s.
  - exists []. simpl. rewrite app_nil_r. repeat split; try done. apply hooks_aside_refl.
  - simpl. destruct (run_callback_spec c s) as [HL HA].
    unfold bind. destruct (run_callback c s) as [[] s1|e s1]; simpl in *.
    + destruct (IH s1) as (a & Hpre & HL1 & HA1 & Hok).
      exists (callback_id c :: a). split; [by apply prefix_cons|].
      split; [rewrite HL1, HL, <- app_assoc; done|].
      split; [by eapply hooks_aside_trans|].
      intros s' Hs'. by rewrite (Hok s' Hs').
    + exists [callback_id c]. split; [apply prefix_cons, prefix_nil|].
      repeat split; try done. apply HA. apply HA. apply HA. apply HA. apply HA.
Qed.

Lemma commit_tree_dom_only (fuel : nat) : dom_only (commit_tree fuel).
Proof.
  unfold commit_tree. dom_only_structure.
  - apply dom_only_forEach. intros d. apply commitWork_dom_only.
  - apply commitWork_dom_only.
Qed.

(** ** The root fiber never carries [cleanups] or [effects] *)

Lemma root_bare_modify (g : state -> state) :
  (forall s, heap (g s) = heap s) -> (forall s, wipRoot (g s) = wipRoot s) ->
  keeps root_bare (modify g).
Proof.
  intros Hh Hw. apply keeps_modify. intros s [H1 H2]. unfold root_bare.
  rewrite Hh, Hw. by split.
Qed.

Lemma root_bare_update (r : ref) (g : Fiber.t -> Fiber.t) :
  (forall f, Fiber.type (g f) = Fiber.type f
             /\ Fiber.cleanups (g f) = Fiber.cleanups f
             /\ Fiber.effects (g f) = Fiber.effects f) ->
  keeps root_bare (update r g).
Proof.
  intros Hg. apply keeps_update. intros s f [H1 H2] Hf.
  destruct (Hg f) as (Ht & Hc & He). split; simpl.
  - intros r0 f0 Hr0 Hfc. destruct (decide (r = r0)) as [->|Hne].
    + rewrite lookup_insert_eq in Hr0. injection Hr0 as <-.
      rewrite Hc, He. apply (H1 r0 f Hf).
      unfold isFunctionComponent in *. by rewrite <- Ht.
    + rewrite lookup_insert_ne in Hr0 by done. by eapply H1.
  - intros r0 Hr0. destruct (H2 r0 Hr0) as (f0 & Hf0 & Ht0).
    destruct (decide (r = r0)) as [->|Hne].
    + rewrite lookup_insert_eq. eexists. split; [done|]. rewrite Ht. congruence.
    + rewrite lookup_insert_ne by done. eauto.
Qed.

Lemma root_bare_alloc (f : Fiber.t) :
  Fiber.cleanups f = None -> Fiber.effects f = None ->
  keeps root_bare (alloc f).
Proof.
  intros Hc He. apply keeps_alloc. intros s r [H1 H2] Hr. split; simpl.
  - intros r0 f0 Hr0 Hfc. destruct (decide (r = r0)) as [->|Hne].
    + rewrite lookup_insert_eq in Hr0. injection Hr0 as <-. done.
    + rewrite lookup_insert_ne in Hr0 by done. by eapply H1.
  - intros r0 Hr0. destruct (H2 r0 Hr0) as (f0 & Hf0 & Ht0).
    rewrite lookup_insert_ne by congruence. eauto.
Qed.

(** A write to [cleanups] or [effects] of a fiber that is a function
    component. *)
Lemma bare_heap_update_component (h : gmap ref Fiber.t) (root : option ref)
    (r : ref) (f : Fiber.t) (g : Fiber.t -> Fiber.t) :
  bare_heap h root -> h !! r = Some f -> isFunctionComponent f = true ->
  Fiber.type (g f) = Fiber.type f ->
  bare_heap (<[r := g f]> h) root.
Proof.
  intros [H1 H2] Hf Hfc Ht. split; simpl.
  - intros r0 f0 Hr0 Hfc0. destruct (decide (r = r0)) as [->|Hne].
    + rewrite lookup_insert_eq in Hr0. injection Hr0 as <-.
      unfold isFunctionComponent in *. rewrite Ht in Hfc0. congruence.
    + rewrite lookup_insert_ne in Hr0 by done. by eapply H1.
  - intros r0 Hr0. destruct (H2 r0 Hr0) as (f0 & Hf0 & Ht0).
    destruct (decide (r = r0)) as [->|Hne].
    + unfold isFunctionComponent in Hfc. assert (f0 = f) by congruence. subst.
      by rewrite Ht0 in Hfc.
    + rewrite lookup_insert_ne by done. eauto.
Qed.

Ltac bare_leaf :=
  first
    [ apply root_bare_modify; intros []; reflexivity
    | apply root_bare_update; intros []; done
    | apply root_bare_alloc; reflexivity
    | assumption ].

Ltac bare := keeps_structure; try bare_leaf.

Lemma oldHookOf_bare : keeps root_bare oldHookOf.
Proof. unfold oldHookOf. bare. Qed.

Lemma push_hook_bare (h : Hook.t) : keeps root_bare (push_hook h).
Proof. unfold push_hook. bare. Qed.

Lemma push_list_bare (r : ref) (f : Fiber.t) (g : Fiber.t -> Fiber.t) :
  (Fiber.cleanups f <> None \/ Fiber.effects f <> None) ->
  Fiber.type (g f) = Fiber.type f ->
  forall s, root_bare s -> heap s !! r = Some f ->
            root_bare (final (update r g s)).
Proof.
  intros Hl Ht s Hs Hf. unfold update, bind, deref, modify. rewrite Hf. simpl.
  apply bare_heap_update_component; try done.
  destruct (isFunctionComponent f) eqn:E; [done|].
  destruct (proj1 Hs r f Hf E) as [Hc He]. destruct Hl; congruence.
Qed.

Lemma push_cleanup_bare (c : callback) : keeps root_bare (push_cleanup c).
Proof.
  intros s Hs. unfold push_cleanup, bind at 1 2 3 4, gets, the at 1.
  destruct (wipFiber s) as [r|]; [|done]. simpl.
  unfold deref at 1. destruct (heap s !! r) as [f|] eqn:Hf; [|done].
  destruct (Fiber.cleanups f) as [cs|] eqn:Hc; [|done]. simpl.
  apply (push_list_bare r f); try done. left. congruence.
Qed.

Lemma push_effect_bare (c : callback) : keeps root_bare (push_effect c).
Proof.
  intros s Hs. unfold push_effect, bind at 1 2 3 4, gets, the at 1.
  destruct (wipFiber s) as [r|]; [|done]. simpl.
  unfold deref at 1. destruct (heap s !! r) as [f|] eqn:Hf; [|done].
  destruct (Fiber.effects f) as [es|] eqn:He; [|done]. simpl.
  apply (push_list_bare r f); try done. right. congruence.
Qed.

Lemma some_dep_differs_bare (deps : list value) (old : option (list value)) :
  keeps root_bare (some_dep_differs deps old).
Proof. unfold some_dep_differs. bare. Qed.

Lemma useEffect_bare (fn : effect_fn) (deps : option (list value)) :
  keeps root_bare (useEffect fn deps).
Proof.
  unfold useEffect. pose proof oldHookOf_bare. pose proof push_hook_bare.
  pose proof push_cleanup_bare. pose proof push_effect_bare.
  pose proof some_dep_differs_bare. bare; auto.
Qed.

Lemma useState_bare (initial : value) : keeps root_bare (useState initial).
Proof.
  unfold useState. pose proof oldHookOf_bare. pose proof push_hook_bare.
  bare; auto.
Qed.

Lemma run_prog_bare (p : prog) : keeps root_bare (run_prog p).
Proof.
  induction p as [e|initial k IH|fn deps k IH]; simpl.
  - apply keeps_ret.
  - apply keeps_bind; [apply useState_bare|]. intros res. apply IH.
  - apply keeps_bind; [apply useEffect_bare|]. intros _. apply IH.
Qed.

Lemma reconcile_position_bare (wipFiber : ref) (elements : list element) (index : nat)
    (oldFiber prevSibling : option ref) :
  keeps root_bare (reconcile_position wipFiber elements index oldFiber prevSibling).
Proof. unfold reconcile_position. bare. Qed.

Lemma reconcile_loop_bare (fuel : nat) (wipFiber : ref) (elements : list element) :
  forall index oldFiber prevSibling,
    keeps root_bare (reconcile_loop fuel wipFiber elements index oldFiber prevSibling).
Proof.
  induction fuel as [|fuel IH]; intros index oldFiber prevSibling; simpl.
  - destruct (_ || _); [apply keeps_throw|apply keeps_ret].
  - destruct (_ || _); [|apply keeps_ret].
    apply keeps_bind; [apply reconcile_position_bare|]. intros next. apply IH.
Qed.

Lemma reconcileChildren_bare (fuel : nat) (wipFiber : ref) (elements : list element) :
  keeps root_bare (reconcileChildren fuel wipFiber elements).
Proof.
  unfold reconcileChildren. bare. all: apply reconcile_loop_bare.
Qed.

Lemma createDom_bare (f : Fiber.t) : keeps root_bare (createDom f).
Proof. unfold createDom, emit, emit_ops. bare. Qed.

Section SchedulerBare.
Variable component : nat -> props -> prog.

Lemma updateHostComponent_bare (fuel : nat) (fiber : ref) :
  keeps root_bare (updateHostComponent fuel fiber).
Proof.
  unfold updateHostComponent. pose proof createDom_bare. bare; auto.
  apply reconcileChildren_bare.
Qed.

Lemma updateFunctionComponent_bare (fuel : nat) (fiber : ref) (s : state) (f : Fiber.t) :
  root_bare s -> heap s !! fiber = Some f -> isFunctionComponent f = true ->
  root_bare (final (updateFunctionComponent component fuel fiber s)).
Proof.
  intros Hs Hf Hfc. unfold updateFunctionComponent.
  unfold bind at 1 2 3 4 5, modify at 1 2, update at 1 2 3, bind at 1 2 3,
    deref at 1 2 3, modify at 1 2 3.
  simpl. rewrite Hf. simpl. repeat (rewrite lookup_insert_eq; simpl).
  match goal with |- root_bare (final (?m ?s1)) =>
    assert (Hk : keeps root_bare m); [|apply Hk]
  end.
  { keeps_structure; try bare_leaf.
    - apply run_prog_bare.
    - apply reconcileChildren_bare. }
  unfold root_bare. simpl.
  repeat (apply bare_heap_update_component; [|apply lookup_insert_eq|done|done]).
  by apply bare_heap_update_component.
Qed.

Lemma nextSibling_bare (fuel : nat) (nextFiber : option ref) :
  keeps root_bare (nextSibling fuel nextFiber).
Proof.
  revert nextFiber. induction fuel as [|fuel IH]; intros [r|]; simpl; bare.
  apply IH.
Qed.

Lemma performUnitOfWork_bare (fuel : nat) (fiber : ref) :
  keeps root_bare (performUnitOfWork component fuel fiber).
Proof.
  assert (Hk : keeps root_bare
            (f0 <- deref fiber ;;
             match Fiber.child f0 with
             | Some c => ret (Some c)
             | None => nextSibling fuel (Some fiber)
             end)).
  { bare. apply nextSibling_bare. }
  intros s Hs. unfold performUnitOfWork. rewrite final_bind. unfold deref at 1.
  destruct (heap s !! fiber) as [f|] eqn:Hf; [|done].
  rewrite final_bind.
  destruct (isFunctionComponent f) eqn:Hfc.
  - pose proof (updateFunctionComponent_bare fuel fiber s f Hs Hf Hfc) as H1.
    destruct (updateFunctionComponent component fuel fiber s) as [[] s1|e s1]; [|done].
    by apply Hk.
  - pose proof (updateHostComponent_bare fuel fiber s Hs) as H1.
    destruct (updateHostComponent fuel fiber s) as [[] s1|e s1]; [|done].
    by apply Hk.
Qed.

End SchedulerBare.

Lemma commitRoot_throws (fuel : nat) (s : state) :
  root_bare s -> commitRoot fuel s = Throw TypeError s.
Proof.
  intros [H1 H2]. unfold commitRoot, bind, gets, the, deref, ret, throw.
  destruct (wipRoot s) as [r|]; [|done].
  destruct (H2 r eq_refl) as (f & Hf & Ht). rewrite Hf.
  destruct (H1 r f Hf) as [Hc _]; [unfold isFunctionComponent; by rewrite Ht|].
  by rewrite Hc.
Qed.

Lemma install_root_bare (s : state) (f : Fiber.t) (g : state -> state) :
  root_bare s ->
  Fiber.type f = None -> Fiber.cleanups f = None -> Fiber.effects f = None ->
  (forall s', heap (g s') = heap s') -> (forall s', wipRoot (g s') = wipRoot s') ->
  root_bare (g (set_wipRoot (Some (fresh (dom (heap s))))
                  (set_heap (<[fresh (dom (heap s)) := f]> (heap s)) s))).
Proof.
  intros [H1 H2] Ht Hc He Hgh Hgw. unfold root_bare. rewrite Hgh, Hgw. simpl.
  split.
  - intros r0 f0 Hr0 Hfc. destruct (decide (fresh (dom (heap s)) = r0)) as [<-|Hne].
    + rewrite lookup_insert_eq in Hr0. by injection Hr0 as <-.
    + rewrite lookup_insert_ne in Hr0 by done. by eapply H1.
  - intros r0 [= <-]. rewrite lookup_insert_eq. by eexists.
Qed.

Lemma render_bare (element : element) (container : option node) :
  keeps root_bare (render element container).
Proof.
  intros s Hs. unfold render, bind, gets, alloc, modify. simpl.
  by apply (install_root_bare s _
              (fun s' => set_nextUnitOfWork (wipRoot s') (set_deletions (Some []) s'))).
Qed.

Lemma setState_bare (h : setter) (action : value -> value) :
  keeps root_bare (setState h action).
Proof.
  unfold setState. apply keeps_bind; [apply keeps_deref|intros f].
  apply keeps_bind; [bare|intros _].
  intros s Hs. unfold bind at 1, gets at 1.
  unfold bind at 1, the at 1. destruct (currentRoot s) as [c|]; [|done]. simpl.
  unfold bind at 1, deref at 1. destruct (heap s !! c) as [root|]; [|done].
  unfold bind, gets, alloc, modify. simpl.
  by apply (install_root_bare s _
              (fun s' => set_deletions (Some []) (set_nextUnitOfWork (wipRoot s') s'))).
Qed.

Section EntriesBare.
Variable component : nat -> props -> prog.

Lemma workLoop_while_bare (fuel n : nat) (deadline : nat -> Q) :
  forall (k : nat) (shouldYield : bool) (s : state),
    root_bare s ->
    root_bare (final (snd (workLoop_while component fuel n deadline k shouldYield s))).
Proof.
  induction n as [|n IH]; intros k shouldYield s Hs; simpl.
  - destruct (nextUnitOfWork s); [destruct shouldYield|]; done.
  - destruct (nextUnitOfWork s) as [fiber|]; [|done].
    destruct shouldYield; [done|].
    pose proof (performUnitOfWork_bare component fuel fiber s Hs) as H1.
    destruct (performUnitOfWork component fuel fiber s) as [next s1|e s1]; [|done].
    simpl. apply IH. exact H1.
Qed.

Lemma workLoop_bare (fuel n : nat) (deadline : nat -> Q) (s : state) :
  root_bare s ->
  root_bare (final (snd (workLoop component fuel n deadline s))).
Proof.
  intros Hs. unfold workLoop, then_commit.
  pose proof (workLoop_while_bare fuel n deadline 0 false s Hs) as H1.
  destruct (snd (workLoop_while component fuel n deadline 0 false s)) as [[] s1|e s1];
    simpl in *; [|done].
  unfold commit_when_done, bind, gets.
  destruct (nextUnitOfWork s1); [done|]. destruct (wipRoot s1) eqn:E; [|done].
  by rewrite commitRoot_throws.
Qed.

Lemma enter_bare (fuel n : nat) (c : entry) (s : state) :
  root_bare s -> root_bare (enter component fuel n c s).
Proof.
  intros Hs. destruct c as [element container|h action|deadline]; simpl.
  - by apply render_bare.
  - by apply setState_bare.
  - by apply workLoop_bare.
Qed.

(** C2. [commitRoot] reads [cleanups] and [effects] from the root fiber
    [wipRoot] itself.  [render] and [setState] create that fiber without
    the two fields, and the only writes to them are those of
    [updateFunctionComponent] and of the hooks, on fibers whose type is a
    function.  So after any sequence of entries into the module -- calls of
    [render], of [setState] closures and of [workLoop], from the initial
    state -- the root fiber, when there is one, has no [cleanups] and no
    [effects], and a call of [commitRoot] throws a TypeError on its first
    statement, before any callback is called and before any DOM mutation:
    the state, log included, is as it was. *)
Theorem commitRoot_reads_absent_root_fields
    (fuel n : nat) (entries : list entry) :
  let s := fold_left (fun s c => enter component fuel n c s) entries initial_state in
  (forall r, wipRoot s = Some r ->
     exists f, heap s !! r = Some f
               /\ Fiber.type f = None
               /\ Fiber.cleanups f = None
               /\ Fiber.effects f = None)
  /\ (forall fuel', commitRoot fuel' s = Throw TypeError s).
Proof.
  intros s.
  assert (Hs : root_bare s).
  { subst s. assert (H0 : root_bare initial_state).
    { split; [|done]. intros r f Hr. simpl in Hr. by rewrite lookup_empty in Hr. }
    revert H0. generalize initial_state.
    induction entries as [|c cs IH]; intros s0 H0; simpl; [done|].
    apply IH. by apply enter_bare. }
  split.
  - intros r Hr. destruct Hs as [H1 H2]. destruct (H2 r Hr) as (f & Hf & Ht).
    exists f. split; [done|]. split; [done|].
    apply (H1 r f Hf). unfold isFunctionComponent. by rewrite Ht.
  - intros fuel'. by apply commitRoot_throws.
Qed.

End EntriesBare.

(** ** Order of the units of work, and independence from the yields *)

Lemma bind_Ok_inv {A B} (m : M A) (k : A -> M B) (s s' : state) (b : B) :
  bind m k s = Ok b s' -> exists a s1, m s = Ok a s1 /\ k a s1 = Ok b s'.
Proof. unfold bind. destruct (m s) as [a s1|e s1]; [eauto|done]. Qed.

Section Walk.
Variable component : nat -> props -> prog.

Lemma nextSibling_climb (fuel : nat) :
  forall (o next : option ref) (s s' : state),
    nextSibling fuel o s = Ok next s' -> s' = s /\ climb (heap s) o next.
Proof.
  induction fuel as [|fuel IH]; intros [r|] next s s'; simpl.
  - done.
  - intros [= <- <-]. split; [done|constructor].
  - unfold bind, deref. destruct (heap s !! r) as [f|] eqn:Hf; [|done].
    destruct (Fiber.sibling f) as [sb|] eqn:Hsb.
    + intros [= <- <-]. split; [done|]. by eapply climb_sibling.
    + intros H. destruct (IH _ _ _ _ H) as [-> Hc]. split; [done|].
      by eapply climb_parent.
  - intros [= <- <-]. split; [done|constructor].
Qed.

Lemma performUnitOfWork_next (fuel : nat) (fiber : ref) (s s' : state)
    (next : option ref) :
  performUnitOfWork component fuel fiber s = Ok next s' ->
  dfs_next (heap s') fiber next.
Proof.
  unfold performUnitOfWork. intros H.
  apply bind_Ok_inv in H as (f0 & s0 & _ & H).
  apply bind_Ok_inv in H as ([] & s1 & _ & H).
  apply bind_Ok_inv in H as (f & s2 & Hf & H).
  unfold deref in Hf. destruct (heap s1 !! fiber) as [f'|] eqn:Hf'; [|done].
  injection Hf as -> ->.
  destruct (Fiber.child f) as [c|] eqn:Hc.
  - injection H as <- <-. exists f. by rewrite Hc.
  - apply nextSibling_climb in H as [-> Hcl]. exists f. by rewrite Hc.
Qed.

Lemma workLoop_while_no_deadline (fuel m : nat) :
  forall (k k' : nat) (s : state),
    workLoop_while component fuel m no_deadline k false s
    = workLoop_while component fuel m no_deadline k' false s.
Proof.
  induction m as [|m IH]; intros k k' s; simpl; [done|].
  destruct (nextUnitOfWork s) as [fiber|]; [|done].
  destruct (performUnitOfWork component fuel fiber s) as [next s1|e s1]; [|done].
  change (negb (Qle_bool 1 (no_deadline k))) with false.
  change (negb (Qle_bool 1 (no_deadline k'))) with false.
  by rewrite (IH (S k) (S k')).
Qed.

Lemma walk_step (fuel m : nat) (s : state) :
  walk component fuel (S m) s =
    match nextUnitOfWork s with
    | Some fiber =>
        match performUnitOfWork component fuel fiber s with
        | Ok next s1 =>
            (fiber :: fst (walk component fuel m (set_nextUnitOfWork next s1)),
             snd (walk component fuel m (set_nextUnitOfWork next s1)))
        | Throw e s1 => ([fiber], Throw e s1)
        end
    | None => ([], Ok tt s)
    end.
Proof.
  unfold walk. simpl. destruct (nextUnitOfWork s) as [fiber|]; [|done].
  destruct (performUnitOfWork component fuel fiber s) as [next s1|e s1]; [|done].
  change (negb (Qle_bool 1 (no_deadline 0))) with false.
  by rewrite (workLoop_while_no_deadline fuel m 1 0).
Qed.

Lemma walk_nothing (fuel m : nat) (s : state) :
  nextUnitOfWork s = None -> walk component fuel m s = ([], Ok tt s).
Proof. intros H. unfold walk. destruct m; simpl; by rewrite H. Qed.

(** A period that yields is a prefix of the walk without yields. *)
Lemma period_prefix (fuel n : nat) (deadline : nat -> Q) :
  forall (k : nat) (shouldYield : bool) (s s1 : state) (units : list ref) (u : unit),
    workLoop_while component fuel n deadline k shouldYield s = (units, Ok u s1) ->
    forall m,
      walk component fuel (length units + m) s
      = (units ++ fst (walk component fuel m s1), snd (walk component fuel m s1)).
Proof.
  induction n as [|n IH]; intros k shouldYield s s1 units u; simpl.
  - destruct (nextUnitOfWork s) as [fiber|] eqn:Hnu.
    + destruct shouldYield; [|done]. intros [= <- <- <-] m. simpl.
      by destruct (walk component fuel m s).
    + intros [= <- <- <-] m. simpl. by destruct (walk component fuel m s).
  - destruct (nextUnitOfWork s) as [fiber|] eqn:Hnu.
    + destruct shouldYield.
      { intros [= <- <- <-] m. simpl. by destruct (walk component fuel m s). }
      destruct (performUnitOfWork component fuel fiber s) as [next s'|e s'] eqn:Hp;
        [|done].
      destruct (workLoop_while component fuel n deadline (S k) _ _)
        as [units' o'] eqn:Hrest.
      simpl. intros [= <- ->] m. simpl.
      rewrite walk_step, Hnu, Hp. by rewrite (IH _ _ _ _ _ _ Hrest m).
    + intros [= <- <- <-] m. simpl. by destruct (walk component fuel m s).
Qed.

Lemma period_throw (fuel n : nat) (deadline : nat -> Q) :
  forall (k : nat) (shouldYield : bool) (s s1 : state) (units : list ref) (e : error),
    workLoop_while component fuel n deadline k shouldYield s = (units, Throw e s1) ->
    e <> OutOfFuel ->
    forall m, walk component fuel (length units + m) s = (units, Throw e s1).
Proof.
  induction n as [|n IH]; intros k shouldYield s s1 units e; simpl.
  - destruct (nextUnitOfWork s) as [fiber|] eqn:Hnu; [|done].
    destruct shouldYield; [done|]. by intros [= <- <- <-].
  - destruct (nextUnitOfWork s) as [fiber|] eqn:Hnu; [|done].
    destruct shouldYield; [done|].
    destruct (performUnitOfWork component fuel fiber s) as [next s'|e' s'] eqn:Hp.
    + destruct (workLoop_while component fuel n deadline (S k) _ _)
        as [units' o'] eqn:Hrest.
      simpl. intros [= <- ->] He m. simpl.
      rewrite walk_step, Hnu, Hp. by rewrite (IH _ _ _ _ _ _ Hrest He m).
    + intros [= <- <- <-] He m. simpl. by rewrite walk_step, Hnu, Hp.
Qed.

End Walk.

Lemma commitRoot_Ok (fuel : nat) (s s' : state) (u : unit) :
  commitRoot fuel s = Ok u s' ->
  wipRoot s' = None /\ nextUnitOfWork s' = nextUnitOfWork s.
Proof.
  intros H. split.
  - unfold commitRoot in H.
    repeat (apply bind_Ok_inv in H as (? & ? & _ & H)).
    by injection H as _ <-.
  - set (P := fun s0 : state => nextUnitOfWork s0 = nextUnitOfWork s).
    assert (Hcb : forall c, keeps P (run_callback c)).
    { intros c s0 H0. destruct (run_callback_spec c s0) as (_ & HA).
      unfold P. by rewrite (proj1 HA). }
    assert (Hk : keeps P (run_cleanups ;;; commit_tree fuel ;;; run_effects)).
    { apply keeps_bind; [unfold run_cleanups; keeps_structure; apply Hcb|intros _].
      apply keeps_bind; [|intros _].
      - intros s0 H0. destruct (commit_tree_dom_only fuel s0) as [ops ->]. exact H0.
      - unfold run_effects. keeps_structure; try apply Hcb;
          apply keeps_modify; intros s0 H0; exact H0. }
    rewrite commitRoot_phases in H. specialize (Hk s eq_refl).
    by rewrite H in Hk.
Qed.

Section Periods.
Variable component : nat -> props -> prog.

Lemma then_commit_app (fuel : nat) (units : list ref) (r : list ref * outcome unit) :
  then_commit fuel (units ++ fst r, snd r)
  = (units ++ fst (then_commit fuel r), snd (then_commit fuel r)).
Proof. unfold then_commit. simpl. by destruct (snd r). Qed.

Lemma finish_settled (fuel m : nat) (s : state) :
  nextUnitOfWork s = None -> wipRoot s = None ->
  finish component fuel m s = ([], Ok tt s).
Proof.
  intros Hnu Hwr. unfold finish. rewrite walk_nothing by done.
  unfold then_commit, commit_when_done, bind, gets. simpl. by rewrite Hnu, Hwr.
Qed.

(** Lines 228-230 leave the rest of the walk as it was. *)
Lemma finish_after_commit (fuel m : nat) (s s1 : state) (u : unit) :
  commit_when_done fuel s = Ok u s1 ->
  finish component fuel m s = finish component fuel m s1.
Proof.
  unfold commit_when_done, bind, gets. simpl.
  destruct (nextUnitOfWork s) as [fiber|] eqn:Hnu; [by intros [= _ <-]|].
  destruct (wipRoot s) as [r|] eqn:Hwr; [|by intros [= _ <-]].
  intros H. destruct (commitRoot_Ok _ _ _ _ H) as [Hwr1 Hnu1].
  rewrite (finish_settled fuel m s1) by congruence.
  unfold finish. rewrite walk_nothing by done.
  unfold then_commit, commit_when_done, bind, gets. simpl. rewrite Hnu, Hwr, H.
  by destruct u.
Qed.

Lemma workLoop_then_finish (fuel n : nat) (deadline : nat -> Q) (s s1 : state)
    (units : list ref) (u : unit) :
  workLoop component fuel n deadline s = (units, Ok u s1) ->
  forall m,
    finish component fuel (length units + m) s
    = (units ++ fst (finish component fuel m s1), snd (finish component fuel m s1)).
Proof.
  unfold workLoop. intros H m.
  destruct (workLoop_while component fuel n deadline 0 false s) as [units0 o0] eqn:HW.
  unfold then_commit in H. simpl in H.
  destruct o0 as [u0 s0|e0 s0]; [|done].
  injection H as -> Hc.
  unfold finish at 1. rewrite (period_prefix component fuel n deadline _ _ _ _ _ _ HW m).
  rewrite then_commit_app. fold (finish component fuel m s0).
  by rewrite (finish_after_commit fuel m s0 s1 u Hc).
Qed.

Lemma workLoop_throw_finish (fuel n : nat) (deadline : nat -> Q) (s s1 : state)
    (units : list ref) (e : error) :
  workLoop component fuel n deadline s = (units, Throw e s1) ->
  e <> OutOfFuel ->
  forall m, finish component fuel (length units + m) s = (units, Throw e s1).
Proof.
  unfold workLoop. intros H He m.
  destruct (workLoop_while component fuel n deadline 0 false s) as [units0 o0] eqn:HW.
  unfold then_commit in H. simpl in H.
  destruct o0 as [u0 s0|e0 s0].
  - injection H as -> Hc.
    unfold finish. rewrite (period_prefix component fuel n deadline _ _ _ _ _ _ HW m).
    assert (Hnu : nextUnitOfWork s0 = None).
    { unfold commit_when_done, bind, gets in Hc. simpl in Hc.
      by destruct (nextUnitOfWork s0). }
    rewrite walk_nothing by done. unfold then_commit. simpl.
    by rewrite Hc, app_nil_r.
  - injection H as -> -> ->.
    unfold finish. by rewrite (period_throw component fuel n deadline _ _ _ _ _ _ HW He m).
Qed.

Lemma idle_periods_finish (fuel n : nat) (deadlines : list (nat -> Q)) :
  forall s,
    settled (idle_periods component fuel n deadlines s) ->
    fuel_sufficed (idle_periods component fuel n deadlines s) ->
    forall m,
      finish component fuel
        (length (fst (idle_periods component fuel n deadlines s)) + m) s
      = idle_periods component fuel n deadlines s.
Proof.
  induction deadlines as [|deadline rest IH]; intros s; simpl.
  - intros [Hnu Hwr] _ m. by apply finish_settled.
  - destruct (workLoop component fuel n deadline s) as [units [u s1|e s1]] eqn:HW.
    + simpl. intros Hs Hf m.
      rewrite length_app, <- Nat.add_assoc.
      rewrite (workLoop_then_finish fuel n deadline s s1 units u HW).
      rewrite (IH s1 Hs Hf m). done.
    + simpl. intros _ Hf m.
      apply (workLoop_throw_finish fuel n deadline s s1 units e HW).
      intros ->. by apply (Hf s1).
Qed.

End Periods.

(** ** A deletion applied twice *)

(** What the commit would make of the deletions of a shrinking pass, were
    it to get past the root's missing lists.  Shrinking the children of a
    [div] from three [p] to one leaves the two removed fibers in
    [deletions], the first still linked to the second by [sibling].
    [commitWork], called on the first deleted fiber, goes on to its sibling
    and applies that fiber's DELETION; the second fiber's own entry in
    [deletions] applies it again.  Both removed fibers had been tagged
    PLACEMENT when they were created and were tagged again, DELETION, by
    the second diff. *)
Lemma commit_applies_deletion_twice :
  deletions second_pass = Some [3; 4]
  /\ (Fiber.effectTag <$> heap first_pass !! 4) = Some (Some PLACEMENT)
  /\ (Fiber.effectTag <$> heap second_pass !! 4) = Some (Some DELETION)
  /\ (Fiber.sibling <$> heap second_pass !! 3) = Some (Some 4)
  /\ exists s',
       commit_tree 10 second_pass = Ok tt s'
       /\ log s' = log second_pass
                   ++ [ Dom (RemoveChild (Created 0) (Created 2));
                        Dom (RemoveChild (Created 0) (Created 3));
                        Dom (RemoveChild (Created 0) (Created 3)) ]
       /\ exists s'',
            commitRoot 10 second_pass_with_lists = Ok tt s''
            /\ log s'' = log s'.
Proof.
  split; [by vm_compute|]. split; [by vm_compute|]. split; [by vm_compute|].
  split; [by vm_compute|].
  eexists. split; [vm_compute; reflexivity|]. split; [by vm_compute|].
  eexists. split; [vm_compute; reflexivity|]. by vm_compute.
Qed.

(** ** Further properties of the host adapter *)

Lemma filter_nothing {A} (f : A -> bool) (l : list A) :
  (forall x, x ∈ l -> f x = false) -> List.filter f l = [].
Proof.
  induction l as [|a l IH]; intros H; simpl; [done|].
  rewrite (H a) by left. apply IH. intros x Hx. apply H. by right.
Qed.

Lemma elem_of_filter_inv {A} (f : A -> bool) (l : list A) (x : A) :
  x ∈ List.filter f l -> x ∈ l /\ f x = true.
Proof. rewrite !list_elem_of_In. apply filter_In. Qed.

Lemma isNew_same (p : props) (key : string) :
  isNew p p key = true <-> prop_get p key = VNaN.
Proof.
  unfold isNew. rewrite strict_neq_spec. split; [by intros [H|H]|by right].
Qed.

(** X1. Diffing a props object against itself touches only what holds
    [NaN].  Every operation of [updateDom(dom, props, props)] is for an own
    key of [props] whose value is [NaN], the one value that [!==] tells
    from itself: such a property is assigned again, and such a listener is
    removed and added again.  Of a props object without [NaN] nothing is
    asked of the host: no listener removed or added, no property cleared or
    assigned. *)
Theorem updateDom_same_props (dom : node) (p : props) :
  (forall op, In op (updateDom dom p p) <->
     exists key,
       own_key p key /\ prop_get p key = VNaN
       /\ (key <> "children" /\ (forall rest, key <> "on" +:+ rest)
             /\ op = SetProperty dom key VNaN
           \/ exists rest,
                key = "on" +:+ rest
                /\ (op = RemoveEventListener dom (toLowerCase rest) VNaN
                    \/ op = AddEventListener dom (toLowerCase rest) VNaN)))
  /\ ((forall key, own_key p key -> prop_get p key <> VNaN) ->
      updateDom dom p p = []).
Proof.
  assert (H : forall op, In op (updateDom dom p p) <->
     exists key,
       own_key p key /\ prop_get p key = VNaN
       /\ (key <> "children" /\ (forall rest, key <> "on" +:+ rest)
             /\ op = SetProperty dom key VNaN
           \/ exists rest,
                key = "on" +:+ rest
                /\ (op = RemoveEventListener dom (toLowerCase rest) VNaN
                    \/ op = AddEventListener dom (toLowerCase rest) VNaN))).
  { intros op. unfold updateDom. rewrite !in_app_iff.
    rewrite removed_listeners_spec, cleared_properties_spec,
      assigned_properties_spec, added_listeners_spec.
    split.
    - intros [(rest & Hk & Hc & ->)|[(key & Hk & _ & _ & Hn & _)
                |[(key & Hk & Hc & He & Hn & ->)|(rest & Hk & Hn & ->)]]].
      + destruct Hc as [Hc|Hc]; [done|]. apply isNew_same in Hc.
        exists ("on" +:+ rest). rewrite Hc. split; [done|]. split; [done|].
        right. exists rest. split; [done|by left].
      + done.
      + apply isNew_same in Hn. exists key. rewrite Hn.
        split; [done|]. split; [done|]. by left.
      + apply isNew_same in Hn. exists ("on" +:+ rest). rewrite Hn.
        split; [done|]. split; [done|]. right. exists rest. split; [done|by right].
    - intros (key & Hk & Hv & [(Hc & He & ->)|(rest & -> & [-> | ->])]).
      + right. right. left. exists key. rewrite Hv.
        by rewrite isNew_same.
      + left. exists rest. rewrite Hv. split; [done|]. split; [|done].
        right. by apply isNew_same.
      + right. right. right. exists rest. rewrite Hv. by rewrite isNew_same. }
  split; [exact H|].
  intros Hn. destruct (updateDom dom p p) as [|op l] eqn:E; [done|].
  destruct (proj1 (H op) ltac:(by left)) as (key & Hk & Hv & _).
  by destruct (Hn key Hk).
Qed.

Lemma updateDom_initialises (dom : node) (p : props) :
  updateDom dom empty_object p
  = assigned_properties dom empty_object p ++ added_listeners dom empty_object p
  /\ Forall (initialises dom) (updateDom dom empty_object p).
Proof.
  split; [done|].
  change (updateDom dom empty_object p)
    with (assigned_properties dom empty_object p ++ added_listeners dom empty_object p).
  apply Forall_app. split; apply Forall_map, Forall_forall; by intros.
Qed.

Lemma createDom_runs (f : Fiber.t) (s : state) :
  createDom f s
  = Ok (Created (created s))
       (set_log (log s ++ map Dom (creation (Fiber.type f) (Created (created s))
                                   :: updateDom (Created (created s)) empty_object
                                        (Fiber.props f)))
                (set_created (S (created s)) s)).
Proof.
  unfold createDom, bind, gets, modify, emit, emit_ops, ret, set_log, set_created.
  simpl. by rewrite <- app_assoc.
Qed.

(** X2. [createDom] always returns, with a node the host has not handed out
    before (the host's counter moves on by one).  It asks the host for one
    node -- a text node when the fiber's type is the text marker, an element
    of the fiber's type otherwise -- and then only initialises that node:
    it assigns the properties the fiber's props define and adds the
    listeners they name, removes no listener, clears no property, and
    neither touches another node nor writes to a fiber or a module
    variable. *)
Theorem createDom_initialises_new_node (f : Fiber.t) (s : state) :
  let d := Created (created s) in
  let ops := assigned_properties d empty_object (Fiber.props f)
             ++ added_listeners d empty_object (Fiber.props f) in
  createDom f s
  = Ok d (set_log (log s ++ map Dom (creation (Fiber.type f) d :: ops))
                  (set_created (S (created s)) s))
  /\ Forall (initialises d) ops.
Proof.
  intros d ops. rewrite createDom_runs.
  destruct (updateDom_initialises d (Fiber.props f)) as [E H].
  fold d. by rewrite E in *.
Qed.

(** ** Further properties of the commit *)

Lemma commitDeletion_found (h : gmap ref Fiber.t) (o : option ref) (d : node) :
  first_host_node h o d ->
  exists fuel0, forall fuel domParent s,
    heap s = h -> fuel0 <= fuel ->
    commitDeletion fuel o domParent s
    = Ok tt (set_log (log s ++ [Dom (RemoveChild domParent d)]) s).
Proof.
  induction 1 as [r f d Hr Hd|r f d Hr Hd Hc [fuel0 IH]].
  - exists 1. intros [|fuel] domParent s <- Hfuel; [lia|]. simpl.
    unfold bind, the, ret, deref. by rewrite Hr, Hd.
  - exists (S fuel0). intros [|fuel] domParent s <- Hfuel; [lia|]. simpl.
    unfold bind, the, ret, deref. rewrite Hr, Hd. apply IH; [done|lia].
Qed.

Lemma commitDeletion_not_found (h : gmap ref Fiber.t) (o : option ref) :
  no_host_node h o ->
  exists fuel0, forall fuel domParent s,
    heap s = h -> fuel0 <= fuel ->
    commitDeletion fuel o domParent s = Throw TypeError s.
Proof.
  induction 1 as [|r f Hr Hd Hc [fuel0 IH]].
  - exists 1. intros [|fuel] domParent s <- Hfuel; [lia|]. done.
  - exists (S fuel0). intros [|fuel] domParent s <- Hfuel; [lia|]. simpl.
    unfold bind, the, ret, deref. rewrite Hr, Hd. apply IH; [done|lia].
Qed.

Lemma commitDeletion_Ok_inv (fuel : nat) :
  forall (o : option ref) (domParent : node) (s s' : state) (u : unit),
    commitDeletion fuel o domParent s = Ok u s' ->
    exists d, first_host_node (heap s) o d
              /\ s' = set_log (log s ++ [Dom (RemoveChild domParent d)]) s.
Proof.
  induction fuel as [|fuel IH]; intros o domParent s s' u; simpl; [done|].
  unfold bind, the, ret, throw, deref. destruct o as [r|]; [|done].
  destruct (heap s !! r) as [f|] eqn:Hr; [|done].
  destruct (Fiber.dom f) as [d|] eqn:Hd.
  - intros [= <-]. exists d. split; [by eapply host_node_here|done].
  - intros H. destruct (IH _ _ _ _ _ H) as (d & Hfirst & ->).
    exists d. split; [by eapply host_node_below|done].
Qed.

(** X3. [commitDeletion] removes one node and no more: the host node of
    the first fiber that has one on the way down through the [child] links,
    the deleted fiber itself first.  Given enough turns it returns having
    asked [domParent] to remove exactly that node; when the way down ends
    at a fiber without child before any host node, it throws a TypeError
    and has asked nothing of the host; and whenever it returns, the one
    operation it has logged is that removal.  It never looks at a
    sibling. *)
Theorem commitDeletion_removes_first_host_node (s : state) (o : option ref) :
  (forall d, first_host_node (heap s) o d ->
     exists fuel0, forall fuel domParent, fuel0 <= fuel ->
       commitDeletion fuel o domParent s
       = Ok tt (set_log (log s ++ [Dom (RemoveChild domParent d)]) s))
  /\ (no_host_node (heap s) o ->
      exists fuel0, forall fuel domParent, fuel0 <= fuel ->
        commitDeletion fuel o domParent s = Throw TypeError s)
  /\ (forall fuel domParent s' u,
        commitDeletion fuel o domParent s = Ok u s' ->
        exists d, first_host_node (heap s) o d
                  /\ s' = set_log (log s ++ [Dom (RemoveChild domParent d)]) s).
Proof.
  split; [|split].
  - intros d H. destruct (commitDeletion_found _ _ _ H) as [fuel0 H0].
    exists fuel0. intros fuel domParent Hfuel. by apply H0.
  - intros H. destruct (commitDeletion_not_found _ _ H) as [fuel0 H0].
    exists fuel0. intros fuel domParent Hfuel. by apply H0.
  - intros fuel domParent s' u. apply commitDeletion_Ok_inv.
Qed.

Lemma domParentOf_found (h : gmap ref Fiber.t) (o : option ref) (d : node) :
  host_ancestor h o d ->
  exists fuel0, forall fuel s,
    heap s = h -> fuel0 <= fuel -> domParentOf fuel o s = Ok d s.
Proof.
  induction 1 as [r f d Hr Hd|r f d Hr Hd Hc [fuel0 IH]].
  - exists 1. intros [|fuel] s <- Hfuel; [lia|]. simpl.
    unfold bind, the, ret, deref. by rewrite Hr, Hd.
  - exists (S fuel0). intros [|fuel] s <- Hfuel; [lia|]. simpl.
    unfold bind, the, ret, deref. rewrite Hr, Hd. apply IH; [done|lia].
Qed.

Lemma domParentOf_not_found (h : gmap ref Fiber.t) (o : option ref) :
  no_host_ancestor h o ->
  exists fuel0, forall fuel s,
    heap s = h -> fuel0 <= fuel -> domParentOf fuel o s = Throw TypeError s.
Proof.
  induction 1 as [|r f Hr Hd Hc [fuel0 IH]].
  - exists 1. intros [|fuel] s <- Hfuel; [lia|]. done.
  - exists (S fuel0). intros [|fuel] s <- Hfuel; [lia|]. simpl.
    unfold bind, the, ret, deref. rewrite Hr, Hd. apply IH; [done|lia].
Qed.

Lemma commitWork_unfold (fuel : nat) (r : ref) :
  commitWork (S fuel) (Some r)
  = (f <- deref r ;;
     domParent <- domParentOf (S fuel) (Fiber.parent f) ;;
     commitEffect (S fuel) r f domParent ;;;
     commitWork fuel (Fiber.child f) ;;;
     commitWork fuel (Fiber.sibling f)).
Proof. done. Qed.

(** X4. [commitWork] attaches a fiber's new host node to the host node of
    the nearest ancestor that has one, passing over the ancestors without
    a node (the function components): for a PLACEMENT fiber with a host
    node and with neither child nor sibling, given enough turns, the commit
    of the fiber is the one operation [appendChild] on that ancestor's node.
    When no ancestor up to the root has a host node, [commitWork] throws a
    TypeError on the missing parent and has asked nothing of the host. *)
Theorem commitWork_appends_under_host_ancestor
    (s : state) (r : ref) (f : Fiber.t) (d : node) :
  heap s !! r = Some f ->
  Fiber.effectTag f = Some PLACEMENT ->
  Fiber.dom f = Some d ->
  Fiber.child f = None ->
  Fiber.sibling f = None ->
  (forall domParent, host_ancestor (heap s) (Fiber.parent f) domParent ->
     exists fuel0, forall fuel, fuel0 <= fuel ->
       commitWork fuel (Some r) s
       = Ok tt (set_log (log s ++ [Dom (AppendChild domParent d)]) s))
  /\ (no_host_ancestor (heap s) (Fiber.parent f) ->
      exists fuel0, forall fuel, fuel0 <= fuel ->
        commitWork fuel (Some r) s = Throw TypeError s).
Proof.
  intros Hr Htag Hd Hc Hsb. split.
  - intros domParent H. destruct (domParentOf_found _ _ _ H) as [fuel0 H0].
    exists (S fuel0). intros [|fuel] Hfuel; [lia|].
    rewrite commitWork_unfold. unfold bind at 1, deref at 1. rewrite Hr.
    unfold bind at 1. rewrite (H0 (S fuel) s eq_refl) by lia.
    unfold commitEffect. rewrite Htag, Hd, Hc, Hsb.
    unfold bind, emit, modify. by destruct fuel.
  - intros H. destruct (domParentOf_not_found _ _ H) as [fuel0 H0].
    exists (S fuel0). intros [|fuel] Hfuel; [lia|].
    rewrite commitWork_unfold. unfold bind at 1, deref at 1. rewrite Hr.
    unfold bind at 1. by rewrite (H0 (S fuel) s eq_refl) by lia.
Qed.

Lemma commitWork_appends_under_host_ancestor_witness :
  (forall domParent,
     host_ancestor (heap nested_example) (Some 1) domParent ->
     exists fuel0, forall fuel, fuel0 <= fuel ->
       commitWork fuel (Some 2) nested_example
       = Ok tt (set_log (log nested_example
                         ++ [Dom (AppendChild domParent (Created 0))])
                        nested_example))
  /\ (no_host_ancestor (heap nested_example) (Some 1) ->
      exists fuel0, forall fuel, fuel0 <= fuel ->
        commitWork fuel (Some 2) nested_example = Throw TypeError nested_example).
Proof.
  apply (commitWork_appends_under_host_ancestor nested_example 2
           (Fiber.mk (Some (Host "p")) (Props [] (Some [])) (Some (Created 0))
                     (Some 1) None None None (Some PLACEMENT) None None None)
           (Created 0));
    reflexivity.
Defined.

(** X5. The commit of fibers writes to no fiber and to no module variable
    and calls no callback: whatever [commitWork] and [commitDeletion] do,
    and however they end, the state they leave differs from the one they
    found by host operations appended to the log. *)
Theorem commitWork_only_asks_the_host
    (fuel : nat) (fiber : option ref) (domParent : node) (s : state) :
  (exists ops, final (commitWork fuel fiber s) = set_log (log s ++ map Dom ops) s)
  /\ (exists ops, final (commitDeletion fuel fiber domParent s)
                  = set_log (log s ++ map Dom ops) s).
Proof.
  split; [apply commitWork_dom_only|apply commitDeletion_dom_only].
Qed.

(** ** Relations between the state before and the state after *)

Section Relates.
Context (R : state -> state -> Prop) `{!Reflexive R, !Transitive R}.

Lemma relates_silent {A} (m : M A) : (forall s, final (m s) = s) -> relates R m.
Proof. intros H s. by rewrite H. Qed.

Lemma relates_ret {A} (a : A) : relates R (ret a).
Proof. by apply relates_silent. Qed.

Lemma relates_throw {A} (e : error) : relates R (@throw A e).
Proof. by apply relates_silent. Qed.

Lemma relates_gets {A} (f : state -> A) : relates R (gets f).
Proof. by apply relates_silent. Qed.

Lemma relates_the {A} (o : option A) : relates R (the o).
Proof. apply relates_silent. by destruct o. Qed.

Lemma relates_deref (r : ref) : relates R (deref r).
Proof. apply relates_silent. intros s. unfold deref. by destruct (heap s !! r). Qed.

Lemma relates_bind {A B} (m : M A) (k : A -> M B) :
  relates R m -> (forall a, relates R (k a)) -> relates R (bind m k).
Proof.
  intros Hm Hk s. rewrite final_bind. specialize (Hm s).
  destruct (m s) as [a s1|e s1]; simpl in Hm; [|done].
  by etrans; [exact Hm|apply Hk].
Qed.

Lemma relates_forEach {A} (l : list A) (f : A -> M unit) :
  (forall x, relates R (f x)) -> relates R (forEach l f).
Proof.
  intros Hf. induction l as [|x l IH]; simpl.
  - apply relates_ret.
  - apply relates_bind; [apply Hf|intros _; apply IH].
Qed.

Lemma relates_modify (f : state -> state) :
  (forall s, R s (f s)) -> relates R (modify f).
Proof. intros Hf s. apply Hf. Qed.

Lemma relates_update (r : ref) (g : Fiber.t -> Fiber.t) :
  (forall s f, heap s !! r = Some f -> R s (set_heap (<[r := g f]> (heap s)) s)) ->
  relates R (update r g).
Proof.
  intros H s. unfold update, bind, deref, modify.
  destruct (heap s !! r) as [f|] eqn:E; simpl; [by apply H|done].
Qed.

Lemma relates_alloc (f : Fiber.t) :
  (forall s r, heap s !! r = None -> R s (set_heap (<[r := f]> (heap s)) s)) ->
  relates R (alloc f).
Proof. intros H s. unfold alloc. simpl. apply H, not_elem_of_dom, is_fresh. Qed.

End Relates.

(** One step of the structure-directed proof of [relates R m]. *)
Ltac relates_step :=
  lazymatch goal with
  | |- Reflexive _ => apply _
  | |- Transitive _ => apply _
  | |- relates _ (ret _) => apply relates_ret
  | |- relates _ (throw _) => apply relates_throw
  | |- relates _ (gets _) => apply relates_gets
  | |- relates _ (the _) => apply relates_the
  | |- relates _ (deref _) => apply relates_deref
  | |- relates _ (bind _ _) => apply relates_bind; [..|intros ?]
  | |- relates _ (forEach _ _) => apply relates_forEach; [..|intros ?]
  | |- relates _ (match ?x with _ => _ end) => destruct x
  | |- relates _ (let _ := _ in _) => cbv zeta
  | |- _ => fail
  end.

(** ** What [reconcileChildren] leaves alone *)

#[local] Instance links_only_refl : Reflexive links_only.
Proof.
  intros s. repeat split.
  - exists []. destruct (deletions s); simpl; by rewrite ?app_nil_r.
  - intros r f Hr. exists f. auto.
Qed.

#[local] Instance links_only_trans : Transitive links_only.
Proof.
  intros s1 s2 s3 (A1 & A2 & A3 & A4 & A5 & A6 & A7 & [dl1 A8] & A9)
    (B1 & B2 & B3 & B4 & B5 & B6 & B7 & [dl2 B8] & B9).
  repeat split; try congruence.
  - exists (dl1 ++ dl2). rewrite B8, A8. destruct (deletions s1); simpl; [|done].
    by rewrite app_assoc.
  - intros r f Hr. destruct (A9 r f Hr) as (f' & Hr' & E' & T').
    destruct (B9 r f' Hr') as (f'' & Hr'' & E'' & T''). exists f''.
    split; [done|]. split; [congruence|].
    destruct T'' as [T''|T'']; [|by right]. rewrite T''. exact T'.
Qed.

#[local] Instance fibers_keep_refl {X} (part : Fiber.t -> X) : Reflexive (fibers_keep part).
Proof. intros s r f Hr. by exists f. Qed.

#[local] Instance fibers_keep_trans {X} (part : Fiber.t -> X) :
  Transitive (fibers_keep part).
Proof.
  intros s1 s2 s3 A B r f Hr. destruct (A r f Hr) as (f' & Hr' & E').
  destruct (B r f' Hr') as (f'' & Hr'' & E''). exists f''. split; congruence.
Qed.

Lemma links_only_heap (s : state) (h : gmap ref Fiber.t) :
  (forall r f, heap s !! r = Some f ->
     exists f', h !! r = Some f'
                /\ beyond_links f' = beyond_links f
                /\ (Fiber.effectTag f' = Fiber.effectTag f
                    \/ Fiber.effectTag f' = Some DELETION)) ->
  links_only s (set_heap h s).
Proof.
  intros H. repeat split; try done.
  exists []. simpl. destruct (deletions s); simpl; by rewrite ?app_nil_r.
Qed.

Lemma links_only_update (r : ref) (g : Fiber.t -> Fiber.t) :
  (forall f, beyond_links (g f) = beyond_links f
             /\ (Fiber.effectTag (g f) = Fiber.effectTag f
                 \/ Fiber.effectTag (g f) = Some DELETION)) ->
  relates links_only (update r g).
Proof.
  intros Hg. apply relates_update; [apply _|]. intros s f Hf.
  apply links_only_heap. intros r0 f0 Hr0.
  destruct (decide (r = r0)) as [->|Hne].
  - rewrite lookup_insert_eq. exists (g f). split; [done|].
    assert (f0 = f) by congruence. subst. apply Hg.
  - rewrite lookup_insert_ne by done. exists f0. auto.
Qed.

Lemma links_only_alloc (f : Fiber.t) : relates links_only (alloc f).
Proof.
  apply relates_alloc. intros s r Hr. apply links_only_heap. intros r0 f0 Hr0.
  rewrite lookup_insert_ne by congruence. exists f0. auto.
Qed.

(** Lines 412-413, the push on [deletions]. *)
Lemma links_only_push_deletion (o : ref) :
  relates links_only
    (ds <- gets deletions ;; ds <- the ds ;;
     modify (set_deletions (Some (ds ++ [o])))).
Proof.
  intros s. unfold bind, gets, the, ret, throw, modify.
  destruct (deletions s) as [ds|] eqn:E; simpl; [|reflexivity].
  repeat split; try done.
  - exists [o]. simpl. by rewrite E.
  - intros r f Hr. exists f. auto.
Qed.

Ltac links_only_leaf :=
  first [ apply links_only_push_deletion
        | apply links_only_alloc
        | apply links_only_update; intros []; cbn; auto ].

Lemma reconcile_position_links_only (wipFiber : ref) (elements : list element)
    (index : nat) (oldFiber prevSibling : option ref) :
  relates links_only (reconcile_position wipFiber elements index oldFiber prevSibling).
Proof.
  unfold reconcile_position.
  repeat first [ apply links_only_push_deletion | relates_step ];
    links_only_leaf.
Qed.

Lemma reconcile_loop_links_only (fuel : nat) (wipFiber : ref) (elements : list element) :
  forall index oldFiber prevSibling,
    relates links_only (reconcile_loop fuel wipFiber elements index oldFiber prevSibling).
Proof.
  induction fuel as [|fuel IH]; intros index oldFiber prevSibling; simpl.
  - destruct (_ || _); [apply relates_throw|apply relates_ret]; apply _.
  - destruct (_ || _); [|apply relates_ret; apply _].
    apply relates_bind; [apply _|apply reconcile_position_links_only|].
    intros next. apply IH.
Qed.

Lemma reconcileChildren_links_only
    (fuel : nat) (wipFiber : ref) (elements : list element) :
  relates links_only (reconcileChildren fuel wipFiber elements).
Proof.
  unfold reconcileChildren. repeat relates_step; apply reconcile_loop_links_only.
Qed.

(** X6. Whatever [reconcileChildren] is given and however it ends, it asks
    nothing of the host, calls no hook and leaves every module variable but
    [deletions] as it was; [deletions] is at most extended at its end; and
    of the fibers that existed before the call it changes only the [child]
    and [sibling] links and the tag, the tag only to DELETION: type, props,
    host node, parent, alternate and the hook lists of every fiber stay. *)
Theorem reconcileChildren_writes_links_only
    (fuel : nat) (wipFiber : ref) (elements : list element) :
  relates links_only (reconcileChildren fuel wipFiber elements).
Proof. apply reconcileChildren_links_only. Qed.

(** ** The children [reconcileChildren] builds *)

Lemma head_drop {A} (l : list A) (i : nat) : head (drop i l) = l !! i.
Proof. by rewrite head_lookup, lookup_drop, Nat.add_0_r. Qed.

Lemma tail_drop {A} (l : list A) (i : nat) : tail (drop i l) = drop (S i) l.
Proof.
  revert i. induction l as [|x l IH]; intros [|i]; simpl; try done.
Qed.

(** The last statement of a turn writes the link to the new fiber. *)
Lemma reconcile_position_links (wipFiber : ref) (elements : list element)
    (index : nat) (oldFiber prevSibling : option ref) (s s' : state)
    (oldFiber' newFiber : option ref) :
  reconcile_position wipFiber elements index oldFiber prevSibling s
    = Ok (oldFiber', newFiber) s' ->
  match index with
  | O => exists w', heap s' !! wipFiber = Some w' /\ Fiber.child w' = newFiber
  | S _ => is_Some (elements !! index) ->
           exists p fp, prevSibling = Some p /\ heap s' !! p = Some fp
                        /\ Fiber.sibling fp = newFiber
  end.
Proof.
  unfold reconcile_position. intros H.
  do 5 (apply bind_Ok_inv in H as (? & ? & _ & H)).
  apply bind_Ok_inv in H as ([] & s5 & Hu & H). injection H as <- <- <-.
  destruct index as [|index].
  - unfold update, bind, deref, modify in Hu.
    destruct (heap _ !! wipFiber) as [w|] eqn:E; [|done]. injection Hu as <-.
    eexists. simpl. by rewrite lookup_insert_eq.
  - intros [e He]. rewrite He in Hu. destruct prevSibling as [p|]; [|done].
    unfold update, bind, the, ret, deref, modify in Hu.
    destruct (heap _ !! p) as [fp|] eqn:E; [|done]. injection Hu as <-.
    eexists p, _. simpl. by rewrite lookup_insert_eq.
Qed.

Lemma fibers_keep_update {X} (part : Fiber.t -> X) (r : ref) (g : Fiber.t -> Fiber.t) :
  (forall f, part (g f) = part f) -> relates (fibers_keep part) (update r g).
Proof.
  intros Hg. apply relates_update; [apply _|]. intros s f Hf r0 f0 Hr0. simpl.
  destruct (decide (r = r0)) as [->|Hne].
  - rewrite lookup_insert_eq. exists (g f). split; [done|].
    assert (f0 = f) by congruence. subst. apply Hg.
  - rewrite lookup_insert_ne by done. by exists f0.
Qed.

Lemma fibers_keep_alloc {X} (part : Fiber.t -> X) (f : Fiber.t) :
  relates (fibers_keep part) (alloc f).
Proof.
  apply relates_alloc. intros s r Hr r0 f0 Hr0. simpl.
  rewrite lookup_insert_ne by congruence. by exists f0.
Qed.

Lemma fibers_keep_modify {X} (part : Fiber.t -> X) (g : state -> state) :
  (forall s, heap (g s) = heap s) -> relates (fibers_keep part) (modify g).
Proof. intros Hg. apply relates_modify. intros s r f Hr. rewrite Hg. by exists f. Qed.

Ltac fibers_keep_leaf :=
  first [ apply fibers_keep_alloc
        | apply fibers_keep_update; intros []; reflexivity
        | apply fibers_keep_modify; intros []; reflexivity ].

(** After the first turn the loop writes no [child] link. *)
Lemma reconcile_position_keeps_child (wipFiber : ref) (elements : list element)
    (index : nat) (oldFiber prevSibling : option ref) :
  relates (fibers_keep Fiber.child)
    (reconcile_position wipFiber elements (S index) oldFiber prevSibling).
Proof. unfold reconcile_position. repeat relates_step; fibers_keep_leaf. Qed.

(** Without an old fiber a turn leaves [deletions] alone. *)
Lemma reconcile_position_no_old (wipFiber : ref) (elements : list element)
    (index : nat) (prevSibling : option ref) (s : state) :
  deletions (final (reconcile_position wipFiber elements index None prevSibling s))
  = deletions s.
Proof.
  set (R := fun s s' : state => deletions s' = deletions s).
  assert (HR : Reflexive R) by done.
  assert (HT : Transitive R) by (intros s1 s2 s3; unfold R; congruence).
  assert (H : relates R (reconcile_position wipFiber elements index None prevSibling)).
  { unfold reconcile_position. cbn.
    repeat relates_step;
      first [ by apply relates_alloc | by apply relates_update ]. }
  apply H.
Qed.

(** A turn, for the loop: what it returns and what it leaves. *)
Lemma turn_summary (wipFiber : ref) (elements : list element) (index : nat)
    (oldFiber prevSibling : option ref) (olds : list ref) (s : state) (ds : list ref) :
  loop_inv wipFiber elements index oldFiber prevSibling olds s ->
  deletions s = Some ds ->
  exists s1 oldFiber' newFiber,
    reconcile_position wipFiber elements index oldFiber prevSibling s
      = Ok (oldFiber', newFiber) s1
    /\ loop_inv wipFiber elements (S index) oldFiber' newFiber (tail olds) s1
    /\ deletions s1 = Some (ds ++ unmatched (heap s) (take 1 olds) (drop index elements))
    /\ (forall o, o ∈ unmatched (heap s) (take 1 olds) (drop index elements) ->
          exists fo', heap s1 !! o = Some fo' /\ Fiber.effectTag fo' = Some DELETION)
    /\ match elements !! index with
       | Some e =>
           exists n, newFiber = Some n /\ heap s !! n = None
                     /\ heap s1 !! n = Some (fiber_for (heap s) wipFiber (head olds) e)
       | None => newFiber = None
       end
    /\ loop_frame olds elements index prevSibling (heap s) (heap s1).
Proof.
  intros Hinv Hds.
  destruct (turn_keeps_inv _ _ _ _ _ _ _ Hinv)
    as (s1 & oldFiber' & newFiber & ds0 & dl0 & Hrun & Hinv1 & _).
  destruct Hinv as (Hc & [w Hw] & _ & Hprev).
  assert (Hold : forall o, oldFiber = Some o -> is_Some (heap s !! o)).
  { intros o ->. inversion Hc; subst. by eexists. }
  assert (Hprev0 : index <> 0 -> is_Some (elements !! index) ->
            exists p, prevSibling = Some p /\ is_Some (heap s !! p)).
  { intros H0 He. apply lookup_lt_is_Some in He.
    destruct (Hprev H0 He) as (p & -> & Hp & _). by exists p. }
  destruct (reconcile_position_turn wipFiber elements index oldFiber prevSibling
              s w ds Hw Hds Hold Hprev0)
    as (s1' & o1 & n1 & Hrun' & Hsame & Hplace & Hdel & _ & Hnone & _ & _ & Hfr).
  rewrite Hrun in Hrun'. injection Hrun' as <- <- <-.
  exists s1, oldFiber', newFiber. split; [done|]. split; [done|].
  assert (Hframe : loop_frame olds elements index prevSibling (heap s) (heap s1)).
  { intros r f Hr.
    destruct (Hfr r f Hr) as (f1 & Hr1 & _ & _ & _ & Hdel1 & Htag1 & Hsb1).
    pose proof (reconcile_position_links_only wipFiber elements index oldFiber
                  prevSibling s) as Hlo.
    rewrite Hrun in Hlo. simpl in Hlo.
    destruct Hlo as (_ & _ & _ & _ & _ & _ & _ & _ & Hlo).
    destruct (Hlo r f Hr) as (f1' & Hr1' & Hbl & _).
    assert (f1' = f1) by congruence. subst f1'.
    exists f1. split; [done|]. split; [done|]. split; [|split; [done|split]].
    + intros Hn. apply Htag1. intros <-. inversion Hc; subst. apply Hn. by left.
    + intros H0. destruct index as [|index]; [done|].
      pose proof (reconcile_position_keeps_child wipFiber elements index oldFiber
                    prevSibling s) as Hk.
      rewrite Hrun in Hk. simpl in Hk. destruct (Hk r f Hr) as (f1' & Hr1'' & Hch).
      congruence.
    + intros Hcond. apply Hsb1. destruct Hcond as [?|[?|?]]; [by left|by right; left|].
      right; right. by apply lookup_ge_None. }
  inversion Hc as [|o fo olds' Ho Hc']; subst; simpl.
  - (* no old fiber *)
    pose proof (reconcile_position_no_old wipFiber elements index prevSibling s) as Hd.
    rewrite Hrun in Hd. simpl in Hd. rewrite Hd, Hds, app_nil_r.
    split; [done|]. split; [by intros o Ho%elem_of_nil|]. split; [|done].
    destruct (elements !! index) as [e|] eqn:He; [|by apply Hnone].
    destruct (Hplace e eq_refl (or_introl eq_refl)) as (n & -> & Hn & Hn').
    by exists n.
  - (* an old fiber *)
    rewrite head_drop. unfold kept. rewrite Ho, app_nil_r.
    destruct (elements !! index) as [e|] eqn:He.
    + unfold same_type. case_bool_decide as Hty.
      * destruct (Hsame o fo e eq_refl Ho eq_refl Hty) as (n & -> & Hn & Hn' & Hd).
        rewrite Hd, Hds, app_nil_r. split; [done|].
        split; [by intros o' Ho'%elem_of_nil|]. split; [|done].
        by exists n.
      * destruct (Hdel o fo eq_refl Ho) as (Htag & Hd & _).
        { right. by exists e. }
        split; [done|]. split; [by intros o' ->%list_elem_of_singleton|].
        split; [|done].
        destruct (Hplace e eq_refl) as (n & -> & Hn & Hn').
        { right. by exists o, fo. }
        by exists n.
    + destruct (Hdel o fo eq_refl Ho (or_introl eq_refl)) as (Htag & Hd & _).
      split; [done|]. split; [by intros o' ->%list_elem_of_singleton|].
      split; [|done]. by apply Hnone.
Qed.

Lemma fiber_for_frame (h h' : gmap ref Fiber.t) (wipFiber : ref) (old : option ref)
    (e : element) :
  (forall o, old = Some o ->
     exists fo fo', h !! o = Some fo /\ h' !! o = Some fo'
                    /\ beyond_links fo' = beyond_links fo) ->
  fiber_for h' wipFiber old e = fiber_for h wipFiber old e.
Proof.
  intros H. destruct old as [o|]; [|done]. simpl.
  destruct (H o eq_refl) as (fo & fo' & Hfo & Hfo' & E). rewrite Hfo, Hfo'.
  assert (Et : Fiber.type fo' = Fiber.type fo) by (by injection E).
  assert (Ed : Fiber.dom fo' = Fiber.dom fo) by (by injection E).
  unfold same_type, update_fiber. by rewrite Et, Ed.
Qed.

Lemma unmatched_frame (h h' : gmap ref Fiber.t) (olds : list ref) :
  (forall o, o ∈ olds ->
     exists fo fo', h !! o = Some fo /\ h' !! o = Some fo'
                    /\ beyond_links fo' = beyond_links fo) ->
  forall els, unmatched h' olds els = unmatched h olds els.
Proof.
  induction olds as [|o olds IH]; intros H els; simpl; [done|].
  rewrite IH by (intros o' Ho'; apply H; by right).
  destruct (H o ltac:(left)) as (fo & fo' & Hfo & Hfo' & E).
  unfold kept. rewrite Hfo, Hfo'.
  assert (Et : Fiber.type fo' = Fiber.type fo) by (by injection E).
  unfold same_type. by rewrite Et.
Qed.

Lemma up_to_sibling (f f' : Fiber.t) :
  beyond_links f' = beyond_links f ->
  Fiber.effectTag f' = Fiber.effectTag f ->
  Fiber.child f' = Fiber.child f ->
  Fiber.set_sibling None f' = Fiber.set_sibling None f.
Proof. destruct f, f'. unfold beyond_links. cbn. intros [=] ? ?. by subst. Qed.

Lemma fiber_for_sibling (h : gmap ref Fiber.t) (wipFiber : ref) (old : option ref)
    (e : element) :
  Fiber.sibling (fiber_for h wipFiber old e) = None
  /\ Fiber.set_sibling None (fiber_for h wipFiber old e) = fiber_for h wipFiber old e.
Proof.
  unfold fiber_for. destruct old as [o|]; [|done].
  destruct (h !! o) as [fo|]; [|done]. by destruct (same_type fo e).
Qed.

Lemma loop_result_none (wipFiber : ref) (elements : list element) (index : nat)
    (prevSibling : option ref) (s : state) :
  length elements <= index ->
  loop_result wipFiber elements index prevSibling [] s s [].
Proof.
  intros Hlen. unfold loop_result. split_and!.
  - simpl. lia.
  - by intros n Hn%elem_of_nil.
  - intros ds ->. simpl. by rewrite app_nil_r.
  - by intros o Ho%elem_of_nil.
  - constructor.
  - by intros j n e Hj.
  - intros ->. simpl. lia.
  - intros p _ Hlt. lia.
  - intros r f Hr. exists f. by split_and!.
Qed.

Lemma loop_over (wipFiber : ref) (elements : list element) (index : nat)
    (oldFiber prevSibling : option ref) (olds : list ref) (s : state) :
  loop_inv wipFiber elements index oldFiber prevSibling olds s ->
  bool_decide (index < length elements) || bool_decide (is_Some oldFiber) = false ->
  length elements <= index /\ olds = [].
Proof.
  intros Hinv Hcond.
  assert (H0 : ~ 0 < max (length elements - index) (length olds)).
  { rewrite <- (loop_condition _ _ _ _ _ _ _ Hinv). congruence. }
  split; [lia|]. destruct olds; [done|simpl in *; lia].
Qed.

(** The loop, in full. *)
Lemma reconcile_loop_children (wipFiber : ref) (elements : list element) (fuel : nat) :
  forall index oldFiber prevSibling olds s ds,
    loop_inv wipFiber elements index oldFiber prevSibling olds s ->
    deletions s = Some ds ->
    max (length elements - index) (length olds) <= fuel ->
    exists s' news,
      reconcile_loop fuel wipFiber elements index oldFiber prevSibling s = Ok tt s'
      /\ loop_result wipFiber elements index prevSibling olds s s' news.
Proof.
  induction fuel as [|fuel IH];
    intros index oldFiber prevSibling olds s ds Hinv Hds Hfuel.
  { simpl. destruct (_ || _) eqn:Hcond.
    - apply (loop_condition _ _ _ _ _ _ _ Hinv) in Hcond. lia.
    - destruct (loop_over _ _ _ _ _ _ _ Hinv Hcond) as [Hlen ->].
      exists s, []. split; [done|]. by apply loop_result_none. }
  simpl. destruct (_ || _) eqn:Hcond.
  2:{ destruct (loop_over _ _ _ _ _ _ _ Hinv Hcond) as [Hlen ->].
      exists s, []. split; [done|]. by apply loop_result_none. }
  destruct (turn_summary _ _ _ _ _ _ _ _ Hinv Hds)
    as (s1 & oldFiber' & newFiber & Hrun & Hinv1 & Hds1 & Htag1 & Hnew & Hfr).
  pose proof (reconcile_position_links _ _ _ _ _ _ _ _ _ Hrun) as Hlink.
  destruct (IH (S index) oldFiber' newFiber (tail olds) s1 _ Hinv1 Hds1)
    as (s' & news1 & Hloop & Hres1); [destruct olds; simpl in *; lia|].
  destruct Hres1 as (Hlen1 & Hfresh1 & Hds' & Htag' & Hchain1 & Hrec1 & _ & Hlink1 & Hfr1).
  specialize (Hds' _ Hds1).
  assert (Htail : forall o, o ∈ tail olds -> o ∈ olds).
  { intros o Ho. destruct olds; [done|by right]. }
  assert (Holds : forall o, o ∈ olds ->
            exists fo fo1, heap s !! o = Some fo /\ heap s1 !! o = Some fo1
                           /\ beyond_links fo1 = beyond_links fo).
  { intros o Ho.
    destruct (sibling_chain_in_heap _ _ _ o (proj1 Hinv) Ho) as [fo Hfo].
    destruct (Hfr o fo Hfo) as (fo1 & Hfo1 & Hbl & _). by exists fo, fo1. }
  assert (Hun : unmatched (heap s1) (tail olds) (drop (S index) elements)
                = unmatched (heap s) (tail olds) (tail (drop index elements))).
  { rewrite tail_drop. apply unmatched_frame. intros o Ho. by apply Holds, Htail. }
  assert (Hsplit : unmatched (heap s) olds (drop index elements)
                   = unmatched (heap s) (take 1 olds) (drop index elements)
                     ++ unmatched (heap s) (tail olds) (tail (drop index elements))).
  { destruct olds as [|o olds']; [done|]. simpl. by rewrite app_nil_r. }
  rewrite Hun in Hds', Htag'.
  assert (Hnew_fresh : forall r f, heap s !! r = Some f -> Some r <> newFiber).
  { intros r f Hr E. destruct (elements !! index); [|congruence].
    destruct Hnew as (n & Hn & Hnone & _). congruence. }
  assert (Hframe : loop_frame olds elements index prevSibling (heap s) (heap s')).
  { intros r f Hr. destruct (Hfr r f Hr) as (f1 & Hr1 & B1 & T1 & D1 & C1 & S1).
    destruct (Hfr1 r f1 Hr1) as (f' & Hr' & B2 & T2 & D2 & C2 & S2).
    exists f'. split; [done|]. split; [congruence|]. split; [|split; [|split]].
    - intros Hn. rewrite T2, T1; [done..|]. intros Hin. by apply Hn, Htail.
    - intros Hd. by apply D2, D1.
    - intros H0. by rewrite C2, C1.
    - intros Hc. rewrite S2, S1; [done..|]. left. by eapply Hnew_fresh. }
  assert (Hfresh : forall n, n ∈ news1 -> heap s !! n = None).
  { intros m Hm. specialize (Hfresh1 m Hm).
    destruct (heap s !! m) as [f|] eqn:E; [|done].
    destruct (Hfr m f E) as (f1 & Hf1 & _). congruence. }
  assert (Hdels : deletions s'
                  = Some (ds ++ unmatched (heap s) olds (drop index elements))).
  { by rewrite Hds', Hsplit, app_assoc. }
  assert (Htags : forall o, o ∈ unmatched (heap s) olds (drop index elements) ->
            exists fo', heap s' !! o = Some fo'
                        /\ Fiber.effectTag fo' = Some DELETION).
  { intros o. rewrite Hsplit. intros [Ho|Ho]%elem_of_app; [|by apply Htag'].
    destruct (Htag1 o Ho) as (fo1 & Hfo1 & Ht1).
    destruct (Hfr1 o fo1 Hfo1) as (fo' & Hfo' & _ & _ & D & _).
    exists fo'. split; [done|]. by apply D. }
  assert (Hrecs : forall j n e, news1 !! j = Some n ->
            elements !! (index + S j) = Some e ->
            exists fn, heap s' !! n = Some fn
                       /\ Fiber.set_sibling None fn
                          = fiber_for (heap s) wipFiber (olds !! S j) e).
  { intros j n e Hj He. rewrite Nat.add_succ_r in He.
    destruct (Hrec1 j n e Hj He) as (fn & Hfn & E). exists fn. split; [done|].
    rewrite E, lookup_tail. apply fiber_for_frame.
    intros o Ho. apply Holds. by eapply list_elem_of_lookup_2. }
  destruct (elements !! index) as [e|] eqn:He.
  - (* an element: a new fiber at the head of the rest *)
    destruct Hnew as (n & -> & Hn & Hn1).
    assert (Hlt : index < length elements) by (by eapply lookup_lt_Some).
    destruct (Hfr1 n _ Hn1) as (fn' & Hn' & Bn & Tn & _ & Cn & Sn).
    assert (Hn_old : n ∉ tail olds).
    { intros Hin. destruct (Holds n (Htail n Hin)) as (fo & _ & Hfo & _). congruence. }
    destruct (fiber_for_sibling (heap s) wipFiber (head olds) e) as [Hsb Hset].
    exists s', (n :: news1). split; [unfold bind; by rewrite Hrun|].
    unfold loop_result. split_and!; try done.
    + simpl. rewrite Hlen1. lia.
    + intros m [->|Hm]%elem_of_cons; [done|by apply Hfresh].
    + intros ds0 Hds0. by assert (ds0 = ds) as -> by congruence.
    + simpl. econstructor; [exact Hn'|].
      destruct (decide (S index < length elements)) as [Hlt'|Hge].
      * destruct (Hlink1 n ltac:(done) Hlt' eq_refl) as (fp' & Hfp' & Hs').
        assert (fp' = fn') by congruence. subst. by rewrite Hs'.
      * rewrite Sn, Hsb by (right; right; lia).
        destruct news1; [constructor|simpl in *; lia].
    + intros [|j] m e' Hj He'.
      * injection Hj as <-. rewrite Nat.add_0_r, He in He'. injection He' as <-.
        exists fn'. split; [done|]. rewrite <- head_lookup, <- Hset.
        apply up_to_sibling; auto.
      * by apply Hrecs.
    + intros -> _. destruct Hlink as (w1 & Hw1 & Hc1).
      destruct (Hfr1 wipFiber w1 Hw1) as (w' & Hw' & _ & _ & _ & C & _).
      exists w'. split; [done|]. rewrite C by done. done.
    + intros p H0 _ ->. destruct index as [|index]; [done|].
      destruct (Hlink ltac:(by eexists)) as (p' & fp & [= <-] & Hp & Hs).
      destruct (Hfr1 p fp Hp) as (fp' & Hp' & _ & _ & _ & _ & S').
      exists fp'. split; [done|]. rewrite S'; [done|]. left. intros [= ->].
      destruct (proj2 (proj2 (proj2 Hinv)) ltac:(done) Hlt)
        as (p' & [= <-] & [fp0 Hfp0] & _).
      congruence.
  - (* no element left: only old fibers to delete *)
    subst newFiber.
    assert (Hge : length elements <= index) by (by apply lookup_ge_None).
    assert (news1 = []) as -> by (destruct news1; [done|simpl in *; lia]).
    exists s', []. split; [unfold bind; by rewrite Hrun|].
    unfold loop_result. split_and!; try done.
    + simpl. lia.
    + intros ds0 Hds0. by assert (ds0 = ds) as -> by congruence.
    + intros -> _. destruct Hlink as (w1 & Hw1 & Hc1).
      destruct (Hfr1 wipFiber w1 Hw1) as (w' & Hw' & _ & _ & _ & C & _).
      exists w'. split; [done|]. rewrite C by done. done.
    + intros p _ Hlt. lia.
Qed.

Lemma reconcile_loop_nothing (fuel : nat) (wipFiber : ref) (prevSibling : option ref)
    (s : state) :
  reconcile_loop fuel wipFiber [] 0 None prevSibling s = Ok tt s.
Proof.
  destruct fuel; simpl; repeat case_bool_decide; simpl in *; try done; try lia.
  all: match goal with H : is_Some None |- _ => by destruct H end.
Qed.

Lemma reconcileChildren_children
    (fuel : nat) (wipFiber : ref) (elements : list element) (s : state)
    (w : Fiber.t) (olds : list ref) (ds : list ref) :
  heap s !! wipFiber = Some w ->
  old_children (heap s) w olds ->
  deletions s = Some ds ->
  max (length elements) (length olds) <= fuel ->
  exists s' news,
    reconcileChildren fuel wipFiber elements s = Ok tt s'
    /\ loop_result wipFiber elements 0 None olds s s' news.
Proof.
  intros Hw Hold Hds Hfuel. unfold reconcileChildren, bind at 1, deref at 1.
  rewrite Hw. unfold old_children in Hold.
  assert (Hloop : forall oldFiber, sibling_chain (heap s) oldFiber olds ->
            exists s' news,
              reconcile_loop fuel wipFiber elements 0 oldFiber None s = Ok tt s'
              /\ loop_result wipFiber elements 0 None olds s s' news).
  { intros oldFiber Hc.
    apply (reconcile_loop_children wipFiber elements fuel 0 oldFiber None olds s ds);
      [|done|lia].
    split; [done|]. split; [by eexists|]. split; [by eexists|done]. }
  destruct (Fiber.alternate w) as [a|].
  - destruct Hold as (fa & Hfa & Hc). unfold bind, deref, ret. rewrite Hfa.
    by apply Hloop.
  - subst olds. unfold bind, ret. apply Hloop. constructor.
Qed.

(** X7. The children [reconcileChildren] builds.  For a fiber whose previous
    version has the children [olds] (none when it has no previous version)
    and for the new elements [elements], given as many turns as the longer
    of the two, [reconcileChildren] returns and has made one new fiber per
    element, in order: the fiber's [child] link leads to the first, each
    one's [sibling] link to the next, and the last has no sibling.  The
    fiber of an element that meets an old fiber of its own type is the
    UPDATE record with the old fiber's type and host node and the old fiber
    as [alternate]; the fiber of any other element is the PLACEMENT record
    without host node; both have the element's props and the fiber as
    parent.  The old fibers that meet an element of another type or none
    are appended to [deletions], in order, and are tagged DELETION; no
    other fiber is appended.  With no element and no old child the call
    changes nothing (the [child] link included). *)
Theorem reconcileChildren_builds_children
    (fuel : nat) (wipFiber : ref) (elements : list element) (s : state)
    (w : Fiber.t) (olds : list ref) (ds : list ref) :
  heap s !! wipFiber = Some w ->
  old_children (heap s) w olds ->
  deletions s = Some ds ->
  max (length elements) (length olds) <= fuel ->
  exists s' news,
    reconcileChildren fuel wipFiber elements s = Ok tt s'
    /\ length news = length elements
    /\ (forall n, n ∈ news -> heap s !! n = None)
    /\ (0 < max (length elements) (length olds) ->
        exists w', heap s' !! wipFiber = Some w' /\ Fiber.child w' = head news)
    /\ sibling_chain (heap s') (head news) news
    /\ (forall i n e, news !! i = Some n -> elements !! i = Some e ->
          exists fn, heap s' !! n = Some fn
                     /\ Fiber.set_sibling None fn
                        = fiber_for (heap s) wipFiber (olds !! i) e)
    /\ deletions s' = Some (ds ++ unmatched (heap s) olds elements)
    /\ (forall o, o ∈ unmatched (heap s) olds elements ->
          exists fo', heap s' !! o = Some fo' /\ Fiber.effectTag fo' = Some DELETION)
    /\ (elements = [] -> olds = [] -> s' = s).
Proof.
  intros Hw Hold Hds Hfuel.
  destruct (reconcileChildren_children fuel wipFiber elements s w olds ds
              Hw Hold Hds Hfuel)
    as (s' & news & Hrun & Hlen & Hfresh & Hdels & Htags & Hchain & Hrecs & Hchild
        & _ & _).
  exists s', news. rewrite Nat.sub_0_r in Hlen. rewrite drop_0 in Hdels, Htags.
  split_and!; try done.
  - by apply Hchild.
  - by apply Hdels.
  - intros -> ->. revert Hrun. unfold reconcileChildren, bind at 1, deref at 1.
    rewrite Hw. unfold old_children in Hold. destruct (Fiber.alternate w) as [a|].
    + destruct Hold as (fa & Hfa & Hc). unfold bind, deref, ret. rewrite Hfa.
      inversion Hc as [E|]. rewrite reconcile_loop_nothing. congruence.
    + unfold bind, ret. rewrite reconcile_loop_nothing. congruence.
Qed.

Lemma reconcileChildren_builds_children_witness :
  exists s' news,
    reconcileChildren 3 6 [p_element] second_pass_at_div = Ok tt s'
    /\ length news = length [p_element]
    /\ (forall n, n ∈ news -> heap second_pass_at_div !! n = None)
    /\ (0 < max (length [p_element]) (length [2; 3; 4]) ->
        exists w', heap s' !! 6 = Some w' /\ Fiber.child w' = head news)
    /\ sibling_chain (heap s') (head news) news
    /\ (forall i n e, news !! i = Some n -> [p_element] !! i = Some e ->
          exists fn, heap s' !! n = Some fn
                     /\ Fiber.set_sibling None fn
                        = fiber_for (heap second_pass_at_div) 6 ([2; 3; 4] !! i) e)
    /\ deletions s'
       = Some ([] ++ unmatched (heap second_pass_at_div) [2; 3; 4] [p_element])
    /\ (forall o, o ∈ unmatched (heap second_pass_at_div) [2; 3; 4] [p_element] ->
          exists fo', heap s' !! o = Some fo' /\ Fiber.effectTag fo' = Some DELETION)
    /\ ([p_element] = [] -> [2; 3; 4] = [] -> s' = second_pass_at_div).
Proof.
  apply (reconcileChildren_builds_children 3 6 [p_element] second_pass_at_div
           (second_div div_of_one) [2; 3; 4] []).
  - vm_compute; reflexivity.
  - eexists. split; [vm_compute; reflexivity|].
    repeat (econstructor; [vm_compute; reflexivity|]). constructor.
  - vm_compute; reflexivity.
  - simpl. lia.
Defined.

Lemma unmatched_same_shape (h : gmap ref Fiber.t) (olds : list ref)
    (elements : list element) :
  same_shape h olds elements -> unmatched h olds elements = [].
Proof. induction 1 as [|o e olds els Hk _ IH]; simpl; [done|]. by rewrite Hk. Qed.

(** X8. Rendering the same children again deletes and places nothing.
    When every old child meets an element of its own type and every element
    an old child, [reconcileChildren] returns with [deletions] as it was,
    and the new fiber of each position is tagged UPDATE: it has the old
    fiber of the position as [alternate], that fiber's type and that
    fiber's host node (no node will be created for it), the element's props
    and the reconciled fiber as parent. *)
Theorem reconcileChildren_same_types_update_only
    (fuel : nat) (wipFiber : ref) (elements : list element) (s : state)
    (w : Fiber.t) (olds : list ref) (ds : list ref) :
  heap s !! wipFiber = Some w ->
  old_children (heap s) w olds ->
  deletions s = Some ds ->
  same_shape (heap s) olds elements ->
  length elements <= fuel ->
  exists s' news,
    reconcileChildren fuel wipFiber elements s = Ok tt s'
    /\ deletions s' = Some ds
    /\ length news = length elements
    /\ (forall i n e, news !! i = Some n -> elements !! i = Some e ->
          exists o fo fn,
            olds !! i = Some o /\ heap s !! o = Some fo /\ heap s' !! n = Some fn
            /\ heap s !! n = None
            /\ Fiber.effectTag fn = Some UPDATE
            /\ Fiber.alternate fn = Some o
            /\ Fiber.type fn = Fiber.type fo
            /\ Fiber.dom fn = Fiber.dom fo
            /\ Fiber.props fn = el_props e
            /\ Fiber.parent fn = Some wipFiber).
Proof.
  intros Hw Hold Hds Hshape Hfuel.
  pose proof (Forall2_length _ _ _ Hshape) as Hlen.
  destruct (reconcileChildren_children fuel wipFiber elements s w olds ds
              Hw Hold Hds ltac:(lia))
    as (s' & news & Hrun & Hlen' & Hfresh & Hdels & _ & _ & Hrecs & _).
  exists s', news. rewrite Nat.sub_0_r in Hlen'. rewrite drop_0 in Hdels.
  split; [done|]. split.
  { rewrite (Hdels ds Hds), unmatched_same_shape by done. by rewrite app_nil_r. }
  split; [done|].
  intros i n e Hn He.
  destruct (Hrecs i n e Hn He) as (fn & Hfn & E).
  destruct (Forall2_lookup_r _ _ _ _ _ Hshape He) as (o & Ho & Hk).
  unfold kept in Hk. destruct (heap s !! o) as [fo|] eqn:Hfo; [|done].
  exists o, fo, fn. split; [done|]. split; [done|]. split; [done|].
  split; [apply Hfresh; by eapply list_elem_of_lookup_2|].
  unfold fiber_for in E. rewrite Ho, Hfo, Hk in E.
  destruct fn. unfold update_fiber in E. cbn in E. injection E as -> -> -> -> -> -> -> -> -> ->.
  done.
Qed.

Lemma reconcileChildren_same_types_update_only_witness :
  exists s' news,
    reconcileChildren 3 6 [p_element; p_element; p_element] same_pass_at_div = Ok tt s'
    /\ deletions s' = Some []
    /\ length news = length [p_element; p_element; p_element]
    /\ (forall i n e, news !! i = Some n ->
          [p_element; p_element; p_element] !! i = Some e ->
          exists o fo fn,
            [2; 3; 4] !! i = Some o /\ heap same_pass_at_div !! o = Some fo
            /\ heap s' !! n = Some fn
            /\ heap same_pass_at_div !! n = None
            /\ Fiber.effectTag fn = Some UPDATE
            /\ Fiber.alternate fn = Some o
            /\ Fiber.type fn = Fiber.type fo
            /\ Fiber.dom fn = Fiber.dom fo
            /\ Fiber.props fn = el_props e
            /\ Fiber.parent fn = Some 6).
Proof.
  apply (reconcileChildren_same_types_update_only 3 6
           [p_element; p_element; p_element] same_pass_at_div
           (second_div div_of_three) [2; 3; 4] []).
  - vm_compute; reflexivity.
  - eexists. split; [vm_compute; reflexivity|].
    repeat (econstructor; [vm_compute; reflexivity|]). constructor.
  - vm_compute; reflexivity.
  - repeat (constructor; [vm_compute; reflexivity|]). constructor.
  - simpl. lia.
Defined.

(** ** The hook records of the fiber being rendered *)

Lemma slots_modify (g : state -> state) :
  (forall s, heap (g s) = heap s /\ wipFiber (g s) = wipFiber s
             /\ hookIndex (g s) = hookIndex s) ->
  keeps hook_slots_full (modify g).
Proof.
  intros Hg. apply keeps_modify. intros s Hs r.
  destruct (Hg s) as (-> & -> & ->). apply Hs.
Qed.

Lemma slots_heap (s : state) (h : gmap ref Fiber.t) :
  hook_slots_full s ->
  (forall r f, heap s !! r = Some f ->
     exists f', h !! r = Some f' /\ Fiber.hooks f' = Fiber.hooks f) ->
  hook_slots_full (set_heap h s).
Proof.
  intros Hs Hh r Hr. destruct (Hs r Hr) as (f & hs & Hf & Hhs & Hlen).
  destruct (Hh r f Hf) as (f' & Hf' & E). exists f', hs. by rewrite E.
Qed.

Lemma slots_update (r : ref) (g : Fiber.t -> Fiber.t) :
  (forall f, Fiber.hooks (g f) = Fiber.hooks f) ->
  keeps hook_slots_full (update r g).
Proof.
  intros Hg. apply keeps_update. intros s f Hs Hf. apply slots_heap; [done|].
  intros r0 f0 Hr0. destruct (decide (r = r0)) as [->|Hne].
  - rewrite lookup_insert_eq. exists (g f). split; [done|].
    assert (f0 = f) by congruence. subst. apply Hg.
  - rewrite lookup_insert_ne by done. by exists f0.
Qed.

Lemma slots_alloc (f : Fiber.t) : keeps hook_slots_full (alloc f).
Proof.
  apply keeps_alloc. intros s r Hs Hr. apply slots_heap; [done|].
  intros r0 f0 Hr0. rewrite lookup_insert_ne by congruence. by exists f0.
Qed.

Ltac slots_leaf :=
  first [ apply slots_alloc
        | apply slots_update; intros []; reflexivity
        | apply slots_modify; intros []; done
        | assumption ].

Ltac slots := keeps_structure; try slots_leaf.

(** [wipFiber.hooks.push(hook); hookIndex++] *)
Lemma slots_push {A} (hook : Hook.t) (k : nat -> M A) :
  (forall i, keeps hook_slots_full (k i)) ->
  keeps hook_slots_full
    (i <- push_hook hook ;;
     modify (fun s => set_hookIndex (S (hookIndex s)) s) ;;; k i).
Proof.
  intros Hk s Hs. rewrite final_bind.
  unfold push_hook, bind, gets, the, ret, throw, deref, update, modify.
  destruct (wipFiber s) as [r|] eqn:Hr; [|done].
  destruct (Hs r Hr) as (f & hs & Hf & Hhs & Hlen). rewrite Hf, Hhs. simpl.
  unfold bind, deref. rewrite Hf. simpl. apply Hk. intros r' Hr'. simpl in *.
  assert (r' = r) by congruence. subst r'. rewrite lookup_insert_eq.
  eexists _, _. split; [done|]. split; [done|]. rewrite length_app. simpl. lia.
Qed.

Lemma oldHookOf_slots : keeps hook_slots_full oldHookOf.
Proof. unfold oldHookOf. slots. Qed.

Lemma useEffect_slots (fn : effect_fn) (deps : option (list value)) :
  keeps hook_slots_full (useEffect fn deps).
Proof.
  unfold useEffect.
  apply keeps_bind; [apply oldHookOf_slots|intros oldHook].
  apply keeps_bind; [unfold some_dep_differs; slots|intros hasChanged].
  apply keeps_bind; [unfold push_cleanup, push_effect; slots|intros _].
  apply (slots_push _ (fun _ => ret tt)). intros _. apply keeps_ret.
Qed.

Lemma useState_slots (initial : value) : keeps hook_slots_full (useState initial).
Proof.
  unfold useState.
  apply keeps_bind; [apply oldHookOf_slots|intros oldHook].
  apply keeps_bind; [slots|intros actions].
  apply keeps_bind; [slots|intros wf].
  apply keeps_bind; [slots|intros r].
  apply (slots_push _ (fun i => ret _)). intros i. apply keeps_ret.
Qed.

Lemma run_prog_slots (p : prog) : keeps hook_slots_full (run_prog p).
Proof.
  induction p as [e|initial k IH|fn deps k IH]; simpl.
  - apply keeps_ret.
  - apply keeps_bind; [apply useState_slots|]. intros res. apply IH.
  - apply keeps_bind; [apply useEffect_slots|]. intros _. apply IH.
Qed.

Lemma links_only_slots (s s' : state) :
  links_only s s' -> hook_slots_full s -> hook_slots_full s'.
Proof.
  intros (_ & _ & _ & _ & _ & Hwf & Hhi & _ & Hh) Hs r Hr. rewrite Hwf in Hr.
  destruct (Hs r Hr) as (f & hs & Hf & Hhs & Hlen).
  destruct (Hh r f Hf) as (f' & Hf' & E & _). exists f', hs.
  split; [done|]. split; [|congruence].
  assert (Fiber.hooks f' = Fiber.hooks f) by (by injection E). congruence.
Qed.

Lemma reconcileChildren_slots (fuel : nat) (wipFiber : ref) (elements : list element) :
  keeps hook_slots_full (reconcileChildren fuel wipFiber elements).
Proof.
  intros s. apply links_only_slots, reconcileChildren_links_only.
Qed.

Lemma createDom_slots (f : Fiber.t) : keeps hook_slots_full (createDom f).
Proof. intros s Hs. by rewrite createDom_runs. Qed.

(** Running a callback of an [effects] or [cleanups] list: the closure of
    an effect that returns a cleanup function finds no hook record at
    [hookIndex]. *)
Lemma run_callback_slots (c : callback) (s : state) :
  hook_slots_full s ->
  final (run_callback c s) = set_log (log s ++ [Call (callback_id c)]) s
  /\ (forall fn cleanup, c = EffectClosure fn -> fn_cleanup fn = Some cleanup ->
        run_callback c s = Throw TypeError (set_log (log s ++ [Call (fn_id fn)]) s)).
Proof.
  intros Hs. destruct c as [id|fn]; simpl; [by split|].
  unfold bind, emit, modify. destruct (fn_cleanup fn) as [cleanup|] eqn:Hc.
  2:{ split; [done|]. intros fn0 cleanup [= <-] E. congruence. }
  unfold store_cleanup, bind, gets, the, ret, throw, deref. simpl.
  destruct (wipFiber s) as [r|] eqn:Hr; [|by split; [|intros ? ? [= <-] _]].
  destruct (Hs r Hr) as (f & hs & Hf & Hhs & Hlen).
  cbn [heap set_log]. rewrite Hf, Hhs. cbn [hookIndex set_log].
  rewrite (lookup_ge_None_2 hs (hookIndex s)) by lia.
  by split; [|intros ? ? [= <-] _].
Qed.

Lemma slots_log (s : state) (l : list event) :
  hook_slots_full s -> hook_slots_full (set_log l s).
Proof. intros Hs r Hr. apply Hs, Hr. Qed.

Lemma commitRoot_slots (fuel : nat) : keeps hook_slots_full (commitRoot fuel).
Proof.
  assert (Hcb : forall c, keeps hook_slots_full (run_callback c)).
  { intros c s Hs. rewrite (proj1 (run_callback_slots c s Hs)). by apply slots_log. }
  assert (Hk : keeps hook_slots_full
                 (run_cleanups ;;; commit_tree fuel ;;; run_effects)).
  { apply keeps_bind; [unfold run_cleanups; keeps_structure; apply Hcb|intros _].
    apply keeps_bind; [|intros _].
    - intros s Hs. destruct (commit_tree_dom_only fuel s) as [ops ->].
      by apply slots_log.
    - unfold run_effects. keeps_structure; try apply Hcb; slots_leaf. }
  intros s Hs. rewrite commitRoot_phases. by apply Hk.
Qed.

Lemma render_slots (element : element) (container : option node) :
  keeps hook_slots_full (render element container).
Proof. unfold render. slots. Qed.

Lemma setState_slots (h : setter) (action : value -> value) :
  keeps hook_slots_full (setState h action).
Proof.
  assert (Hrest : keeps hook_slots_full
            (cr <- gets currentRoot ;;
             c <- the cr ;;
             root <- deref c ;;
             r <- alloc (Fiber.mk None (Fiber.props root) (Fiber.dom root)
                           None None None cr None None None None) ;;
             modify (set_wipRoot (Some r)) ;;;
             wr <- gets wipRoot ;;
             modify (set_nextUnitOfWork wr) ;;;
             modify (set_deletions (Some [])))) by slots.
  intros s Hs. unfold setState. rewrite final_bind. unfold deref at 1.
  destruct (heap s !! fst h) as [f|] eqn:Hf; [|done].
  rewrite final_bind.
  destruct (Fiber.hooks f) as [hs|] eqn:Hhs; [|done].
  destruct (hs !! snd h) as [hook|]; [|done].
  unfold bind at 1, the at 1. destruct (Hook.queue hook) as [q|]; [|done].
  unfold ret, update, bind, deref, modify. rewrite Hf. apply Hrest.
  intros r Hr. simpl in *. destruct (Hs r Hr) as (f0 & hs0 & Hf0 & Hhs0 & Hlen).
  destruct (decide (fst h = r)) as [E|Hne].
  - rewrite E, lookup_insert_eq. rewrite E in Hf.
    assert (f0 = f) by congruence. subst f0.
    assert (hs0 = hs) by congruence. subst hs0.
    eexists _, _. split; [done|]. split; [done|]. by rewrite length_insert.
  - rewrite lookup_insert_ne by done. by exists f0, hs0.
Qed.

Section SchedulerSlots.
Variable component : nat -> props -> prog.

Lemma updateHostComponent_slots (fuel : nat) (fiber : ref) :
  keeps hook_slots_full (updateHostComponent fuel fiber).
Proof.
  unfold updateHostComponent. pose proof createDom_slots.
  pose proof reconcileChildren_slots. slots; auto.
Qed.

Lemma updateFunctionComponent_slots (fuel : nat) (fiber : ref) (s : state) (f : Fiber.t) :
  heap s !! fiber = Some f ->
  hook_slots_full (final (updateFunctionComponent component fuel fiber s)).
Proof.
  intros Hf. unfold updateFunctionComponent.
  unfold bind at 1 2 3 4 5, modify at 1 2, update at 1 2 3, bind at 1 2 3,
    deref at 1 2 3, modify at 1 2 3.
  simpl. rewrite Hf. simpl. repeat (rewrite lookup_insert_eq; simpl).
  match goal with |- hook_slots_full (final (?m ?s1)) =>
    assert (Hk : keeps hook_slots_full m); [|apply Hk]
  end.
  { keeps_structure; try slots_leaf.
    - apply run_prog_slots.
    - apply reconcileChildren_slots. }
  intros r [= <-]. simpl. rewrite lookup_insert_eq. by eexists _, _.
Qed.

Lemma nextSibling_slots (fuel : nat) (nextFiber : option ref) :
  keeps hook_slots_full (nextSibling fuel nextFiber).
Proof.
  revert nextFiber. induction fuel as [|fuel IH]; intros [r|]; simpl; slots.
  apply IH.
Qed.

Lemma performUnitOfWork_slots (fuel : nat) (fiber : ref) :
  keeps hook_slots_full (performUnitOfWork component fuel fiber).
Proof.
  assert (Hk : keeps hook_slots_full
            (f0 <- deref fiber ;;
             match Fiber.child f0 with
             | Some c => ret (Some c)
             | None => nextSibling fuel (Some fiber)
             end)).
  { slots. apply nextSibling_slots. }
  intros s Hs. unfold performUnitOfWork. rewrite final_bind. unfold deref at 1.
  destruct (heap s !! fiber) as [f|] eqn:Hf; [|done].
  rewrite final_bind.
  destruct (isFunctionComponent f).
  - pose proof (updateFunctionComponent_slots fuel fiber s f Hf) as H1.
    destruct (updateFunctionComponent component fuel fiber s) as [[] s1|e s1]; [|done].
    by apply Hk.
  - pose proof (updateHostComponent_slots fuel fiber s Hs) as H1.
    destruct (updateHostComponent fuel fiber s) as [[] s1|e s1]; [|done].
    by apply Hk.
Qed.

Lemma workLoop_while_slots (fuel n : nat) (deadline : nat -> Q) :
  forall (k : nat) (shouldYield : bool) (s : state),
    hook_slots_full s ->
    hook_slots_full
      (final (snd (workLoop_while component fuel n deadline k shouldYield s))).
Proof.
  induction n as [|n IH]; intros k shouldYield s Hs; simpl.
  - destruct (nextUnitOfWork s); [destruct shouldYield|]; done.
  - destruct (nextUnitOfWork s) as [fiber|]; [|done].
    destruct shouldYield; [done|].
    pose proof (performUnitOfWork_slots fuel fiber s Hs) as H1.
    destruct (performUnitOfWork component fuel fiber s) as [next s1|e s1]; [|done].
    simpl. apply IH. exact H1.
Qed.

Lemma enter_slots (fuel n : nat) (c : entry) (s : state) :
  hook_slots_full s -> hook_slots_full (enter component fuel n c s).
Proof.
  intros Hs. destruct c as [element container|h action|deadline]; simpl.
  - by apply render_slots.
  - by apply setState_slots.
  - unfold workLoop, then_commit.
    pose proof (workLoop_while_slots fuel n deadline 0 false s Hs) as H1.
    destruct (snd (workLoop_while component fuel n deadline 0 false s))
      as [[] s1|e s1]; simpl in *; [|done].
    unfold commit_when_done, bind, gets.
    destruct (nextUnitOfWork s1); [done|]. destruct (wipRoot s1); [|done].
    by apply commitRoot_slots.
Qed.

(** X9. An effect's cleanup is never recorded.  Every hook call pushes one
    record on the [hooks] of the fiber being rendered and moves [hookIndex]
    on by one, so from the initial state on -- through [render], [setState]
    and [workLoop] calls, a commit included -- [hookIndex] is the number of
    hook records of [wipFiber].  The closure [useEffect] schedules writes
    the cleanup its callback returns to [wipFiber.hooks[hookIndex]], with
    the variables as they are when it runs: that slot is past the last
    record, so for every effect whose callback returns a cleanup function,
    running the closure calls the callback and then throws a TypeError,
    recording nothing. *)
Theorem effect_cleanup_is_never_recorded (fuel n : nat) :
  hook_slots_full initial_state
  /\ (forall c s, hook_slots_full s -> hook_slots_full (enter component fuel n c s))
  /\ (forall s, hook_slots_full s -> hook_slots_full (final (commitRoot fuel s)))
  /\ (forall s fn cleanup,
        hook_slots_full s -> fn_cleanup fn = Some cleanup ->
        run_callback (EffectClosure fn) s
        = Throw TypeError (set_log (log s ++ [Call (fn_id fn)]) s)).
Proof.
  split; [done|]. split; [intros c s; apply enter_slots|].
  split; [apply commitRoot_slots|].
  intros s fn cleanup Hs Hc.
  by apply (proj2 (run_callback_slots (EffectClosure fn) s Hs) fn cleanup).
Qed.

End SchedulerSlots.

(** ** What a unit of work asks of the host *)

Lemma builds_wider (lo hi lo' hi' : nat) (op : host_op) :
  lo' <= lo -> hi <= hi' -> builds lo hi op -> builds lo' hi' op.
Proof. intros H1 H2. destruct op as [[]|? []|[]|[]|[]|[]|[]]; simpl; lia. Qed.

#[local] Instance render_step_refl : Reflexive render_step.
Proof.
  intros s. split_and!; try done.
  - exists []. by rewrite app_nil_r.
  - intros r f Hr. by exists f.
Qed.

#[local] Instance render_step_trans : Transitive render_step.
Proof.
  intros s1 s2 s3 (A1 & A2 & A3 & (ops1 & A4 & A5) & A6)
    (B1 & B2 & B3 & (ops2 & B4 & B5) & B6).
  split_and!; try congruence; try lia.
  - exists (ops1 ++ ops2). split; [by rewrite B4, A4, map_app, app_assoc|].
    apply Forall_app. split.
    + eapply Forall_impl; [exact A5|]. intros op. apply builds_wider; lia.
    + eapply Forall_impl; [exact B5|]. intros op. apply builds_wider; lia.
  - intros r f Hr. destruct (A6 r f Hr) as (f' & Hr' & E' & D').
    destruct (B6 r f' Hr') as (f'' & Hr'' & E'' & D''). exists f''.
    split; [done|]. split; [congruence|]. intros d Hd. by apply D'', D'.
Qed.

(** A step that leaves the host alone. *)
Lemma render_step_quiet (s s' : state) :
  currentRoot s' = currentRoot s -> wipRoot s' = wipRoot s ->
  created s' = created s -> log s' = log s ->
  (forall r f, heap s !! r = Some f ->
     exists f', heap s' !! r = Some f'
                /\ identity f' = identity f
                /\ (forall d, Fiber.dom f = Some d -> Fiber.dom f' = Some d)) ->
  render_step s s'.
Proof.
  intros H1 H2 H3 H4 H5. split_and!; try done; try lia.
  exists []. rewrite H4. by rewrite app_nil_r.
Qed.

Lemma render_step_modify (g : state -> state) :
  (forall s, heap (g s) = heap s /\ currentRoot (g s) = currentRoot s
             /\ wipRoot (g s) = wipRoot s /\ created (g s) = created s
             /\ log (g s) = log s) ->
  relates render_step (modify g).
Proof.
  intros Hg. apply relates_modify. intros s. destruct (Hg s) as (Hh & ? & ? & ? & ?).
  apply render_step_quiet; try done. intros r f Hr. rewrite Hh. by exists f.
Qed.

Lemma render_step_update (r : ref) (g : Fiber.t -> Fiber.t) :
  (forall f, identity (g f) = identity f /\ Fiber.dom (g f) = Fiber.dom f) ->
  relates render_step (update r g).
Proof.
  intros Hg. apply relates_update; [apply _|]. intros s f Hf.
  apply render_step_quiet; try done. intros r0 f0 Hr0. simpl.
  destruct (decide (r = r0)) as [->|Hne].
  - rewrite lookup_insert_eq. exists (g f). split; [done|].
    assert (f0 = f) by congruence. subst. destruct (Hg f) as [-> ->]. done.
  - rewrite lookup_insert_ne by done. by exists f0.
Qed.

Lemma render_step_alloc (f : Fiber.t) : relates render_step (alloc f).
Proof.
  apply relates_alloc. intros s r Hr. apply render_step_quiet; try done.
  intros r0 f0 Hr0. simpl. rewrite lookup_insert_ne by congruence. by exists f0.
Qed.

Ltac render_step_leaf :=
  first [ apply render_step_alloc
        | apply render_step_update; intros []; done
        | apply render_step_modify; intros []; done
        | assumption ].

Ltac render_steps := repeat relates_step; try render_step_leaf.

Lemma links_only_render_step (s s' : state) : links_only s s' -> render_step s s'.
Proof.
  intros (H1 & H2 & _ & H4 & H5 & _ & _ & _ & Hh).
  apply render_step_quiet; try done. intros r f Hr.
  destruct (Hh r f Hr) as (f' & Hf' & E & _). exists f'. split; [done|].
  unfold beyond_links in E. unfold identity. injection E as Et Ep Ed Epa Ea _ _ _.
  split; [congruence|]. intros d. congruence.
Qed.

Lemma reconcileChildren_render_step (fuel : nat) (wipFiber : ref)
    (elements : list element) :
  relates render_step (reconcileChildren fuel wipFiber elements).
Proof. intros s. apply links_only_render_step, reconcileChildren_links_only. Qed.

Lemma builds_created (d : node) (n : nat) (ops : list host_op) :
  d = Created n -> Forall (initialises d) ops -> Forall (builds n (S n)) ops.
Proof.
  intros -> H. eapply Forall_impl; [exact H|].
  intros [| | | | | |]; simpl; try done.
  all: intros ->; lia.
Qed.

Lemma createDom_render_step (f : Fiber.t) : relates render_step (createDom f).
Proof.
  intros s. rewrite createDom_runs. simpl. split_and!; try done; simpl; try lia.
  - exists (creation (Fiber.type f) (Created (created s))
            :: updateDom (Created (created s)) empty_object (Fiber.props f)).
    split; [done|]. constructor.
    + unfold creation. case_bool_decide; simpl; lia.
    + eapply builds_created; [done|]. apply updateDom_initialises.
  - intros r f0 Hr. by exists f0.
Qed.

Lemma hooks_render_step :
  relates render_step oldHookOf
  /\ (forall h, relates render_step (push_hook h))
  /\ (forall c, relates render_step (push_cleanup c))
  /\ (forall c, relates render_step (push_effect c)).
Proof.
  unfold oldHookOf, push_hook, push_cleanup, push_effect.
  split_and!; intros; render_steps.
Qed.

Lemma useEffect_render_step (fn : effect_fn) (deps : option (list value)) :
  relates render_step (useEffect fn deps).
Proof.
  destruct hooks_render_step as (H1 & H2 & H3 & H4).
  unfold useEffect, some_dep_differs. render_steps; auto.
Qed.

Lemma useState_render_step (initial : value) :
  relates render_step (useState initial).
Proof.
  destruct hooks_render_step as (H1 & H2 & H3 & H4).
  unfold useState. render_steps; auto.
Qed.

Lemma run_prog_render_step (p : prog) : relates render_step (run_prog p).
Proof.
  induction p as [e|initial k IH|fn deps k IH]; simpl.
  - apply relates_ret. apply _.
  - apply relates_bind; [apply _|apply useState_render_step|]. intros res. apply IH.
  - apply relates_bind; [apply _|apply useEffect_render_step|]. intros _. apply IH.
Qed.

Section UnitsOfWork.
Variable component : nat -> props -> prog.

Lemma updateFunctionComponent_render_step (fuel : nat) (fiber : ref) :
  relates render_step (updateFunctionComponent component fuel fiber).
Proof.
  unfold updateFunctionComponent. render_steps.
  - apply run_prog_render_step.
  - apply reconcileChildren_render_step.
Qed.

(** Lines 362-364 on a fiber of the heap. *)
Lemma ensure_dom (fiber : ref) (f : Fiber.t) (s : state) :
  heap s !! fiber = Some f ->
  (match Fiber.dom f with
   | Some _ => ret tt
   | None => d <- createDom f ;; update fiber (Fiber.set_dom (Some d))
   end) s
  = Ok tt
      (match Fiber.dom f with
       | Some _ => s
       | None =>
           set_heap (<[fiber := Fiber.set_dom (Some (Created (created s))) f]> (heap s))
             (set_log (log s ++ map Dom (creation (Fiber.type f) (Created (created s))
                                         :: updateDom (Created (created s)) empty_object
                                              (Fiber.props f)))
                      (set_created (S (created s)) s))
       end).
Proof.
  intros Hf. destruct (Fiber.dom f); [done|].
  unfold bind. rewrite createDom_runs. unfold update, bind, deref, modify. simpl.
  by rewrite Hf.
Qed.

Lemma updateHostComponent_render_step (fuel : nat) (fiber : ref) :
  relates render_step (updateHostComponent fuel fiber).
Proof.
  assert (Hrest : relates render_step
            (f <- deref fiber ;;
             elements <- the (children (Fiber.props f)) ;;
             reconcileChildren fuel fiber elements)).
  { render_steps. apply reconcileChildren_render_step. }
  intros s. unfold updateHostComponent. rewrite final_bind. unfold deref at 1.
  destruct (heap s !! fiber) as [f|] eqn:Hf; [|reflexivity].
  rewrite final_bind, (ensure_dom fiber f s Hf).
  etrans; [|apply Hrest].
  destruct (Fiber.dom f) as [d|] eqn:Hd; [reflexivity|].
  pose proof (createDom_render_step f s) as Hc. rewrite createDom_runs in Hc.
  simpl in Hc. destruct Hc as (C1 & C2 & C3 & C4 & C5).
  split_and!; try done. intros r f0 Hr. simpl.
  destruct (decide (fiber = r)) as [->|Hne].
  - rewrite lookup_insert_eq. eexists. split; [done|].
    assert (f0 = f) by congruence. subst. split; [done|]. intros d. congruence.
  - rewrite lookup_insert_ne by done. by exists f0.
Qed.

Lemma nextSibling_render_step (fuel : nat) (nextFiber : option ref) :
  relates render_step (nextSibling fuel nextFiber).
Proof.
  revert nextFiber. induction fuel as [|fuel IH]; intros [r|]; simpl; render_steps.
  apply IH.
Qed.

Lemma performUnitOfWork_render_step (fuel : nat) (fiber : ref) :
  relates render_step (performUnitOfWork component fuel fiber).
Proof.
  unfold performUnitOfWork. render_steps.
  - apply updateFunctionComponent_render_step.
  - apply updateHostComponent_render_step.
  - apply nextSibling_render_step.
Qed.

(** X10. A unit of work prepares, it does not show.  Whatever fiber
    [performUnitOfWork] is given and however it ends, it leaves the current
    root and the pending root as they are and calls no callback; all it
    asks of the host is to create nodes and to set properties and add
    listeners on the nodes created during this very unit: it never
    attaches a node to a parent, removes one, or touches the container or
    any node that existed before.  Every fiber that existed before is still
    there with its type, props, parent and alternate, and keeps the host
    node it had. *)
Theorem performUnitOfWork_only_builds_new_nodes (fuel : nat) (fiber : ref) (s : state) :
  render_step s (final (performUnitOfWork component fuel fiber s)).
Proof. apply performUnitOfWork_render_step. Qed.

End UnitsOfWork.

(** ** Nothing of a render pass is ever shown *)

Lemma only_builds_step (s s' : state) :
  render_step s s' -> only_builds (log s) -> only_builds (log s').
Proof.
  intros (_ & _ & _ & (ops & -> & Hops) & _) Hs. apply Forall_app. split; [done|].
  apply Forall_map. eapply Forall_impl; [exact Hops|]. intros op Hop. simpl.
  by eexists _, _, _.
Qed.

Lemma setState_without_current_root (h : setter) (action : value -> value) (s : state) :
  currentRoot s = None -> exists e s', setState h action s = Throw e s'.
Proof.
  intros Hcr. unfold setState, bind at 1, deref at 1.
  destruct (heap s !! fst h) as [f|] eqn:Hf; [|by eexists _, _].
  unfold bind at 1.
  destruct (Fiber.hooks f) as [hs|]; [|by eexists _, _].
  destruct (hs !! snd h) as [hook|]; [|by eexists _, _].
  unfold bind at 1, the at 1. destruct (Hook.queue hook) as [q|]; [|by eexists _, _].
  unfold ret, update, bind, deref, modify, gets, the, throw. rewrite Hf. simpl.
  rewrite Hcr. by eexists _, _.
Qed.

Section Shown.
Variable component : nat -> props -> prog.

Lemma unshown_step (s s' : state) : render_step s s' -> unshown s -> unshown s'.
Proof.
  intros Hstep [H1 H2]. split; [|by eapply only_builds_step].
  destruct Hstep as (-> & _). done.
Qed.

Lemma unshown_leaves :
  (forall g, (forall s, currentRoot (g s) = currentRoot s /\ log (g s) = log s) ->
             keeps unshown (modify g))
  /\ (forall r g, keeps unshown (update r g))
  /\ (forall f, keeps unshown (alloc f)).
Proof.
  split_and!.
  - intros g Hg. apply keeps_modify. intros s [H1 H2]. destruct (Hg s) as [E1 E2].
    split; congruence.
  - intros r g. by apply keeps_update.
  - intros f. by apply keeps_alloc.
Qed.

Lemma render_unshown (element : element) (container : option node) :
  keeps unshown (render element container).
Proof.
  destruct unshown_leaves as (Hm & Hu & Ha). unfold render.
  keeps_structure; first [apply Ha | apply Hm; by intros []].
Qed.

Lemma setState_unshown (h : setter) (action : value -> value) :
  keeps unshown (setState h action).
Proof.
  destruct unshown_leaves as (Hm & Hu & Ha). unfold setState.
  keeps_structure; first [apply Ha | apply Hu | apply Hm; by intros []].
Qed.

Lemma workLoop_while_render_step (fuel n : nat) (deadline : nat -> Q) :
  forall (k : nat) (shouldYield : bool) (s : state),
    render_step s
      (set_nextUnitOfWork
         (nextUnitOfWork s)
         (final (snd (workLoop_while component fuel n deadline k shouldYield s)))).
Proof.
  assert (Hset : forall nu s, render_step s (set_nextUnitOfWork nu s)).
  { intros nu s. apply render_step_quiet; try done. intros r f Hr. by exists f. }
  assert (Hset' : forall nu s, render_step (set_nextUnitOfWork nu s) s).
  { intros nu s. apply render_step_quiet; try done. intros r f Hr. by exists f. }
  induction n as [|n IH]; intros k shouldYield s; simpl.
  - destruct (nextUnitOfWork s); [destruct shouldYield|]; apply Hset.
  - destruct (nextUnitOfWork s) as [fiber|] eqn:Hnu; [|apply Hset].
    destruct shouldYield; [apply Hset|].
    pose proof (performUnitOfWork_render_step component fuel fiber s) as H1.
    destruct (performUnitOfWork component fuel fiber s) as [next s1|e s1];
      simpl in *.
    + etrans; [exact H1|]. etrans; [apply (Hset next)|].
      etrans; [apply (IH (S k) (negb (Qle_bool 1 (deadline k)))
                         (set_nextUnitOfWork next s1))|].
      etrans; [apply Hset'|apply Hset].
    + etrans; [exact H1|apply Hset].
Qed.

Lemma enter_unshown (fuel n : nat) (c : entry) (s : state) :
  root_bare s -> unshown s -> unshown (enter component fuel n c s).
Proof.
  intros Hb Hs. destruct c as [element container|h action|deadline]; simpl.
  - by apply render_unshown.
  - by apply setState_unshown.
  - unfold workLoop, then_commit.
    pose proof (workLoop_while_render_step fuel n deadline 0 false s) as H1.
    pose proof (workLoop_while_bare component fuel n deadline 0 false s Hb) as H2.
    apply unshown_step in H1; [|done].
    destruct (snd (workLoop_while component fuel n deadline 0 false s))
      as [[] s1|e s1]; simpl in *.
    + unfold commit_when_done, bind, gets.
      destruct (nextUnitOfWork s1); [exact H1|].
      destruct (wipRoot s1) eqn:E; [|exact H1].
      rewrite commitRoot_throws by done. exact H1.
    + exact H1.
Qed.

(** X11. As the module stands, nothing it renders is ever shown.  From the
    initial state, after any calls of [render], of [setState] closures and
    of [workLoop]: no tree has been made current ([currentRoot] is still
    null); all the host has been asked is to create nodes and to set
    properties and add listeners on created nodes -- no node has been
    attached to a parent, so the container has no child, none has been
    removed, and no callback has been called; and every call of a
    [setState] closure ends in an exception. *)
Theorem nothing_is_ever_shown (fuel n : nat) (entries : list entry) :
  let s := fold_left (fun s c => enter component fuel n c s) entries initial_state in
  currentRoot s = None
  /\ only_builds (log s)
  /\ (forall h action, exists e s', setState h action s = Throw e s').
Proof.
  intros s.
  assert (Hs : root_bare s /\ unshown s).
  { subst s. assert (H0 : root_bare initial_state /\ unshown initial_state).
    { split; [split; [|done]|split; [done|constructor]].
      intros r f Hr. simpl in Hr. by rewrite lookup_empty in Hr. }
    revert H0. generalize initial_state.
    induction entries as [|c cs IH]; intros s0 [H1 H2]; simpl; [done|].
    apply IH. split; [by apply enter_bare|by apply enter_unshown]. }
  destruct Hs as [_ [H1 H2]]. split; [done|]. split; [done|].
  intros h action. by apply setState_without_current_root.
Qed.

(** ** When the loop yields *)

Lemma workLoop_while_yields (fuel n : nat) (deadline : nat -> Q) :
  forall (k : nat) (s s1 : state) (units : list ref) (u : unit),
    workLoop_while component fuel n deadline k false s = (units, Ok u s1) ->
    (forall j, j + 1 < length units -> (1 <= deadline (k + j)%nat)%Q)
    /\ (nextUnitOfWork s1 = None
        \/ (units <> [] /\ ~ (1 <= deadline (k + (length units - 1))%nat)%Q)).
Proof.
  induction n as [|n IH]; intros k s s1 units u; simpl.
  - destruct (nextUnitOfWork s) as [fiber|] eqn:Hnu; [done|].
    intros [= <- <- <-]. split; [simpl; lia|by left].
  - destruct (nextUnitOfWork s) as [fiber|] eqn:Hnu.
    2:{ intros [= <- <- <-]. split; [simpl; lia|by left]. }
    destruct (performUnitOfWork component fuel fiber s) as [next s'|e s']; [|done].
    destruct (Qle_bool 1 (deadline k)) eqn:Hd; simpl.
    + (* time remains *)
      destruct (workLoop_while component fuel n deadline (S k) false _)
        as [units' o'] eqn:Hrest.
      simpl. intros [= <- ->].
      destruct (IH _ _ _ _ _ Hrest) as [Hall Hlast].
      apply Qle_bool_iff in Hd. split.
      * intros [|j] Hj; [by rewrite Nat.add_0_r|].
        rewrite Nat.add_succ_r. apply Hall. simpl in Hj. lia.
      * destruct Hlast as [?|[Hne Hlast]]; [by left|right]. split; [done|].
        simpl. destruct units' as [|x units']; [done|]. simpl in *.
        by rewrite Nat.sub_0_r, Nat.add_succ_r in *.
    + (* the deadline has passed: the loop stops *)
      assert (Hstop : workLoop_while component fuel n deadline (S k) true
                        (set_nextUnitOfWork next s')
                      = ([], Ok tt (set_nextUnitOfWork next s'))).
      { destruct n; simpl; by destruct next. }
      rewrite Hstop. simpl. intros [= <- <- <-]. split; [simpl; lia|].
      right. split; [done|]. simpl. rewrite Nat.add_0_r. intros H.
      apply Qle_bool_iff in H. congruence.
Qed.

(** X12. The loop yields as soon as the deadline says so, and no sooner.
    In an idle period [workLoop] always performs the pending unit of work
    first, whatever time the deadline has left; it asks the deadline after
    each unit and goes on to the next unit as long as the answer is at
    least 1.  So when a call returns having performed the units [units]:
    the deadline answered at least 1 after every unit but the last, and
    either no unit of work is left or the deadline answered less than 1
    after the last one. *)
Theorem workLoop_yields_when_deadline_passes
    (fuel n : nat) (deadline : nat -> Q) (s : state) :
  head (fst (workLoop component fuel (S n) deadline s)) = nextUnitOfWork s
  /\ (forall units u s1,
        workLoop component fuel n deadline s = (units, Ok u s1) ->
        (forall j, j + 1 < length units -> (1 <= deadline j)%Q)
        /\ (nextUnitOfWork s1 = None
            \/ (units <> [] /\ (deadline (length units - 1)%nat < 1)%Q))).
Proof.
  split.
  - unfold workLoop, then_commit. simpl.
    destruct (nextUnitOfWork s) as [fiber|]; [|done].
    destruct (performUnitOfWork component fuel fiber s) as [next s'|e s']; [|done].
    simpl. by destruct (snd (workLoop_while _ _ _ _ _ _ _)).
  - intros units u s1. unfold workLoop, then_commit.
    destruct (workLoop_while component fuel n deadline 0 false s)
      as [units0 [u0 s0|e0 s0]] eqn:HW; simpl; [|done].
    intros [= -> Hc].
    destruct (workLoop_while_yields fuel n deadline 0 s s0 units u0 HW)
      as [Hall Hlast].
    split; [exact Hall|].
    unfold commit_when_done, bind, gets, ret in Hc. simpl in Hc.
    destruct (nextUnitOfWork s0) as [fiber|] eqn:Hnu.
    + simplify_eq. destruct Hlast as [?|[Hne Hlast]]; [congruence|].
      right. split; [done|]. by apply Qnot_le_lt.
    + left. destruct (wipRoot s0); [|by simplify_eq].
      destruct (commitRoot_Ok _ _ _ _ Hc) as [_ ->]. done.
Qed.

End Shown.

(** ** Host nodes are created once *)

Section HostNodes.
Variable component : nat -> props -> prog.

(** X13. A fiber gets its host node once.  [updateHostComponent] on a
    fiber that has a host node asks nothing of the host and leaves the node
    in place; on a fiber without one it has [createDom] make a node -- the
    next the host numbers -- and stores it in the fiber, before it
    reconciles the children: so whether the children can be reconciled or
    not, the fiber has its node afterwards, and the log has grown by the
    creation and initialisation of that one node and nothing else. *)
Theorem updateHostComponent_creates_node_once
    (fuel : nat) (fiber : ref) (s : state) (f : Fiber.t) :
  heap s !! fiber = Some f ->
  let s' := final (updateHostComponent fuel fiber s) in
  let d := Created (created s) in
  exists f', heap s' !! fiber = Some f'
    /\ match Fiber.dom f with
       | Some d0 => Fiber.dom f' = Some d0 /\ created s' = created s /\ log s' = log s
       | None =>
           Fiber.dom f' = Some d
           /\ created s' = S (created s)
           /\ log s' = log s ++ map Dom (creation (Fiber.type f) d
                                         :: assigned_properties d empty_object
                                              (Fiber.props f)
                                         ++ added_listeners d empty_object
                                              (Fiber.props f))
       end.
Proof.
  intros Hf s' d.
  assert (Hrest : relates links_only
            (f <- deref fiber ;;
             elements <- the (children (Fiber.props f)) ;;
             reconcileChildren fuel fiber elements)).
  { repeat relates_step. apply reconcileChildren_links_only. }
  assert (E : final (updateHostComponent fuel fiber s)
              = final ((f <- deref fiber ;;
                        elements <- the (children (Fiber.props f)) ;;
                        reconcileChildren fuel fiber elements)
                         (match Fiber.dom f with
                          | Some _ => s
                          | None =>
                              set_heap (<[fiber := Fiber.set_dom (Some d) f]> (heap s))
                                (set_log (log s ++ map Dom (creation (Fiber.type f) d
                                                            :: updateDom d empty_object
                                                                 (Fiber.props f)))
                                         (set_created (S (created s)) s))
                          end))).
  { unfold updateHostComponent. rewrite final_bind. unfold deref at 1.
    by rewrite Hf, final_bind, (ensure_dom fiber f s Hf). }
  subst s'. rewrite E. clear E.
  match goal with |- context [final (?m ?s1)] =>
    destruct (Hrest s1) as (HL & HC & _ & _ & _ & _ & _ & _ & HH);
    fold (m s1) in HL, HC, HH; revert HL HC HH; generalize (final (m s1))
  end.
  intros s' HL HC HH.
  destruct (Fiber.dom f) as [d0|] eqn:Hd.
  - destruct (HH fiber f Hf) as (f' & Hf' & E & _). exists f'. split; [done|].
    split; [|done]. assert (Fiber.dom f' = Fiber.dom f) by (by injection E).
    congruence.
  - simpl in HL, HC, HH. specialize (HH fiber). rewrite lookup_insert_eq in HH.
    destruct (HH _ eq_refl) as (f' & Hf' & E & _). exists f'. split; [done|].
    split; [by injection E|]. split; [done|].
    rewrite HL. by destruct (updateDom_initialises d (Fiber.props f)) as [-> _].
Qed.

Lemma updateHostComponent_creates_node_once_witness :
  let s' := final (updateHostComponent 10 1 first_pass_at_div) in
  let d := Created (created first_pass_at_div) in
  exists f', heap s' !! 1 = Some f'
    /\ Fiber.dom f' = Some d
    /\ created s' = S (created first_pass_at_div)
    /\ log s' = log first_pass_at_div
                ++ map Dom (creation (Some (Host "div")) d
                            :: assigned_properties d empty_object (el_props div_of_three)
                            ++ added_listeners d empty_object (el_props div_of_three)).
Proof.
  apply (updateHostComponent_creates_node_once 10 1 first_pass_at_div
           (placement_fiber 0 div_of_three)).
  vm_compute; reflexivity.
Defined.

Lemma performUnitOfWork_host (fuel : nat) (fiber n : ref) (f f' : Fiber.t)
    (d : node) (elements : list element) (s s' : state) :
  heap s !! fiber = Some f ->
  isFunctionComponent f = false ->
  Fiber.dom f = Some d ->
  children (Fiber.props f) = Some elements ->
  reconcileChildren fuel fiber elements s = Ok tt s' ->
  heap s' !! fiber = Some f' ->
  Fiber.child f' = Some n ->
  performUnitOfWork component fuel fiber s = Ok (Some n) s'.
Proof.
  intros Hf Hfc Hd Hch Hrec Hf' Hn.
  unfold performUnitOfWork, bind at 1, deref at 1. rewrite Hf, Hfc.
  unfold bind at 1, updateHostComponent, bind at 1, deref at 1. rewrite Hf, Hd.
  unfold bind at 1, ret at 1, bind at 1, deref at 1. rewrite Hf.
  unfold bind at 1, the at 1. rewrite Hch. unfold ret at 1. rewrite Hrec.
  unfold bind, deref. by rewrite Hf', Hn.
Qed.

(** X14. The first unit of work of a first render.  After
    [render(element, container)] while no tree is current, the pending unit
    of work is the new root fiber, and performing it asks nothing of the
    host (the root has the container as its node), makes the one fiber of
    [element] -- tagged PLACEMENT, without host node or alternate, with the
    root as parent -- and returns it as the next unit of work; nothing is
    marked for deletion. *)
Theorem first_unit_places_the_element
    (fuel : nat) (element : element) (container : node) (s : state) :
  currentRoot s = None ->
  let s1 := final (render element (Some container) s) in
  exists root n s2,
    wipRoot s1 = Some root /\ nextUnitOfWork s1 = Some root
    /\ performUnitOfWork component (S fuel) root s1 = Ok (Some n) s2
    /\ heap s !! n = None
    /\ heap s2 !! n = Some (placement_fiber root element)
    /\ deletions s2 = Some []
    /\ log s2 = log s /\ created s2 = created s.
Proof.
  intros Hcr s1. subst s1. unfold render, bind, gets, alloc, modify. simpl.
  set (root := fresh (dom (heap s))). rewrite Hcr.
  set (rf := Fiber.mk None (Props [] (Some [element])) (Some container)
                      None None None None None None None None).
  set (s1 := set_nextUnitOfWork _ _).
  assert (Hroot : heap s !! root = None) by apply not_elem_of_dom, is_fresh.
  assert (Hrf : heap s1 !! root = Some rf) by apply lookup_insert_eq.
  destruct (reconcileChildren_children (S fuel) root [element] s1 rf [] []
              Hrf eq_refl eq_refl ltac:(simpl; lia))
    as (s2 & news & Hrun & Hlen & Hfresh & Hdels & _ & Hchain & Hrecs & Hchild & _).
  destruct news as [|n [|]]; try done. clear Hlen.
  destruct (Hchild eq_refl ltac:(simpl; lia)) as (rf' & Hrf' & Hc).
  destruct (Hrecs 0 n element eq_refl eq_refl) as (fn & Hfn & E).
  inversion Hchain as [|? fn0 ? Hfn0 Hnil]; subst. inversion Hnil as [Hsb|].
  assert (fn0 = fn) by congruence. subst fn0.
  assert (Hn : heap s1 !! n = None) by (apply Hfresh; by left).
  exists root, n, s2. split; [done|]. split; [done|]. split.
  { by eapply (performUnitOfWork_host (S fuel) root n rf rf' container [element]). }
  pose proof (reconcileChildren_links_only (S fuel) root [element] s1) as Hlo.
  rewrite Hrun in Hlo. simpl in Hlo. destruct Hlo as (HL & HC & _).
  split_and!.
  - subst s1. simpl in Hn. destruct (decide (root = n)) as [->|Hne].
    + by rewrite lookup_insert_eq in Hn.
    + by rewrite lookup_insert_ne in Hn.
  - rewrite Hfn. f_equal. change (Fiber.set_sibling None fn = placement_fiber root element) in E.
    rewrite <- E. destruct fn. simpl in *. by subst.
  - by rewrite (Hdels [] eq_refl).
  - by rewrite HL.
  - by rewrite HC.
Qed.

End HostNodes.

Lemma first_unit_places_the_element_witness :
  let s1 := final (render div_of_three (Some (Container 0)) initial_state) in
  exists root n s2,
    wipRoot s1 = Some root /\ nextUnitOfWork s1 = Some root
    /\ performUnitOfWork no_components 1 root s1 = Ok (Some n) s2
    /\ heap initial_state !! n = None
    /\ heap s2 !! n = Some (placement_fiber root div_of_three)
    /\ deletions s2 = Some []
    /\ log s2 = log initial_state /\ created s2 = created initial_state.
Proof.
  apply (first_unit_places_the_element no_components 0 div_of_three (Container 0) initial_state).
  reflexivity.
Defined.

(** ** The first render of a function component *)

Lemma run_prog_first (p : prog) :
  forall (s : state) (r : ref) (f : Fiber.t) (hs : list Hook.t) (es : list callback),
    wipFiber s = Some r ->
    heap s !! r = Some f ->
    Fiber.alternate f = None ->
    Fiber.hooks f = Some hs ->
    Fiber.effects f = Some es ->
    hookIndex s = length hs ->
    let res := first_run p r (length hs) in
    run_prog p s
    = Ok (fst res)
         (set_hookIndex (length hs + length (fst (snd res)))
            (set_heap (<[r := Fiber.set_effects (Some (es ++ snd (snd res)))
                                (Fiber.set_hooks (Some (hs ++ fst (snd res))) f)]>
                         (heap s)) s)).
Proof.
  induction p as [e|initial k IH|fn deps k IH];
    intros s r f hs es Hwf Hf Halt Hhs Hes Hi; simpl.
  - unfold ret. f_equal. rewrite !app_nil_r, Nat.add_0_r.
    destruct s, f. simpl in *. subst. unfold set_hookIndex, set_heap. simpl.
    f_equal. by rewrite insert_id.
  - unfold bind at 1.
    assert (Hus : useState initial s
                  = Ok (initial, (r, length hs))
                       (set_hookIndex (S (length hs))
                          (set_heap
                             (<[r := Fiber.set_hooks
                                       (Some (hs ++ [Hook.mk initial (Some []) None None]))
                                       f]> (heap s)) s))).
    { unfold useState, oldHookOf, push_hook, update.
      unfold bind, gets, the, ret, deref, modify.
      repeat first [ rewrite Hwf | rewrite Hf | rewrite Halt | rewrite Hhs
                   | progress simpl ].
      by rewrite Hi. }
    rewrite Hus. simpl.
    rewrite (IH initial (r, length hs) _ r
               (Fiber.set_hooks (Some (hs ++ [Hook.mk initial (Some []) None None])) f)
               (hs ++ [Hook.mk initial (Some []) None None]) es);
      try done; simpl.
    + rewrite length_app, Nat.add_1_r. simpl. f_equal.
      unfold set_hookIndex, set_heap. simpl. f_equal; [|lia].
      rewrite insert_insert_eq. f_equal. by rewrite <- app_assoc.
    + apply lookup_insert_eq.
    + rewrite length_app. simpl. lia.
  - unfold bind at 1.
    assert (Hue : useEffect fn deps s
                  = Ok tt
                       (set_hookIndex (S (length hs))
                          (set_heap
                             (<[r := Fiber.set_hooks
                                       (Some (hs ++ [Hook.mk VUndefined None deps None]))
                                       (Fiber.set_effects
                                          (Some (es ++ [EffectClosure fn])) f)]>
                                (heap s)) s))).
    { unfold useEffect, oldHookOf, push_effect, push_hook, update.
      unfold bind, gets, the, ret, deref, modify.
      repeat first [ rewrite Hwf | rewrite Hf | rewrite Halt | rewrite Hhs
                   | rewrite Hes | rewrite lookup_insert_eq | progress simpl ].
      by rewrite insert_insert_eq, Hi. }
    rewrite Hue. simpl.
    rewrite (IH _ r
               (Fiber.set_hooks (Some (hs ++ [Hook.mk VUndefined None deps None]))
                  (Fiber.set_effects (Some (es ++ [EffectClosure fn])) f))
               (hs ++ [Hook.mk VUndefined None deps None])
               (es ++ [EffectClosure fn]));
      try done; simpl.
    + rewrite length_app, Nat.add_1_r. simpl. f_equal.
      unfold set_hookIndex, set_heap. simpl. f_equal; [|lia].
      rewrite insert_insert_eq. f_equal. by rewrite <- !app_assoc.
    + apply lookup_insert_eq.
    + rewrite length_app. simpl. lia.
Qed.

Section FirstRender.
Variable component : nat -> props -> prog.

(** X15. The first render of a function component.  For a fiber whose
    type is a function and that has no previous version,
    [updateFunctionComponent] returns; it has called the function with the
    fiber's props, every [useState] in it returning its initial value and
    every [useEffect] scheduling its callback; the fiber then holds one
    hook record per hook call, in call order, the scheduled effects in
    call order and no cleanup, and [hookIndex] counts the hook calls.  The
    element the function returned has become the fiber's one child, tagged
    PLACEMENT; nothing is marked for deletion and nothing is asked of the
    host. *)
Theorem updateFunctionComponent_first_render
    (fuel : nat) (fiber : ref) (s : state) (f : Fiber.t) (fn : nat) (ds : list ref) :
  heap s !! fiber = Some f ->
  Fiber.type f = Some (Component fn) ->
  Fiber.alternate f = None ->
  deletions s = Some ds ->
  let res := first_run (component fn (Fiber.props f)) fiber 0 in
  exists s' n f',
    updateFunctionComponent component (S fuel) fiber s = Ok tt s'
    /\ heap s' !! fiber = Some f'
    /\ Fiber.hooks f' = Some (fst (snd res))
    /\ Fiber.effects f' = Some (snd (snd res))
    /\ Fiber.cleanups f' = Some []
    /\ Fiber.child f' = Some n
    /\ heap s !! n = None
    /\ heap s' !! n = Some (placement_fiber fiber (fst res))
    /\ wipFiber s' = Some fiber
    /\ hookIndex s' = length (fst (snd res))
    /\ deletions s' = Some ds
    /\ log s' = log s.
Proof.
  intros Hf Hty Halt Hds res.
  unfold updateFunctionComponent.
  unfold bind at 1 2 3 4 5, modify at 1 2, update at 1 2 3, bind at 1 2 3,
    deref at 1 2 3, modify at 1 2 3.
  simpl. rewrite Hf. simpl. repeat (rewrite lookup_insert_eq; simpl).
  rewrite !insert_insert_eq.
  set (f5 := Fiber.set_cleanups (Some []) (Fiber.set_effects (Some [])
               (Fiber.set_hooks (Some []) f))).
  set (s5 := set_heap _ _).
  assert (Hf5 : heap s5 !! fiber = Some f5) by apply lookup_insert_eq.
  unfold bind at 1, deref at 1. rewrite Hf5.
  change (Fiber.type f5) with (Fiber.type f). rewrite Hty.
  unfold bind at 1.
  rewrite (run_prog_first (component fn (Fiber.props f5)) s5 fiber f5 [] [])
    by done.
  change (first_run (component fn (Fiber.props f5)) fiber (length []))
    with res. simpl.
  set (f6 := Fiber.set_effects _ _). set (s6 := set_hookIndex _ _).
  assert (Hf6 : heap s6 !! fiber = Some f6) by apply lookup_insert_eq.
  assert (Hold : old_children (heap s6) f6 []).
  { unfold old_children. change (Fiber.alternate f6) with (Fiber.alternate f).
    by rewrite Halt. }
  destruct (reconcileChildren_children (S fuel) fiber [fst res] s6 f6 [] ds
              Hf6 Hold Hds ltac:(simpl; lia))
    as (s' & news & Hrun & Hlen & Hfresh & Hdels & _ & Hchain & Hrecs & Hchild & _).
  destruct news as [|n [|]]; try done. clear Hlen.
  destruct (Hchild eq_refl ltac:(simpl; lia)) as (f' & Hf' & Hc).
  destruct (Hrecs 0 n (fst res) eq_refl eq_refl) as (fn' & Hfn & E).
  inversion Hchain as [|? fn0 ? Hfn0 Hnil]; subst. inversion Hnil as [Hsb|].
  assert (fn0 = fn') by congruence. subst fn0.
  assert (Hn : heap s6 !! n = None) by (apply Hfresh; by left).
  pose proof (reconcileChildren_links_only (S fuel) fiber [fst res] s6) as Hlo.
  rewrite Hrun in Hlo. simpl in Hlo.
  destruct Hlo as (HL & _ & _ & _ & _ & HW & HI & _ & HH).
  destruct (HH fiber f6 Hf6) as (f'' & Hf'' & Hbl & _).
  assert (f'' = f') by congruence. subst f''.
  unfold beyond_links in Hbl. injection Hbl as _ _ _ _ _ Hh He Hcl.
  exists s', n, f'. split_and!; try done.
  - subst s6 s5. simpl in Hn. destruct (decide (fiber = n)) as [->|Hne].
    + by rewrite lookup_insert_eq in Hn.
    + by rewrite !lookup_insert_ne in Hn.
  - rewrite Hfn. f_equal.
    change (Fiber.set_sibling None fn' = placement_fiber fiber (fst res)) in E.
    rewrite <- E. destruct fn'. simpl in *. by subst.
  - rewrite (Hdels ds Hds). simpl. by rewrite app_nil_r.
Qed.

End FirstRender.

Lemma updateFunctionComponent_first_render_witness :
  let res := first_run (counter_component 0 (Props [] (Some []))) 1 0 in
  exists s' n f',
    updateFunctionComponent counter_component 1 1 component_example = Ok tt s'
    /\ heap s' !! 1 = Some f'
    /\ Fiber.hooks f' = Some (fst (snd res))
    /\ Fiber.effects f' = Some (snd (snd res))
    /\ Fiber.cleanups f' = Some []
    /\ Fiber.child f' = Some n
    /\ heap component_example !! n = None
    /\ heap s' !! n = Some (placement_fiber 1 (fst res))
    /\ wipFiber s' = Some 1
    /\ hookIndex s' = length (fst (snd res))
    /\ deletions s' = Some []
    /\ log s' = log component_example.
Proof.
  apply (updateFunctionComponent_first_render counter_component 0 1 component_example
           component_fiber 0 []); reflexivity.
Defined.

(** ** The walk up to the next unit of work *)

Lemma climb_found (h : gmap ref Fiber.t) (o next : option ref) :
  climb h o next ->
  exists fuel0, forall fuel s,
    heap s = h -> fuel0 <= fuel -> nextSibling fuel o s = Ok next s.
Proof.
  induction 1 as [|r f sb Hr Hsb|r f next Hr Hsb Hc [fuel0 IH]].
  - exists 0. intros fuel s _ _. by destruct fuel.
  - exists 1. intros [|fuel] s <- Hfuel; [lia|]. simpl.
    unfold bind, deref, ret. by rewrite Hr, Hsb.
  - exists (S fuel0). intros [|fuel] s <- Hfuel; [lia|]. simpl.
    unfold bind, deref. rewrite Hr, Hsb. apply IH; [done|lia].
Qed.

Lemma climb_exists (h : gmap ref Fiber.t) (o : option ref) (l : list ref) :
  parent_chain h o l ->
  exists next, climb h o next
               /\ forall fuel s, heap s = h -> length l <= fuel ->
                                 nextSibling fuel o s = Ok next s.
Proof.
  induction 1 as [|r f l Hr Hc (next & Hcl & IH)].
  - exists None. split; [constructor|]. intros fuel s _ _. by destruct fuel.
  - destruct (Fiber.sibling f) as [sb|] eqn:Hsb.
    + exists (Some sb). split; [by eapply climb_sibling|].
      intros [|fuel] s <- Hfuel; [simpl in Hfuel; lia|]. simpl.
      unfold bind, deref, ret. by rewrite Hr, Hsb.
    + exists next. split; [by eapply climb_parent|].
      intros [|fuel] s <- Hfuel; [simpl in Hfuel; lia|]. simpl.
      unfold bind, deref. rewrite Hr, Hsb. apply IH; [done|simpl in Hfuel; lia].
Qed.

Lemma nextSibling_throws (fuel : nat) :
  forall (o : option ref) (s s' : state) (e : error),
    nextSibling fuel o s = Throw e s' -> e <> TypeError /\ s' = s.
Proof.
  induction fuel as [|fuel IH]; intros [r|] s s' e; simpl; try done.
  - by intros [= <- <-].
  - unfold bind, deref. destruct (heap s !! r) as [f|]; [|by intros [= <- <-]].
    destruct (Fiber.sibling f); [done|]. apply IH.
Qed.

(** X16. The walk up from a finished fiber always finds its answer.  When
    the [parent] links from the fiber lead to a fiber without parent, the
    loop of lines 253-259, given one turn per fiber on that way, returns:
    the sibling of the nearest fiber on the way, the fiber itself first,
    that has a sibling, and nothing when none has.  It changes nothing,
    and it never throws a TypeError: the only ways it can end abruptly are
    those of the embedding (the turns run out, or a link names no
    fiber). *)
Theorem nextSibling_finds_the_way_up
    (s : state) (o : option ref) (ancestors : list ref) :
  parent_chain (heap s) o ancestors ->
  (exists next, climb (heap s) o next
                /\ forall fuel, length ancestors <= fuel ->
                                nextSibling fuel o s = Ok next s)
  /\ (forall fuel e s', nextSibling fuel o s = Throw e s' -> e <> TypeError /\ s' = s).
Proof.
  intros Hc. split.
  - destruct (climb_exists _ _ _ Hc) as (next & Hcl & H). exists next.
    split; [done|]. intros fuel Hfuel. by apply H.
  - intros fuel e s'. apply nextSibling_throws.
Qed.

Lemma nextSibling_finds_the_way_up_witness :
  (exists next, climb (heap nested_example) (Some 2) next
                /\ forall fuel, length [2; 1; 0] <= fuel ->
                                nextSibling fuel (Some 2) nested_example
                                = Ok next nested_example)
  /\ (forall fuel e s', nextSibling fuel (Some 2) nested_example = Throw e s' ->
                        e <> TypeError /\ s' = nested_example).
Proof.
  apply (nextSibling_finds_the_way_up nested_example (Some 2) [2; 1; 0]).
  repeat (econstructor; [vm_compute; reflexivity|]). constructor.
Defined.
(** ** Text children *)

Lemma all_elements_wrapped (args : list child_value) :
  (forall j v, args !! j = Some (inr v) -> typeof_object v = false) ->
  exists elements,
    all_elements (map wrap_child args) = Some elements
    /\ length elements = length args
    /\ forall j, elements !! j
                 = (fun c => match c with
                             | inl e => e
                             | inr v => createTextElement v
                             end) <$> args !! j.
Proof.
  induction args as [|a args IH]; intros H.
  - by exists [].
  - destruct IH as (elements & E & Hlen & Hget).
    { intros j v Hj. by apply (H (S j)). }
    destruct a as [e|v]; simpl.
    + rewrite E. exists (e :: elements). split; [done|]. split; [by simpl; f_equal|].
      by intros [|j]; [|apply Hget].
    + rewrite (H 0 v eq_refl). simpl. rewrite E.
      exists (createTextElement v :: elements).
      split; [done|]. split; [by simpl; f_equal|].
      by intros [|j]; [|apply Hget].
Qed.

(** X17. What [createElement] makes of its children, and a text child's
    node.  The [children] array has one entry per argument, in order: an
    element is kept; so is any other value whose [typeof] is "object",
    [null] included, for which no text element is made; every other value
    becomes the text element of that value.  For the fiber of such a text
    element [createDom] asks the host for a text node and assigns the
    value to its [nodeValue] -- unless the value is [undefined], which
    [isNew] does not tell from the missing entry of [{}] -- and asks
    nothing else.  When no argument is such a kept value, the result is an
    Element of the data model, with its children in the order of the
    arguments. *)
Theorem text_child_becomes_text_node
    (type : etype) (attributes : list (string * value)) (args : list child_value)
    (i : nat) (text : value) (wipFiber : ref) (s : state) :
  args !! i = Some (inr text) ->
  let d := Created (created s) in
  let made := createElement type attributes args in
  length (ce_children made) = length args
  /\ (forall j e, args !! j = Some (inl e) -> ce_children made !! j = Some (inl e))
  /\ (typeof_object text = true -> ce_children made !! i = Some (inr text))
  /\ (typeof_object text = false ->
      ce_children made !! i = Some (inl (createTextElement text))
      /\ createDom (placement_fiber wipFiber (createTextElement text)) s
         = Ok d (set_log
                   (log s ++ Dom (CreateTextNode d)
                             :: (if bool_decide (text = VUndefined) then []
                                 else [Dom (SetProperty d "nodeValue" text)]))
                   (set_created (S (created s)) s)))
  /\ ((forall j v, args !! j = Some (inr v) -> typeof_object v = false) ->
      exists elements,
        as_element made
        = Some (Element type
                  (Props (List.filter
                            (fun kv => negb (String.eqb (fst kv) "children"))
                            attributes)
                         (Some elements)))
        /\ length elements = length args
        /\ elements !! i = Some (createTextElement text)).
Proof.
  intros Hi d made. subst made. unfold createElement. cbn [ce_children].
  unfold child_value in *.
  split; [by rewrite length_map|]. split.
  { intros j e Hj. by rewrite list_lookup_fmap, Hj. }
  split.
  { intros Ht. rewrite list_lookup_fmap, Hi. simpl. by rewrite Ht. }
  split.
  { intros Ht. split; [rewrite list_lookup_fmap, Hi; simpl; by rewrite Ht|].
    rewrite createDom_runs. fold d. f_equal. f_equal. f_equal.
    change (Fiber.props (placement_fiber wipFiber (createTextElement text)))
      with (Props [("nodeValue", text)] (Some [])).
    change (creation _ d) with (CreateTextNode d). cbn [map]. f_equal.
    by destruct text. }
  intros Hall. destruct (all_elements_wrapped args Hall) as (elements & E & Hlen & Hget).
  exists elements. unfold as_element. cbn [ce_children ce_type ce_attrs].
  unfold child_value in *. rewrite E. split; [done|].
  split; [done|]. by rewrite Hget, Hi.
Qed.

Lemma text_child_becomes_text_node_witness :
  let d := Created (created initial_state) in
  let made := createElement (Host "h1") []
                [inr (VStr "Count: "); inr (VNum 1); inr VNull] in
  length (ce_children made) = 3
  /\ ce_children made !! 1 = Some (inl (createTextElement (VNum 1)))
  /\ ce_children made !! 2 = Some (inr VNull)
  /\ as_element made = None
  /\ createDom (placement_fiber 0 (createTextElement (VNum 1))) initial_state
     = Ok d (set_log (log initial_state
                      ++ [Dom (CreateTextNode d);
                          Dom (SetProperty d "nodeValue" (VNum 1))])
                     (set_created (S (created initial_state)) initial_state)).
Proof.
  intros d made.
  destruct (text_child_becomes_text_node (Host "h1") []
              [inr (VStr "Count: "); inr (VNum 1); inr VNull] 1 (VNum 1) 0
              initial_state eq_refl) as (Hlen & _ & _ & Htext & _).
  destruct (Htext eq_refl) as [Hchild Hdom].
  destruct (text_child_becomes_text_node (Host "h1") []
              [inr (VStr "Count: "); inr (VNum 1); inr VNull] 2 VNull 0
              initial_state eq_refl) as (_ & _ & Hnull & _).
  split; [exact Hlen|]. split; [exact Hchild|]. split; [exact (Hnull eq_refl)|].
  split; [reflexivity|exact Hdom].
Defined.

(** ** The links a unit of work writes *)

Section KeepLinks.
Context (X : ref -> Prop).

#[global] Instance keep_links_refl : Reflexive (keep_links_except X).
Proof. intros s r f Hr _. by exists f. Qed.

#[global] Instance keep_links_trans : Transitive (keep_links_except X).
Proof.
  intros s1 s2 s3 A B r f Hr HX. destruct (A r f Hr HX) as (f' & Hr' & C' & S').
  destruct (B r f' Hr' HX) as (f'' & Hr'' & C'' & S''). exists f''.
  split; [done|]. split; congruence.
Qed.

Lemma keep_links_heap (s : state) (h : gmap ref Fiber.t) :
  (forall r f, heap s !! r = Some f -> ~ X r ->
     exists f', h !! r = Some f' /\ Fiber.child f' = Fiber.child f
                /\ Fiber.sibling f' = Fiber.sibling f) ->
  keep_links_except X s (set_heap h s).
Proof. intros H r f Hr HX. by apply H. Qed.

Lemma keep_links_update (r : ref) (g : Fiber.t -> Fiber.t) :
  (X r \/ forall f, Fiber.child (g f) = Fiber.child f
                    /\ Fiber.sibling (g f) = Fiber.sibling f) ->
  relates (keep_links_except X) (update r g).
Proof.
  intros Hg. apply relates_update; [apply _|]. intros s f Hf r0 f0 Hr0 HX. simpl.
  destruct (decide (r = r0)) as [->|Hne].
  - destruct Hg as [?|Hg]; [done|]. rewrite lookup_insert_eq. exists (g f).
    split; [done|]. assert (f0 = f) by congruence. subst. apply Hg.
  - rewrite lookup_insert_ne by done. by exists f0.
Qed.

Lemma keep_links_alloc (f : Fiber.t) : relates (keep_links_except X) (alloc f).
Proof.
  apply relates_alloc. intros s r Hr r0 f0 Hr0 HX. simpl.
  rewrite lookup_insert_ne by congruence. by exists f0.
Qed.

Lemma keep_links_modify (g : state -> state) :
  (forall s, heap (g s) = heap s) -> relates (keep_links_except X) (modify g).
Proof. intros Hg. apply relates_modify. intros s r f Hr HX. rewrite Hg. by exists f. Qed.

End KeepLinks.

(** A [bind] on what a variable or a field holds, which is known to hold
    something when the continuation runs. *)
Lemma relates_the_bind {A B} (R : state -> state -> Prop) `{!Reflexive R}
    (x : option A) (k : A -> M B) :
  (forall a, x = Some a -> relates R (k a)) -> relates R (bind (the x) k).
Proof.
  intros Hk s. destruct x as [a|]; [|reflexivity]. by apply (Hk a).
Qed.

Ltac keep_links_leaf :=
  first [ apply keep_links_alloc
        | apply keep_links_modify; intros []; reflexivity
        | apply keep_links_update; right; intros []; done
        | apply keep_links_update; left;
          first [ done | by left | right; congruence ] ].

Ltac keep_links :=
  repeat first
    [ lazymatch goal with
      | |- relates _ (bind (the _) _) =>
          apply relates_the_bind; [apply _|intros ? ?]
      end
    | relates_step ];
  try keep_links_leaf.

Lemma reconcile_position_keeps_links (wipFiber : ref) (elements : list element)
    (index : nat) (oldFiber prevSibling : option ref) :
  relates (keep_links_except (fun r => r = wipFiber \/ Some r = prevSibling))
    (reconcile_position wipFiber elements index oldFiber prevSibling).
Proof. unfold reconcile_position. keep_links. Qed.

(** The fiber a turn makes is a new one. *)
Lemma reconcile_position_new_fiber (wipFiber : ref) (elements : list element)
    (index : nat) (oldFiber prevSibling oldFiber' : option ref) (n : ref)
    (s s' : state) :
  reconcile_position wipFiber elements index oldFiber prevSibling s
    = Ok (oldFiber', Some n) s' ->
  heap s !! n = None.
Proof.
  unfold reconcile_position. intros H.
  apply bind_Ok_inv in H as (old & sa & Ha & H).
  apply bind_Ok_inv in H as (nf1 & sb & Hb & H).
  apply bind_Ok_inv in H as (nf & sc & Hc & H).
  do 3 (apply bind_Ok_inv in H as (? & ? & _ & H)). injection H as _ -> _.
  assert (sa = s) as ->.
  { destruct oldFiber as [o|]; [|by injection Ha].
    unfold bind, deref, ret in Ha. destruct (heap s !! o); by simplify_eq. }
  assert (Hfresh : forall f r s1, alloc f s = Ok r s1 -> heap s !! r = None).
  { intros f r s1 [= <- _]. apply not_elem_of_dom, is_fresh. }
  destruct old as [o|], (elements !! index) as [e|]; simpl in *;
    unfold bind, ret in *; repeat case_match; simplify_eq; eauto.
Qed.

Lemma reconcile_loop_keeps_links (wipFiber : ref) (elements : list element)
    (fuel : nat) (s0 : state) :
  forall index oldFiber prevSibling s,
    keep_links_except (eq wipFiber) s0 s ->
    (forall p, prevSibling = Some p -> heap s0 !! p = None \/ p = wipFiber) ->
    keep_links_except (eq wipFiber) s0
      (final (reconcile_loop fuel wipFiber elements index oldFiber prevSibling s)).
Proof.
  induction fuel as [|fuel IH]; intros index oldFiber prevSibling s Hs Hprev; simpl.
  - by destruct (_ || _).
  - destruct (_ || _); [|done]. rewrite final_bind.
    pose proof (reconcile_position_keeps_links wipFiber elements index oldFiber
                  prevSibling s) as Hturn.
    assert (Hs1 : keep_links_except (eq wipFiber) s0
                    (final (reconcile_position wipFiber elements index oldFiber
                              prevSibling s))).
    { intros r f Hr Hne. destruct (Hs r f Hr Hne) as (f1 & Hr1 & C1 & S1).
      destruct (Hturn r f1 Hr1) as (f2 & Hr2 & C2 & S2).
      - intros [->|E]; [done|]. destruct (Hprev r (eq_sym E)) as [?|?]; congruence.
      - exists f2. split; [done|]. split; congruence. }
    destruct (reconcile_position wipFiber elements index oldFiber prevSibling s)
      as [[oldFiber' newFiber] s1|e s1] eqn:Hrun; [|done].
    simpl in *. apply IH; [done|]. intros n ->.
    apply reconcile_position_new_fiber in Hrun.
    destruct (decide (n = wipFiber)) as [?|Hne]; [by right|left].
    destruct (heap s0 !! n) as [f0|] eqn:E; [|done].
    destruct (Hs n f0 E ltac:(congruence)) as (f1 & Hf1 & _). congruence.
Qed.

Lemma reconcileChildren_keeps_links (fuel : nat) (wipFiber : ref)
    (elements : list element) :
  relates (keep_links_except (eq wipFiber)) (reconcileChildren fuel wipFiber elements).
Proof.
  intros s. unfold reconcileChildren. rewrite final_bind. unfold deref at 1.
  destruct (heap s !! wipFiber) as [w|]; [|reflexivity]. rewrite final_bind.
  assert (Hold : forall m : M (option ref),
            (forall s1, final (m s1) = s1) ->
            keep_links_except (eq wipFiber) s
              match m s with
              | Ok a s' => final (reconcile_loop fuel wipFiber elements 0 a None s')
              | Throw _ s' => s'
              end).
  { intros m Hm. specialize (Hm s). destruct (m s) as [a s1|e s1]; simpl in Hm;
      subst s1; [|reflexivity].
    by apply reconcile_loop_keeps_links. }
  apply Hold. intros s1. destruct (Fiber.alternate w) as [a|]; [|done].
  unfold bind, deref. by destruct (heap s1 !! a).
Qed.

Section UnitLinks.
Variable component : nat -> props -> prog.

Lemma hooks_keep_links (X : ref -> Prop) (p : prog) :
  relates (keep_links_except X) (run_prog p).
Proof.
  induction p as [e|initial k IH|fn deps k IH]; simpl.
  - apply relates_ret. apply _.
  - apply relates_bind; [apply _| |intros res; apply IH].
    unfold useState, oldHookOf, push_hook. keep_links.
  - apply relates_bind; [apply _| |intros _; apply IH].
    unfold useEffect, oldHookOf, some_dep_differs, push_cleanup, push_effect,
      push_hook.
    keep_links.
Qed.

Lemma nextSibling_keeps_links (X : ref -> Prop) (fuel : nat) (nextFiber : option ref) :
  relates (keep_links_except X) (nextSibling fuel nextFiber).
Proof.
  revert nextFiber. induction fuel as [|fuel IH]; intros [r|]; simpl; keep_links.
  apply IH.
Qed.

Lemma performUnitOfWork_keeps_links (fuel : nat) (fiber : ref) :
  relates (keep_links_except (eq fiber)) (performUnitOfWork component fuel fiber).
Proof.
  unfold performUnitOfWork, updateFunctionComponent, updateHostComponent.
  keep_links.
  - apply hooks_keep_links.
  - apply reconcileChildren_keeps_links.
  - apply reconcileChildren_keeps_links.
  - apply nextSibling_keeps_links.
Qed.

(** X18. A unit of work rewires only its own fiber and the fibers it makes.
    Whatever fiber [performUnitOfWork] is given and however it ends, every
    other fiber that existed before is still there with the [child] and the
    [sibling] link it had: the [child] link the unit writes is the one of
    its fiber, and the [sibling] links it writes are those of the children
    it has just made.  So the tree that is current keeps its shape while
    the next one is being built. *)
Theorem performUnitOfWork_keeps_other_links (fuel : nat) (fiber : ref) (s : state) :
  keep_links_except (eq fiber) s (final (performUnitOfWork component fuel fiber s)).
Proof. apply performUnitOfWork_keeps_links. Qed.

End UnitLinks.

(** ** A whole first render pass *)

Lemma sizes_cons (c : element) (cs : list element) :
  sizes (c :: cs) = esize c + sizes cs.
Proof. done. Qed.

Lemma esize_node (type : etype) (attrs : list (string * value)) (cs : list element) :
  esize (Element type (Props attrs (Some cs))) = S (sizes cs).
Proof. done. Qed.

Lemma sibling_chain_unique (h : gmap ref Fiber.t) (o : option ref) (l1 l2 : list ref) :
  sibling_chain h o l1 -> sibling_chain h o l2 -> l1 = l2.
Proof.
  intros H1. revert l2. induction H1 as [|r f l Hr Hc IH]; intros l2 H2.
  - by inversion H2.
  - inversion H2 as [|r' f' l' Hr' Hc']; subst.
    assert (f' = f) by congruence. subst. f_equal. by apply IH.
Qed.

Lemma sibling_chain_suffix (h : gmap ref Fiber.t) (a b : list ref) (r : ref) :
  forall o, sibling_chain h o (a ++ r :: b) -> sibling_chain h (Some r) (r :: b).
Proof.
  induction a as [|x a IH]; intros o H; simpl in H.
  - by inversion H; subst.
  - inversion H; subst. by eapply IH.
Qed.

Lemma sibling_chain_NoDup (h : gmap ref Fiber.t) (o : option ref) (l : list ref) :
  sibling_chain h o l -> NoDup l.
Proof.
  induction 1 as [|r f l Hr Hc IH]; constructor; [|done].
  intros Hin. apply list_elem_of_split in Hin as (a & b & ->).
  pose proof (sibling_chain_suffix _ _ _ _ _ Hc) as H1.
  assert (H2 : sibling_chain h (Some r) (r :: a ++ r :: b)) by (by econstructor).
  pose proof (sibling_chain_unique _ _ _ _ H1 H2) as E.
  apply (f_equal length) in E. simpl in E. rewrite length_app in E. simpl in E. lia.
Qed.

Lemma sibling_chain_lookup (h : gmap ref Fiber.t) (l : list ref) :
  forall o, sibling_chain h o l ->
    o = head l
    /\ forall i k, l !! i = Some k ->
         exists f, h !! k = Some f /\ Fiber.sibling f = l !! S i.
Proof.
  induction l as [|r l IH]; intros o H; inversion H as [|? f ? Hr Hc]; subst.
  - by split.
  - destruct (IH _ Hc) as [Hhead Hl]. split; [done|].
    intros [|i] k Hk; simpl in *.
    + injection Hk as <-. exists f. split; [done|]. by rewrite Hhead, head_lookup.
    + by apply Hl.
Qed.

Lemma sibling_chain_from_lookup (h : gmap ref Fiber.t) (l : list ref) :
  (forall i k, l !! i = Some k ->
     exists f, h !! k = Some f /\ Fiber.sibling f = l !! S i) ->
  sibling_chain h (head l) l.
Proof.
  induction l as [|r l IH]; intros H; [constructor|].
  destruct (H 0 r eq_refl) as (f & Hf & Hs). simpl in *.
  econstructor; [exact Hf|]. rewrite Hs, <- head_lookup. apply IH.
  intros i k Hk. by apply (H (S i)).
Qed.

Lemma parent_chain_frame (h h' : gmap ref Fiber.t) (o : option ref) (l : list ref) :
  parent_chain h o l ->
  (forall r f, r ∈ l -> h !! r = Some f ->
     exists f', h' !! r = Some f' /\ Fiber.parent f' = Fiber.parent f) ->
  parent_chain h' o l.
Proof.
  induction 1 as [|r f l Hr Hc IH]; intros Hfr; [constructor|].
  destruct (Hfr r f ltac:(left) Hr) as (f' & Hr' & Hp).
  econstructor; [exact Hr'|]. rewrite Hp. apply IH.
  intros r0 f0 Hin. apply Hfr. by right.
Qed.

Lemma parent_chain_in_heap (h : gmap ref Fiber.t) (o : option ref) (l : list ref) (r : ref) :
  parent_chain h o l -> r ∈ l -> is_Some (h !! r).
Proof.
  induction 1 as [|r0 f l Hr Hc IH]; intros Hin.
  - by apply elem_of_nil in Hin.
  - apply elem_of_cons in Hin as [->|Hin]; [by eexists|by apply IH].
Qed.

Lemma record_eq (f f' : Fiber.t) :
  beyond_links f' = beyond_links f ->
  Fiber.effectTag f' = Fiber.effectTag f ->
  Fiber.child f' = Fiber.child f ->
  Fiber.sibling f' = Fiber.sibling f ->
  f' = f.
Proof. destruct f, f'. unfold beyond_links. cbn. intros [=] ? ? ?. by subst. Qed.

Section WholePass.
Variable component : nat -> props -> prog.
Variable fuel : nat.

(** A unit of work on a host fiber without node, step by step. *)
Lemma performUnitOfWork_new_host (fiber : ref) (f f' : Fiber.t)
    (elements : list element) (s s' s'' : state) (next : option ref) :
  heap s !! fiber = Some f ->
  isFunctionComponent f = false ->
  Fiber.dom f = None ->
  children (Fiber.props f) = Some elements ->
  reconcileChildren fuel fiber elements
    (set_heap (<[fiber := Fiber.set_dom (Some (Created (created s))) f]> (heap s))
       (set_log (log s ++ map Dom (creation (Fiber.type f) (Created (created s))
                                   :: updateDom (Created (created s)) empty_object
                                        (Fiber.props f)))
                (set_created (S (created s)) s)))
  = Ok tt s' ->
  heap s' !! fiber = Some f' ->
  (match Fiber.child f' with
   | Some c => ret (Some c)
   | None => nextSibling fuel (Some fiber)
   end) s' = Ok next s'' ->
  performUnitOfWork component fuel fiber s = Ok next s''.
Proof.
  intros Hf Hfc Hd Hch Hrec Hf' Hnext.
  unfold performUnitOfWork, bind at 1, deref at 1. rewrite Hf, Hfc.
  unfold bind at 1, updateHostComponent, bind at 1, deref at 1. rewrite Hf.
  unfold bind at 1. rewrite (ensure_dom fiber f s Hf), Hd.
  unfold bind at 1, deref at 1. simpl heap. rewrite lookup_insert_eq.
  unfold bind at 1, the at 1. cbn [Fiber.props Fiber.set_dom]. rewrite Hch.
  unfold ret at 1.
  rewrite Hrec. unfold bind, deref. by rewrite Hf'.
Qed.

Lemma host_unit (s : state) (r p : ref) (sb : option ref) (tag : string)
    (attrs : list (string * value)) (cs : list element) (anc : list ref)
    (ds : list ref) :
  let e := Element (Host tag) (Props attrs (Some cs)) in
  heap s !! r = Some (Fiber.set_sibling sb (placement_fiber p e)) ->
  parent_chain (heap s) (Some r) anc ->
  deletions s = Some ds ->
  length cs <= fuel -> length anc <= fuel ->
  exists s1 kids next,
    performUnitOfWork component fuel r s = Ok next s1
    /\ length kids = length cs
    /\ NoDup kids
    /\ (forall k, k ∈ kids -> heap s !! k = None)
    /\ heap s1 !! r = Some (Fiber.set_child (head kids)
                             (Fiber.set_dom (Some (Created (created s)))
                                (Fiber.set_sibling sb (placement_fiber p e))))
    /\ (forall i k c, kids !! i = Some k -> cs !! i = Some c ->
          heap s1 !! k
          = Some (Fiber.set_sibling (kids !! S i) (placement_fiber r c)))
    /\ (forall r' f', heap s !! r' = Some f' -> r' <> r -> heap s1 !! r' = Some f')
    /\ created s1 = S (created s)
    /\ deletions s1 = Some ds
    /\ wipRoot s1 = wipRoot s
    /\ currentRoot s1 = currentRoot s
    /\ (kids <> [] -> next = head kids)
    /\ (kids = [] -> climb (heap s1) (Some r) next).
Proof.
  intros e Hr Hanc Hds Hfuel Hfuel2.
  set (f0 := Fiber.set_sibling sb (placement_fiber p e)) in *.
  set (fd := Fiber.set_dom (Some (Created (created s))) f0).
  set (sd := set_heap (<[r := fd]> (heap s))
               (set_log (log s ++ map Dom (creation (Fiber.type f0) (Created (created s))
                                           :: updateDom (Created (created s))
                                                empty_object (Fiber.props f0)))
                        (set_created (S (created s)) s))).
  assert (Hfd : heap sd !! r = Some fd) by apply lookup_insert_eq.
  destruct (reconcileChildren_children fuel r cs sd fd [] ds Hfd eq_refl Hds
              ltac:(simpl; lia))
    as (s1 & kids & Hrun & Hlen & Hfresh & Hdels & _ & Hchain & Hrecs & Hchild
        & _ & Hfr).
  rewrite Nat.sub_0_r in Hlen.
  pose proof (reconcileChildren_links_only fuel r cs sd) as Hlo.
  rewrite Hrun in Hlo. simpl in Hlo.
  destruct Hlo as (_ & HC & _ & HCR & HWR & _ & _ & _ & _).
  pose proof (reconcileChildren_keeps_links fuel r cs sd) as Hkl.
  rewrite Hrun in Hkl. simpl in Hkl.
  destruct (sibling_chain_lookup _ _ _ Hchain) as [_ Hsibs].
  (* the fibers that were there *)
  assert (Hothers : forall r' f', heap s !! r' = Some f' -> r' <> r ->
            heap s1 !! r' = Some f').
  { intros r' f' Hr' Hne.
    assert (Hd : heap sd !! r' = Some f') by (simpl; by rewrite lookup_insert_ne).
    destruct (Hfr r' f' Hd) as (f1 & Hf1 & B & T & _ & _ & S).
    destruct (Hkl r' f' Hd ltac:(congruence)) as (f1' & Hf1' & C & _).
    assert (f1' = f1) by congruence. subst f1'.
    rewrite Hf1. f_equal. apply record_eq; auto. apply T, not_elem_of_nil. }
  (* the fiber of the unit *)
  assert (Hr1 : heap s1 !! r = Some (Fiber.set_child (head kids) fd)).
  { destruct (Hfr r fd Hfd) as (f1 & Hf1 & B & T & _ & _ & S).
    rewrite Hf1. f_equal. apply record_eq; auto.
    - apply T, not_elem_of_nil.
    - destruct cs as [|c cs].
      + destruct kids; [|done].
        assert (s1 = sd) as ->.
        { revert Hrun. unfold reconcileChildren, bind, deref, ret. rewrite Hfd.
          simpl. rewrite reconcile_loop_nothing. congruence. }
        assert (f1 = fd) by congruence. by subst.
      + destruct (Hchild eq_refl ltac:(simpl; lia)) as (w' & Hw' & Hc).
        assert (w' = f1) by congruence. by subst. }
  (* the new fibers *)
  assert (Hkids : forall i k c, kids !! i = Some k -> cs !! i = Some c ->
            heap s1 !! k
            = Some (Fiber.set_sibling (kids !! S i) (placement_fiber r c))).
  { intros i k c Hk Hc. destruct (Hrecs i k c Hk Hc) as (fk & Hfk & E).
    destruct (Hsibs i k Hk) as (fk' & Hfk' & Hs).
    assert (fk' = fk) by congruence. subst fk'.
    rewrite Hfk. f_equal. rewrite lookup_nil in E.
    change (Fiber.set_sibling None fk = placement_fiber r c) in E.
    rewrite <- E, <- Hs. by destruct fk. }
  assert (Hfresh' : forall k, k ∈ kids -> heap s !! k = None).
  { intros k Hk. specialize (Hfresh k Hk). simpl in Hfresh.
    destruct (decide (r = k)) as [->|Hne].
    - by rewrite lookup_insert_eq in Hfresh.
    - by rewrite lookup_insert_ne in Hfresh. }
  (* where the walk goes next *)
  assert (Hnext : exists next,
            (match Fiber.child (Fiber.set_child (head kids) fd) with
             | Some c => ret (Some c)
             | None => nextSibling fuel (Some r)
             end) s1 = Ok next s1
            /\ (kids <> [] -> next = head kids)
            /\ (kids = [] -> climb (heap s1) (Some r) next)).
  { destruct kids as [|k kids]; simpl.
    - assert (Hanc1 : parent_chain (heap s1) (Some r) anc).
      { eapply parent_chain_frame; [exact Hanc|]. intros r' f' Hin Hr'.
        destruct (decide (r' = r)) as [->|Hne].
        - eexists. split; [exact Hr1|]. assert (f' = f0) by congruence. by subst.
        - exists f'. split; [by apply Hothers|done]. }
      destruct (climb_exists _ _ _ Hanc1) as (next & Hcl & Hns).
      exists next. split; [by apply Hns|]. by split.
    - exists (Some k). split; [done|]. by split. }
  destruct Hnext as (next & Hnext & Hn1 & Hn2).
  exists s1, kids, next. split_and!; try done.
  - eapply (performUnitOfWork_new_host r f0 _ cs s s1 s1 next); try done.
  - by eapply sibling_chain_NoDup.
  - rewrite (Hdels ds Hds). simpl. by rewrite app_nil_r.
Qed.

Lemma runs_app (k1 k2 : nat) (s s1 s2 : state) (u1 u2 : list ref) :
  runs component fuel k1 s u1 s1 -> runs component fuel k2 s1 u2 s2 ->
  runs component fuel (k1 + k2) s (u1 ++ u2) s2.
Proof. induction 1; simpl; [done|]. intros. econstructor; eauto. Qed.

Lemma runs_walk (k : nat) (s s' : state) (units : list ref) :
  runs component fuel k s units s' ->
  forall m, walk component fuel (k + m) s
            = (units ++ fst (walk component fuel m s'),
               snd (walk component fuel m s')).
Proof.
  induction 1 as [s|k s fiber next s1 units s' Hnu Hp Hr IH]; intros m; simpl.
  - by destruct (walk component fuel m s).
  - rewrite walk_step, Hnu, Hp. by rewrite IH.
Qed.

Lemma runs_nothing (s s' : state) (units : list ref) :
  runs component fuel 0 s units s' -> units = [] /\ s' = s.
Proof. by inversion 1. Qed.

End WholePass.

Lemma length_le_sizes (cs : list element) : length cs <= sizes cs.
Proof.
  induction cs as [|c cs IH]; [done|]. rewrite sizes_cons. cbn [length].
  assert (0 < esize c) by (destruct c; simpl; lia). lia.
Qed.

Section Trees.
Variable component : nat -> props -> prog.
Variable fuel : nat.

(** The children of a fiber, one tree after the other. *)
Lemma children_run (n : nat) (r : ref) (anc : list ref) :
  (forall e, esize e <= n -> host_tree e ->
     forall s r p sb anc,
       heap s !! r = Some (Fiber.set_sibling sb (placement_fiber p e)) ->
       parent_chain (heap s) (Some r) anc ->
       nextUnitOfWork s = Some r -> is_Some (deletions s) ->
       length anc + esize e <= fuel ->
       exists s' l, subtree_done component fuel s r p sb e s' l) ->
  forall cs, Forall host_tree cs -> sizes cs <= n ->
  forall kids st,
    length kids = length cs -> NoDup kids -> r ∉ kids ->
    (forall x, x ∈ anc -> x ∉ kids) ->
    (forall i k c, kids !! i = Some k -> cs !! i = Some c ->
       heap st !! k
       = Some (Fiber.set_sibling (kids !! S i) (placement_fiber r c))) ->
    parent_chain (heap st) (Some r) anc ->
    (forall k, head kids = Some k -> nextUnitOfWork st = Some k) ->
    is_Some (deletions st) ->
    length anc + 1 + sizes cs <= fuel ->
    exists s' ls, children_done component fuel st r kids cs s' ls.
Proof.
  intros IHn cs. induction cs as [|c cs IHcs];
    intros Hht Hsz kids st Hlen Hnd Hr Hanc Hrec Hchain Hnu Hds Hfuel.
  { destruct kids; [|done]. exists st, []. unfold children_done.
    split_and!; try done.
    - constructor.
    - by intros x Hx%elem_of_nil.
    - by intros x Hx%elem_of_nil.
    - intros h _. constructor. }
  destruct kids as [|k kids]; [done|].
  apply Forall_cons in Hht as [Hc Hcs]. rewrite sizes_cons in *.
  apply NoDup_cons in Hnd as [Hk Hnd]. apply not_elem_of_cons in Hr as [Hrk Hr].
  injection Hlen as Hlen.
  assert (Hkrec : heap st !! k
                  = Some (Fiber.set_sibling (head kids) (placement_fiber r c))).
  { rewrite head_lookup. apply (Hrec 0 k c eq_refl eq_refl). }
  assert (Hkchain : parent_chain (heap st) (Some k) (k :: anc)).
  { econstructor; [exact Hkrec|exact Hchain]. }
  destruct (IHn c ltac:(lia) Hc st k r (head kids) (k :: anc) Hkrec Hkchain
              (Hnu k eq_refl) Hds ltac:(simpl; lia))
    as (s1 & l & Hruns1 & Hfresh1 & Hsome1 & Hbuilt1 & Hclimb1 & Hfr1
        & (fk & Hfk & Hfkp & Hfks) & Hcr1 & Hd1 & Hw1 & Hc1).
  assert (Hkids_st : forall x, x ∈ kids -> is_Some (heap st !! x)).
  { intros x Hx. apply list_elem_of_lookup in Hx as [i Hi].
    assert (Hlt : i < length cs) by (rewrite <- Hlen; by eapply lookup_lt_Some).
    apply lookup_lt_is_Some in Hlt as [c' Hc'].
    rewrite (Hrec (S i) x c' Hi Hc'). by eexists. }
  assert (Hlk : forall x, x ∈ k :: l -> x ∉ kids).
  { intros x [->|Hx]%elem_of_cons; [done|]. intros Hin.
    destruct (Hkids_st x Hin) as [f Hf]. rewrite (Hfresh1 x Hx) in Hf. done. }
  destruct (IHcs Hcs ltac:(lia) kids s1 Hlen Hnd Hr) as (s2 & ls & Hch).
  { intros x Hx. specialize (Hanc x Hx). by apply not_elem_of_cons in Hanc as [_ ?]. }
  { intros i k' c' Hk' Hc'. apply Hfr1; [apply (Hrec (S i) k' c' Hk' Hc')|].
    intros ->. apply Hk. by eapply list_elem_of_lookup_2. }
  { eapply parent_chain_frame; [exact Hchain|]. intros x f Hx Hf.
    exists f. split; [|done]. apply Hfr1; [done|]. intros ->.
    specialize (Hanc k Hx). apply Hanc. by left. }
  { intros k2 Hk2. rewrite Hk2 in Hfks.
    inversion Hclimb1 as [|? f sb' Hf Hs|? f nx Hf Hs Hcl]; subst;
      assert (f = fk) by congruence; subst f; congruence. }
  { by rewrite Hd1. }
  { lia. }
  destruct Hch as (Hruns2 & Hmem2 & Hsome2 & Hsub2 & Hbuilt2 & Hsib2 & Hclimb2
                   & Hfr2 & Hcr2 & Hd2 & Hw2 & Hc2).
  assert (Hkeep : forall x, x ∈ k :: l -> heap s2 !! x = heap s1 !! x).
  { intros x Hx. destruct (Hsome1 x Hx) as [f Hf]. rewrite Hf.
    apply Hfr2; [done|by apply Hlk]. }
  exists s2, ((k :: l) ++ ls). unfold children_done. split_and!.
  - eapply runs_app; eassumption.
  - intros x [Hx|Hx]%elem_of_app.
    + apply elem_of_cons in Hx as [->|Hx]; [left; by left|right; by apply Hfresh1].
    + destruct (Hmem2 x Hx) as [?|Hnone]; [left; by right|].
      destruct (decide (x = k)) as [->|Hne]; [left; by left|]. right.
      destruct (heap st !! x) as [f|] eqn:E; [|done].
      rewrite (Hfr1 x f E Hne) in Hnone. done.
  - intros x [Hx|Hx]%elem_of_app; [|by apply Hsome2].
    rewrite Hkeep by done. by apply Hsome1.
  - intros k' [->|Hk']%elem_of_cons.
    + apply elem_of_app. left. by left.
    + apply elem_of_app. right. by apply Hsub2.
  - intros h Hh. apply (built_more h (created st) r k fk); try done.
    + rewrite Hh by (apply elem_of_app; left; by left).
      rewrite Hkeep by (by left). done.
    + apply Hbuilt1. intros x Hx. rewrite Hh by (apply elem_of_app; by left).
      by apply Hkeep.
    + rewrite <- Hcr1. apply Hbuilt2. intros x Hx. apply Hh, elem_of_app. by right.
  - intros [|i] k' Hk'; simpl in *.
    + injection Hk' as <-. exists fk. split; [|by rewrite Hfks, head_lookup].
      rewrite Hkeep by (by left). done.
    + by apply Hsib2.
  - intros _. destruct kids as [|k2 kids]; [|by apply Hclimb2].
    destruct cs; [|done]. apply runs_nothing in Hruns2 as [-> ->].
    inversion Hclimb1 as [|? f sb' Hf Hs|? f nx Hf Hs Hcl]; subst;
      assert (f = fk) by congruence; subst f.
    + simpl in Hfks. congruence.
    + by rewrite Hfkp in Hcl.
  - intros r' f' Hr' Hnin. apply not_elem_of_cons in Hnin as [Hne Hnin].
    apply Hfr2; [|done]. by apply Hfr1.
  - rewrite sizes_cons. lia.
  - congruence.
  - congruence.
  - congruence.
Qed.

(** The tree of a fiber: its own unit of work, then its children's. *)
Lemma subtree_run (n : nat) :
  forall e, esize e <= n -> host_tree e ->
    forall s r p sb anc,
      heap s !! r = Some (Fiber.set_sibling sb (placement_fiber p e)) ->
      parent_chain (heap s) (Some r) anc ->
      nextUnitOfWork s = Some r -> is_Some (deletions s) ->
      length anc + esize e <= fuel ->
      exists s' l, subtree_done component fuel s r p sb e s' l.
Proof.
  induction n as [|n IHn]; intros e Hsz Hht s r p sb anc Hr Hanc Hnu [ds Hds] Hfuel.
  { destruct e as [t pr]. simpl in Hsz. lia. }
  inversion Hht as [tag attrs cs Hcs]; subst. rewrite esize_node in *.
  pose proof (length_le_sizes cs) as Hlcs.
  destruct (host_unit component fuel s r p sb tag attrs cs anc ds Hr Hanc Hds
              ltac:(lia) ltac:(lia))
    as (s1 & kids & next & Hrun & Hlen & Hnd & Hfresh & Hr1 & Hkids & Hothers
        & Hcr & Hd1 & Hw1 & Hc1 & Hn1 & Hn2).
  set (e := Element (Host tag) (Props attrs (Some cs))) in *.
  set (st := set_nextUnitOfWork next s1).
  assert (Hrk : r ∉ kids).
  { intros Hin. rewrite (Hfresh r Hin) in Hr. done. }
  assert (Hanck : forall x, x ∈ anc -> x ∉ kids).
  { intros x Hx Hin. destruct (parent_chain_in_heap _ _ _ x Hanc Hx) as [f Hf].
    rewrite (Hfresh x Hin) in Hf. done. }
  assert (Hanc1 : parent_chain (heap st) (Some r) anc).
  { eapply parent_chain_frame; [exact Hanc|]. intros x f Hx Hf.
    destruct (decide (x = r)) as [->|Hne].
    - eexists. split; [exact Hr1|]. rewrite Hr in Hf. by injection Hf as <-.
    - exists f. split; [by apply Hothers|done]. }
  destruct (children_run n r anc IHn cs Hcs ltac:(lia) kids st Hlen Hnd Hrk Hanck
              Hkids Hanc1)
    as (s' & ls & Hruns & Hmem & Hsome & Hsub & Hbuilt & Hsib & Hclimb & Hfr
        & Hcr' & Hd' & Hw' & Hc').
  { intros k Hk. simpl. rewrite Hn1; [done|]. by destruct kids. }
  { simpl. rewrite Hd1. by eexists. }
  { lia. }
  assert (Hr' : heap s' !! r = heap s1 !! r).
  { rewrite Hr1. by apply Hfr. }
  exists s', ls. unfold subtree_done. change (esize e) with (S (sizes cs)).
  split_and!.
  - by eapply runs_unit.
  - intros x Hx. destruct (Hmem x Hx) as [Hin|Hnone]; [by apply Hfresh|].
    simpl in Hnone. destruct (heap s !! x) as [f|] eqn:E; [|done].
    destruct (decide (x = r)) as [->|Hne]; [congruence|].
    rewrite (Hothers x f E Hne) in Hnone. done.
  - intros x [->|Hx]%elem_of_cons; [|by apply Hsome].
    rewrite Hr', Hr1. by eexists.
  - intros h Hh.
    eapply (built_node h (created s) r _ e cs kids ls).
    + rewrite Hh by left. rewrite Hr'. exact Hr1.
    + done.
    + done.
    + done.
    + done.
    + done.
    + done.
    + simpl. apply sibling_chain_from_lookup. intros i k Hk.
      destruct (Hsib i k Hk) as (f' & Hf' & Hs). exists f'. split; [|done].
      rewrite Hh; [done|]. right. apply Hsub. by eapply list_elem_of_lookup_2.
    + replace (S (created s)) with (created st) by (simpl; lia).
      apply Hbuilt. intros x Hx. apply Hh. by right.
  - destruct kids as [|k kids]; [|by apply Hclimb].
    destruct cs; [|done]. apply runs_nothing in Hruns as [-> ->]. simpl.
    by apply Hn2.
  - intros r' f' Hf' Hne. apply Hfr; [simpl; by apply Hothers|].
    intros Hin. rewrite (Hfresh r' Hin) in Hf'. done.
  - eexists. split; [rewrite Hr'; exact Hr1|]. by split.
  - rewrite Hcr'. simpl. lia.
  - rewrite Hd'. simpl. congruence.
  - rewrite Hw'. simpl. congruence.
  - rewrite Hc'. simpl. congruence.
Qed.

End Trees.

Section FirstPass.
Variable component : nat -> props -> prog.
Variable fuel : nat.

Lemma runs_length (k : nat) (s s' : state) (units : list ref) :
  runs component fuel k s units s' -> length units = k.
Proof. induction 1; simpl; congruence. Qed.

(** X19. A first render pass builds the whole tree, in document order.
    After [render(element, container)] of a tree of host elements while no
    tree is current, the loop of [workLoop], run without yielding and with
    enough turns, performs one unit of work for the root and one for every
    element, in document order (an element before its children, the
    children in order), and ends with no unit of work left.  It has made
    one fiber per element -- with the element's type and props, tagged
    PLACEMENT, without previous version, linked to its parent, its first
    child and its next sibling as the elements are in the tree -- and one
    host node per element, numbered by the host in document order; it has
    marked nothing for deletion.  The root fiber has the container as its
    node and the fiber of [element] as its child. *)
Theorem first_render_builds_the_tree
    (element : element) (container : node) (s : state) :
  host_tree element ->
  currentRoot s = None ->
  esize element + 2 <= fuel ->
  exists root c l s',
    walk component fuel (S (esize element))
      (final (render element (Some container) s))
    = (root :: c :: l, Ok tt s')
    /\ length (c :: l) = esize element
    /\ nextUnitOfWork s' = None
    /\ wipRoot s' = Some root
    /\ (exists fr, heap s' !! root = Some fr
                   /\ Fiber.dom fr = Some container
                   /\ Fiber.child fr = Some c)
    /\ built (heap s') (created s) c element (c :: l)
    /\ created s' = created s + esize element
    /\ deletions s' = Some [].
Proof.
  intros Hht Hcr Hfuel. unfold render, bind, gets, alloc, modify. simpl.
  set (root := fresh (dom (heap s))). rewrite Hcr.
  set (rf := Fiber.mk None (Props [] (Some [element])) (Some container)
                      None None None None None None None None).
  set (s1 := set_nextUnitOfWork _ _).
  assert (Hrf : heap s1 !! root = Some rf) by apply lookup_insert_eq.
  (* the root's unit of work *)
  destruct (reconcileChildren_children fuel root [element] s1 rf [] []
              Hrf eq_refl eq_refl ltac:(simpl; lia))
    as (s2 & news & Hrun & Hlen & Hfresh & Hdels & _ & Hchain & Hrecs & Hchild
        & _ & Hfr).
  destruct news as [|n [|]]; try done. clear Hlen.
  destruct (Hchild eq_refl ltac:(simpl; lia)) as (rf' & Hrf' & Hc).
  destruct (Hrecs 0 n element eq_refl eq_refl) as (fn & Hfn & E).
  change (Fiber.set_sibling None fn = placement_fiber root element) in E.
  inversion Hchain as [|? fn0 ? Hfn0 Hnil]; subst. inversion Hnil as [Hsb|].
  assert (fn0 = fn) by congruence. subst fn0.
  assert (Hfn' : heap s2 !! n = Some (placement_fiber root element)).
  { rewrite Hfn. f_equal. rewrite <- E. destruct fn. simpl in *. by subst. }
  destruct (Hfr root rf Hrf) as (rf'' & Hrf'' & Hbl & _ & _ & _ & Hsib).
  assert (rf'' = rf') by congruence. subst rf''.
  unfold beyond_links in Hbl. injection Hbl as _ _ Hdom Hpar _ _ _ _.
  specialize (Hsib ltac:(right; by left)).
  pose proof (reconcileChildren_links_only fuel root [element] s1) as Hlo.
  rewrite Hrun in Hlo. simpl in Hlo.
  destruct Hlo as (_ & HC & _ & _ & HW & _).
  assert (Hunit : performUnitOfWork component fuel root s1 = Ok (Some n) s2).
  { by eapply (performUnitOfWork_host component fuel root n rf rf' container
                 [element]). }
  assert (Hne : n <> root).
  { intros ->. specialize (Hfresh root ltac:(left)). congruence. }
  (* the tree of the element *)
  set (st := set_nextUnitOfWork (Some n) s2).
  destruct (subtree_run component fuel (esize element) element ltac:(lia) Hht
              st n root None [n; root])
    as (s' & l & Hruns & _ & _ & Hbuilt & Hclimb & Hframe
        & (fn' & Hn' & Hnp & Hns) & Hcr' & Hd' & Hw' & _).
  { exact Hfn'. }
  { econstructor; [exact Hfn'|]. simpl. econstructor; [exact Hrf'|].
    rewrite Hpar. constructor. }
  { done. }
  { simpl. rewrite (Hdels [] eq_refl). by eexists. }
  { simpl. lia. }
  assert (Hroot' : heap s' !! root = Some rf').
  { apply Hframe; [done|]. congruence. }
  assert (Hnu' : nextUnitOfWork s' = None).
  { inversion Hclimb as [|? f sb' Hf Hs|? f nx Hf Hs Hcl]; subst;
      assert (f = fn') by congruence; subst f; [congruence|].
    rewrite Hnp in Hcl.
    inversion Hcl as [|? f sb' Hf' Hs'|? f nx' Hf' Hs' Hcl']; subst;
      assert (f = rf') by congruence; subst f; [simpl in *; congruence|].
    rewrite Hpar in Hcl'. by inversion Hcl'. }
  exists root, n, l, s'. split_and!.
  - pose proof (runs_walk component fuel (S (esize element)) s1 s' (root :: n :: l)
                  ltac:(by eapply runs_unit) 0) as Hwalk.
    rewrite Nat.add_0_r, (walk_nothing component fuel 0 s' Hnu') in Hwalk.
    simpl in Hwalk. by rewrite app_nil_r in Hwalk.
  - by apply runs_length in Hruns.
  - done.
  - rewrite Hw'. simpl. by rewrite HW.
  - exists rf'. by split_and!.
  - replace (created s) with (created st) by (simpl; by rewrite HC).
    by apply Hbuilt.
  - rewrite Hcr'. simpl. by rewrite HC.
  - rewrite Hd'. simpl. by rewrite (Hdels [] eq_refl).
Qed.

End FirstPass.

Lemma first_render_builds_the_tree_witness :
  exists root c l s',
    walk no_components 10 (S (esize div_of_three))
      (final (render div_of_three (Some (Container 0)) initial_state))
    = (root :: c :: l, Ok tt s')
    /\ length (c :: l) = esize div_of_three
    /\ nextUnitOfWork s' = None
    /\ wipRoot s' = Some root
    /\ (exists fr, heap s' !! root = Some fr
                   /\ Fiber.dom fr = Some (Container 0)
                   /\ Fiber.child fr = Some c)
    /\ built (heap s') (created initial_state) c div_of_three (c :: l)
    /\ created s' = created initial_state + esize div_of_three
    /\ deletions s' = Some [].
Proof.
  apply (first_render_builds_the_tree no_components 10 div_of_three (Container 0)
           initial_state).
  - constructor. repeat (constructor; [by repeat constructor|]). constructor.
  - reflexivity.
  - simpl. lia.
Defined.
(** ** The first commit of a real run *)

Section RealRuns.
Variable component : nat -> props -> prog.

Lemma entries_unshown (fuel n : nat) (entries : list entry) :
  forall s, root_bare s -> unshown s ->
    root_bare (fold_left (fun s c => enter component fuel n c s) entries s)
    /\ unshown (fold_left (fun s c => enter component fuel n c s) entries s).
Proof.
  induction entries as [|c cs IH]; intros s H1 H2; simpl; [done|].
  apply IH; [by apply enter_bare|by apply enter_unshown].
Qed.

Lemma initial_state_unshown : root_bare initial_state /\ unshown initial_state.
Proof.
  split; [split; [|done]|split; [done|constructor]].
  intros r f Hr. simpl in Hr. by rewrite lookup_empty in Hr.
Qed.

(** A log of nodes being built holds no insertion, removal or call. *)
Lemma only_builds_log (l : list event) :
  only_builds l ->
  forall ev, ev ∈ l ->
    (forall p c, ev <> Dom (AppendChild p c))
    /\ (forall p c, ev <> Dom (RemoveChild p c))
    /\ (forall d ty v, ev <> Dom (RemoveEventListener d ty v))
    /\ (forall id, ev <> Call id).
Proof.
  intros Hl ev Hev. unfold only_builds in Hl. rewrite Forall_forall in Hl.
  destruct (Hl ev Hev) as (op & lo & hi & -> & Hop).
  split_and!; intros; intros [= ->]; done.
Qed.

End RealRuns.

(** C1 (the code departs from the claim).  The counter component is
    mounted on the module as loaded and [workLoop] is given an idle period
    without yield.  The walk performs its three units of work (root,
    component, [h1]), leaving the effect of the component scheduled on the
    component's fiber; then [commitRoot] is entered and throws a TypeError
    on its first line, [wipRoot.cleanups] being undefined on the root that
    [render] made.  Nothing of the commit has happened: the log holds the
    creation of the [h1] node and nothing else -- no insertion, no removal,
    no prop update of the commit, no callback call --, [wipRoot] is still
    pending and [currentRoot] is still null; and whatever calls of
    [render], [setState] closures and [workLoop] follow, no tree is ever
    made current and nothing is ever inserted, removed or called. *)
Theorem commit_of_first_render_throws :
  exists s',
    workLoop counter_component 10 10 no_deadline counter_mounted
    = ([0; 1; 2], Throw TypeError s')
    /\ nextUnitOfWork s' = None
    /\ commitRoot 10 s' = Throw TypeError s'
    /\ (exists root, heap s' !! 0 = Some root
                     /\ Fiber.cleanups root = None /\ Fiber.effects root = None)
    /\ (exists f, heap s' !! 1 = Some f
                  /\ Fiber.effects f = Some [EffectClosure (EffectFn 3 None)])
    /\ log s' = [ Dom (CreateElement (Some (Host "h1")) (Created 0));
                  Dom (SetProperty (Created 0) "title" (VNum 1)) ]
    /\ wipRoot s' = Some 0
    /\ currentRoot s' = None
    /\ forall fuel n entries,
         let s := fold_left (fun s c => enter counter_component fuel n c s)
                            entries s' in
         currentRoot s = None
         /\ forall ev, ev ∈ log s ->
              (forall p c, ev <> Dom (AppendChild p c))
              /\ (forall p c, ev <> Dom (RemoveChild p c))
              /\ (forall d ty v, ev <> Dom (RemoveEventListener d ty v))
              /\ (forall id, ev <> Call id).
Proof.
  set (s' := final (snd (workLoop counter_component 10 10 no_deadline counter_mounted))).
  exists s'. split; [by vm_compute|]. split; [by vm_compute|].
  split; [by vm_compute|].
  split; [eexists; split; [by vm_compute|by split]|].
  split; [eexists; split; [by vm_compute|done]|].
  split; [by vm_compute|]. split; [by vm_compute|]. split; [by vm_compute|].
  intros fuel n entries s.
  destruct initial_state_unshown as [B0 U0].
  destruct (entries_unshown counter_component 10 10
              [CallRender counter_app (Some (Container 0)); CallWorkLoop no_deadline]
              initial_state B0 U0) as [B1 U1].
  change (fold_left _ _ initial_state) with s' in B1, U1.
  destruct (entries_unshown counter_component fuel n entries s' B1 U1) as [_ [Hc Hl]].
  split; [exact Hc|]. intros ev Hev. by apply (only_builds_log (log s)).
Qed.

(** C6 (the code departs from the claim).  A [div] with three [p] is
    mounted on the module as loaded and [workLoop] is given an idle period
    without yield.  The diff tags each of the four fibers PLACEMENT, once,
    and each gets its host node; the commit then throws on its first line
    (see C1 and C2) before it reaches [deletions.forEach(commitWork)] and
    [commitWork(wipRoot.child)]: no tag is acted upon, no node is inserted
    -- in this commit or after whatever calls follow. *)
Theorem placement_tags_are_never_consumed :
  exists s',
    workLoop no_components 10 10 no_deadline div_mounted
    = ([0; 1; 2; 3; 4], Throw TypeError s')
    /\ wipRoot s' = Some 0
    /\ nextUnitOfWork s' = None
    /\ (forall r, r ∈ [1; 2; 3; 4] ->
          exists f d, heap s' !! r = Some f
                      /\ Fiber.effectTag f = Some PLACEMENT
                      /\ Fiber.dom f = Some d)
    /\ log s' = [ Dom (CreateElement (Some (Host "div")) (Created 0));
                  Dom (CreateElement (Some (Host "p")) (Created 1));
                  Dom (CreateElement (Some (Host "p")) (Created 2));
                  Dom (CreateElement (Some (Host "p")) (Created 3)) ]
    /\ forall fuel n entries,
         let s := fold_left (fun s c => enter no_components fuel n c s)
                            entries s' in
         currentRoot s = None
         /\ forall ev p c, ev ∈ log s ->
              ev <> Dom (AppendChild p c) /\ ev <> Dom (RemoveChild p c).
Proof.
  set (s' := final (snd (workLoop no_components 10 10 no_deadline div_mounted))).
  exists s'. split; [by vm_compute|]. split; [by vm_compute|].
  split; [by vm_compute|]. split.
  { intros r Hr. repeat (apply elem_of_cons in Hr as [->|Hr]);
      [..|by apply elem_of_nil in Hr]; eexists _, _;
      (split; [by vm_compute|by split]). }
  split; [by vm_compute|].
  intros fuel n entries s.
  destruct initial_state_unshown as [B0 U0].
  destruct (entries_unshown no_components 10 10
              [CallRender div_of_three (Some (Container 0)); CallWorkLoop no_deadline]
              initial_state B0 U0) as [B1 U1].
  change (fold_left _ _ initial_state) with s' in B1, U1.
  destruct (entries_unshown no_components fuel n entries s' B1 U1) as [_ [Hc Hl]].
  split; [exact Hc|]. intros ev p c Hev.
  destruct (only_builds_log (log s) Hl ev Hev) as (H1 & H2 & _). by split.
Qed.
(** ** Units of work return, in depth-first order, whatever the yields *)

Section UnitsReturn.
Variable component : nat -> props -> prog.

Lemma updateHostComponent_returns (fuel : nat) (fiber : ref) (s : state)
    (f : Fiber.t) (ds : list ref) (elements : list element) :
  heap s !! fiber = Some f ->
  Fiber.alternate f = None ->
  deletions s = Some ds ->
  children (Fiber.props f) = Some elements ->
  length elements <= fuel ->
  exists s', updateHostComponent fuel fiber s = Ok tt s'.
Proof.
  intros Hf Halt Hds Hch Hfuel.
  unfold updateHostComponent, bind at 1, deref at 1. rewrite Hf.
  unfold bind at 1. rewrite (ensure_dom fiber f s Hf).
  set (s1 := match Fiber.dom f with Some _ => s | None => _ end).
  assert (H1 : exists f1, heap s1 !! fiber = Some f1
                          /\ Fiber.props f1 = Fiber.props f
                          /\ Fiber.alternate f1 = None
                          /\ deletions s1 = Some ds).
  { subst s1. destruct (Fiber.dom f); [by exists f|].
    eexists. split; [apply lookup_insert_eq|]. by split. }
  destruct H1 as (f1 & Hf1 & Hp1 & Halt1 & Hds1).
  unfold bind at 1, deref at 1. rewrite Hf1.
  unfold bind at 1, the at 1. rewrite Hp1, Hch. unfold ret at 1.
  assert (Hold : old_children (heap s1) f1 []).
  { unfold old_children. by rewrite Halt1. }
  destruct (reconcileChildren_children fuel fiber elements s1 f1 [] ds
              Hf1 Hold Hds1 ltac:(simpl; lia))
    as (s' & news & Hrun & _).
  by exists s'.
Qed.

Lemma updateFunctionComponent_returns (fuel : nat) (fiber : ref) (s : state)
    (f : Fiber.t) (fn : nat) (ds : list ref) :
  heap s !! fiber = Some f ->
  Fiber.type f = Some (Component fn) ->
  Fiber.alternate f = None ->
  deletions s = Some ds ->
  1 <= fuel ->
  exists s', updateFunctionComponent component fuel fiber s = Ok tt s'.
Proof.
  intros Hf Hty Halt Hds Hfuel.
  unfold updateFunctionComponent.
  unfold bind at 1 2 3 4 5, modify at 1 2, update at 1 2 3, bind at 1 2 3,
    deref at 1 2 3, modify at 1 2 3.
  simpl. rewrite Hf. simpl. repeat (rewrite lookup_insert_eq; simpl).
  rewrite !insert_insert_eq.
  set (f5 := Fiber.set_cleanups (Some []) (Fiber.set_effects (Some [])
               (Fiber.set_hooks (Some []) f))).
  set (s5 := set_heap _ _).
  assert (Hf5 : heap s5 !! fiber = Some f5) by apply lookup_insert_eq.
  unfold bind at 1, deref at 1. rewrite Hf5.
  change (Fiber.type f5) with (Fiber.type f). rewrite Hty.
  unfold bind at 1.
  rewrite (run_prog_first (component fn (Fiber.props f5)) s5 fiber f5 [] [])
    by done.
  set (res := first_run (component fn (Fiber.props f5)) fiber (length [])).
  simpl.
  set (f6 := Fiber.set_effects _ _). set (s6 := set_hookIndex _ _).
  assert (Hf6 : heap s6 !! fiber = Some f6) by apply lookup_insert_eq.
  assert (Hold : old_children (heap s6) f6 []).
  { unfold old_children. change (Fiber.alternate f6) with (Fiber.alternate f).
    by rewrite Halt. }
  destruct (reconcileChildren_children fuel fiber [fst res] s6 f6 [] ds
              Hf6 Hold Hds ltac:(simpl; lia))
    as (s' & news & Hrun & _).
  by exists s'.
Qed.

(** Once the fiber itself is rendered, the way on is found. *)
Lemma performUnitOfWork_returns (fuel : nat) (fiber : ref) (s s1 : state)
    (f : Fiber.t) (ancestors : list ref) :
  heap s !! fiber = Some f ->
  (if isFunctionComponent f
   then updateFunctionComponent component fuel fiber
   else updateHostComponent fuel fiber) s = Ok tt s1 ->
  parent_chain (heap s) (Some fiber) ancestors ->
  length ancestors <= fuel ->
  exists next,
    performUnitOfWork component fuel fiber s = Ok next s1
    /\ dfs_next (heap s1) fiber next.
Proof.
  intros Hf Hupd Hchain Hfuel.
  assert (Hstep : render_step s s1).
  { destruct (isFunctionComponent f).
    - pose proof (updateFunctionComponent_render_step component fuel fiber s) as H.
      by rewrite Hupd in H.
    - pose proof (updateHostComponent_render_step fuel fiber s) as H.
      by rewrite Hupd in H. }
  destruct Hstep as (_ & _ & _ & _ & Hheap).
  assert (Hchain1 : parent_chain (heap s1) (Some fiber) ancestors).
  { eapply parent_chain_frame; [exact Hchain|]. intros r fr _ Hr.
    destruct (Hheap r fr Hr) as (fr' & Hr' & Hid & _). exists fr'.
    split; [done|]. unfold identity in Hid. congruence. }
  destruct (Hheap fiber f Hf) as (f1 & Hf1 & _).
  unfold performUnitOfWork, bind at 1, deref at 1. rewrite Hf.
  unfold bind at 1. rewrite Hupd. unfold bind at 1, deref at 1. rewrite Hf1.
  destruct (Fiber.child f1) as [c|] eqn:Hc.
  - exists (Some c). split; [done|]. exists f1. by rewrite Hc.
  - destruct (climb_exists (heap s1) (Some fiber) ancestors Hchain1)
      as (next & Hcl & Hrun).
    exists next. split; [by apply Hrun|]. exists f1. by rewrite Hc.
Qed.

Lemma performUnitOfWork_first_render (fuel : nat) (fiber : ref) (s : state)
    (f : Fiber.t) (ds : list ref) (ancestors : list ref) :
  heap s !! fiber = Some f ->
  Fiber.alternate f = None ->
  deletions s = Some ds ->
  parent_chain (heap s) (Some fiber) ancestors ->
  length ancestors <= fuel ->
  (if isFunctionComponent f then 1 <= fuel
   else exists elements,
          children (Fiber.props f) = Some elements /\ length elements <= fuel) ->
  exists next s',
    performUnitOfWork component fuel fiber s = Ok next s'
    /\ dfs_next (heap s') fiber next.
Proof.
  intros Hf Halt Hds Hchain Hfuel Hkind.
  assert (Hupd : exists s1,
            (if isFunctionComponent f
             then updateFunctionComponent component fuel fiber
             else updateHostComponent fuel fiber) s = Ok tt s1).
  { destruct (isFunctionComponent f) eqn:Hfc.
    - unfold isFunctionComponent in Hfc.
      destruct (Fiber.type f) as [[tag|fn]|] eqn:Hty; try done.
      by eapply updateFunctionComponent_returns.
    - destruct Hkind as (elements & Hch & Hlen).
      by eapply updateHostComponent_returns. }
  destruct Hupd as (s1 & Hupd).
  destruct (performUnitOfWork_returns fuel fiber s s1 f ancestors Hf Hupd Hchain Hfuel)
    as (next & Hrun & Hnext).
  by exists next, s1.
Qed.

(** *** The walk to its end, and the idle periods *)

Lemma walk_length (fuel n : nat) :
  forall s, length (fst (walk component fuel n s)) <= n.
Proof.
  induction n as [|n IH]; intros s.
  - unfold walk. simpl. by destruct (nextUnitOfWork s).
  - rewrite walk_step. destruct (nextUnitOfWork s) as [fiber|]; [|simpl; lia].
    destruct (performUnitOfWork component fuel fiber s) as [next s1|e s1];
      simpl; [|lia].
    specialize (IH (set_nextUnitOfWork next s1)). lia.
Qed.

Lemma walk_depth_first (fuel n : nat) :
  forall s, walk_ended (walk component fuel n s) ->
    depth_first component fuel s (fst (walk component fuel n s))
                (snd (walk component fuel n s)).
Proof.
  induction n as [|n IH]; intros s.
  - unfold walk, walk_ended. simpl.
    destruct (nextUnitOfWork s) eqn:Hnu; simpl; [done|]. intros _. by constructor.
  - rewrite walk_step. unfold walk_ended.
    destruct (nextUnitOfWork s) as [fiber|] eqn:Hnu; [|by constructor].
    destruct (performUnitOfWork component fuel fiber s) as [next s1|e s1] eqn:Hp;
      simpl.
    + intros Hend. eapply depth_first_unit; [done|done| |by apply IH].
      by eapply performUnitOfWork_next.
    + intros _. by constructor.
Qed.

Lemma period_of_depth_first (fuel : nat) (deadline : nat -> Q)
    (s : state) (units : list ref) (o : outcome unit) :
  depth_first component fuel s units o ->
  forall (n k : nat) (shouldYield : bool),
    length units <= n ->
    exists pre post o1,
      workLoop_while component fuel n deadline k shouldYield s = (pre, o1)
      /\ units = pre ++ post
      /\ (shouldYield = false -> units <> [] -> pre <> [])
      /\ ((exists s1, o1 = Ok tt s1 /\ depth_first component fuel s1 post o)
          \/ (post = [] /\ o1 = o /\ exists e s1, o = Throw e s1)).
Proof.
  induction 1 as [s Hnu|s fiber e s1 Hnu Hp|s fiber next s1 units o Hnu Hp Hnext Hd IH];
    intros n k shouldYield Hn.
  - exists [], [], (Ok tt s). split; [by destruct n; simpl; rewrite Hnu|].
    split; [done|]. split; [done|]. left. exists s. split; [done|by constructor].
  - destruct shouldYield.
    + exists [], [fiber], (Ok tt s). split; [by destruct n; simpl; rewrite Hnu|].
      split; [done|]. split; [done|]. left. exists s. split; [done|by constructor].
    + destruct n as [|n]; [simpl in Hn; lia|].
      exists [fiber], [], (Throw e s1). split; [by simpl; rewrite Hnu, Hp|].
      split; [done|]. split; [done|]. right. split; [done|]. split; [done|].
      by exists e, s1.
  - destruct shouldYield.
    + exists [], (fiber :: units), (Ok tt s).
      split; [by destruct n; simpl; rewrite Hnu|].
      split; [done|]. split; [done|]. left. exists s. split; [done|].
      by eapply depth_first_unit.
    + destruct n as [|n]; [simpl in Hn; lia|].
      destruct (IH n (S k) (negb (Qle_bool 1 (deadline k))) ltac:(simpl in Hn; lia))
        as (pre & post & o1 & Hrun & Hunits & _ & Hrest).
      exists (fiber :: pre), post, o1. split; [by simpl; rewrite Hnu, Hp, Hrun|].
      split; [by rewrite Hunits|]. split; [done|]. exact Hrest.
Qed.

Lemma idle_periods_settled (fuel n : nat) (deadlines : list (nat -> Q)) (s : state) :
  nextUnitOfWork s = None -> wipRoot s = None ->
  idle_periods component fuel n deadlines s = ([], Ok tt s).
Proof.
  intros Hnu Hwr. induction deadlines as [|deadline rest IH]; [done|].
  simpl.
  assert (E : workLoop component fuel n deadline s = ([], Ok tt s)).
  { unfold workLoop. replace (workLoop_while component fuel n deadline 0 false s)
      with (@nil ref, Ok tt s) by (destruct n; simpl; by rewrite Hnu).
    unfold then_commit, commit_when_done, bind, gets. simpl. by rewrite Hnu, Hwr. }
  rewrite E. by rewrite IH.
Qed.

Lemma commit_when_done_settles (fuel : nat) (s s' : state) (u : unit) :
  nextUnitOfWork s = None ->
  commit_when_done fuel s = Ok u s' ->
  nextUnitOfWork s' = None /\ wipRoot s' = None.
Proof.
  intros Hnu. unfold commit_when_done, bind, gets. simpl. rewrite Hnu.
  destruct (wipRoot s) as [r|] eqn:Hwr.
  - intros H. destruct (commitRoot_Ok _ _ _ _ H) as [H1 H2]. split; congruence.
  - by intros [= _ <-].
Qed.

(** Where a run of idle periods stands: at the end of the walk, commit
    included, or at a yield with the rest of the units still to do. *)
Lemma idle_periods_depth_first (fuel n : nat) (deadlines : list (nat -> Q)) :
  forall (s : state) (units : list ref) (o : outcome unit),
    depth_first component fuel s units o ->
    length units <= n ->
    idle_periods component fuel n deadlines s = then_commit fuel (units, o)
    \/ exists pre post s1,
         idle_periods component fuel n deadlines s = (pre, Ok tt s1)
         /\ units = pre ++ post
         /\ depth_first component fuel s1 post o
         /\ length deadlines <= length pre
         /\ (is_Some (nextUnitOfWork s1) \/ deadlines = [] /\ s1 = s).
Proof.
  induction deadlines as [|deadline rest IH]; intros s units o Hd Hn.
  { right. exists [], units, s. split; [done|]. split; [done|].
    split; [done|]. split; [done|]. by right. }
  destruct (period_of_depth_first fuel deadline s units o Hd n 0 false Hn)
    as (pre & post & o1 & Hrun & -> & Hpre & Hrest).
  assert (Hstep : idle_periods component fuel n (deadline :: rest) s
                  = match then_commit fuel (pre, o1) with
                    | (units, Ok _ s1) =>
                        (units ++ fst (idle_periods component fuel n rest s1),
                         snd (idle_periods component fuel n rest s1))
                    | (units, Throw e s1) => (units, Throw e s1)
                    end).
  { simpl. unfold workLoop. by rewrite Hrun. }
  rewrite Hstep. clear Hstep.
  destruct Hrest as [(s1 & -> & Hd1)|(-> & -> & e & s1 & ->)].
  - unfold then_commit at 1 3. cbn [fst snd].
    destruct (nextUnitOfWork s1) as [fiber|] eqn:Hnu.
    + assert (Hc : commit_when_done fuel s1 = Ok tt s1).
      { unfold commit_when_done, bind, gets. simpl. by rewrite Hnu. }
      rewrite Hc.
      assert (Hpost : post <> []).
      { intros ->. inversion Hd1; congruence. }
      assert (Hpre' : 1 <= length pre).
      { assert (pre <> []) by (apply Hpre; [done|]; by destruct pre, post).
        destruct pre; [done|simpl; lia]. }
      rewrite length_app in Hn.
      destruct (IH s1 post o Hd1 ltac:(lia))
        as [E|(pre' & post' & s2 & E & -> & Hd2 & Hlen & Hat)]; rewrite E.
      * left. unfold then_commit. simpl. by destruct o.
      * right. exists (pre ++ pre'), post', s2. cbn [fst snd].
        split; [done|]. split; [by rewrite app_assoc|]. split; [done|].
        split; [rewrite length_app; simpl; lia|]. left.
        destruct Hat as [Hat|[-> ->]]; [done|by eexists].
    + inversion Hd1 as [s0 _| |]; subst; try congruence.
      left. rewrite app_nil_r. unfold then_commit. cbn [fst snd].
      destruct (commit_when_done fuel s1) as [u s2|e s2] eqn:Hc; [|done].
      destruct (commit_when_done_settles fuel s1 s2 u Hnu Hc) as [Hnu2 Hwr2].
      rewrite (idle_periods_settled fuel n rest s2 Hnu2 Hwr2). simpl.
      rewrite app_nil_r. by destruct u.
  - left. by rewrite app_nil_r.
Qed.

(** C7. Within a render pass the units of work come in one fixed
    depth-first order, and the yields do not change it.
    (1) Whenever [performUnitOfWork] returns, it returns the fiber's child
    when it has one, otherwise the sibling of the nearest fiber that has
    one on the way up through the parents, starting with the fiber itself,
    and nothing when that way ends past the root.  (2) It does return for
    every fiber rendered for the first time -- a function component, or a
    host fiber whose props have a [children] array -- once [deletions] is
    set, given one turn per child to reconcile and per fiber on the way
    up.  (3) When the walk run without yield comes to its end (no unit
    left, or an exception of a unit of work), its units were performed in
    that depth-first order; and of every run of idle periods from the same
    state, whatever their deadlines, the units performed are the first of
    those units, in the same order.  Such a run that has come to an end
    (no unit and no pending root left, or an exception) -- as has every
    run of at least as many periods as there are units, each period
    performing at least one -- has performed all of them and ends like the
    walk without yield followed by the commit: in the same state (fiber
    trees, host operations and callback calls of the log included) or with
    the same exception. *)
Theorem walk_order_independent_of_yields :
  (forall (fuel : nat) (fiber : ref) (s s' : state) (next : option ref),
     performUnitOfWork component fuel fiber s = Ok next s' ->
     dfs_next (heap s') fiber next)
  /\ (forall (fuel : nat) (fiber : ref) (s : state) (f : Fiber.t)
             (ds ancestors : list ref),
        heap s !! fiber = Some f ->
        Fiber.alternate f = None ->
        deletions s = Some ds ->
        parent_chain (heap s) (Some fiber) ancestors ->
        length ancestors <= fuel ->
        (if isFunctionComponent f then 1 <= fuel
         else exists elements,
                children (Fiber.props f) = Some elements
                /\ length elements <= fuel) ->
        exists next s',
          performUnitOfWork component fuel fiber s = Ok next s'
          /\ dfs_next (heap s') fiber next)
  /\ (forall (fuel n : nat) (s : state),
        walk_ended (walk component fuel n s) ->
        depth_first component fuel s (fst (walk component fuel n s))
                    (snd (walk component fuel n s))
        /\ forall deadlines : list (nat -> Q),
             fst (idle_periods component fuel n deadlines s)
               `prefix_of` fst (walk component fuel n s)
             /\ (settled (idle_periods component fuel n deadlines s) ->
                 idle_periods component fuel n deadlines s
                 = finish component fuel n s)
             /\ (deadlines <> [] ->
                 length (fst (walk component fuel n s)) <= length deadlines ->
                 idle_periods component fuel n deadlines s
                 = finish component fuel n s)).
Proof.
  split; [apply performUnitOfWork_next|].
  split; [apply performUnitOfWork_first_render|].
  intros fuel n s Hend.
  pose proof (walk_depth_first fuel n s Hend) as Hd.
  split; [exact Hd|]. intros deadlines.
  assert (Hfin : finish component fuel n s
                 = then_commit fuel (fst (walk component fuel n s),
                                     snd (walk component fuel n s))).
  { unfold finish. by destruct (walk component fuel n s). }
  destruct (idle_periods_depth_first fuel n deadlines s _ _ Hd (walk_length fuel n s))
    as [E|(pre & post & s1 & E & Hu & Hd1 & Hlen & Hat)].
  - rewrite E, <- Hfin. split; [|done].
    rewrite Hfin. unfold then_commit. simpl.
    by destruct (snd (walk component fuel n s)).
  - rewrite E. simpl. split; [by exists post|]. split.
    + unfold settled. simpl. intros [Hnu Hwr].
      destruct Hat as [[fiber Hat]|[-> ->]]; [congruence|].
      by rewrite finish_settled.
    + intros Hne Hle. exfalso.
      destruct Hat as [[fiber Hat]|[-> _]]; [|done].
      assert (Hpost : 1 <= length post).
      { destruct post; [|simpl; lia]. inversion Hd1; congruence. }
      rewrite Hu, length_app in Hle. lia.
Qed.

End UnitsReturn.

Lemma walk_order_independent_of_yields_witness :
  (exists next s',
     performUnitOfWork no_components 10 0 div_mounted = Ok next s'
     /\ dfs_next (heap s') 0 next)
  /\ fst (walk no_components 10 10 div_mounted) = [0; 1; 2; 3; 4]
  /\ depth_first no_components 10 div_mounted [0; 1; 2; 3; 4]
                 (snd (walk no_components 10 10 div_mounted))
  /\ fst (idle_periods no_components 10 10 [yield_always; yield_always] div_mounted)
       `prefix_of` [0; 1; 2; 3; 4]
  /\ idle_periods no_components 10 10 [no_deadline] div_mounted
     = finish no_components 10 10 div_mounted
  /\ idle_periods no_components 10 10
       [yield_always; no_deadline; yield_always; yield_always; yield_always]
       div_mounted
     = finish no_components 10 10 div_mounted.
Proof.
  destruct (walk_order_independent_of_yields no_components) as (_ & Hunit & Hwalk).
  assert (Hend : walk_ended (walk no_components 10 10 div_mounted)) by by vm_compute.
  destruct (Hwalk 10 10 div_mounted Hend) as [Hd Hidle].
  assert (Hunits : fst (walk no_components 10 10 div_mounted) = [0; 1; 2; 3; 4])
    by by vm_compute.
  split.
  { apply (Hunit 10 0 div_mounted
             (Fiber.mk None (Props [] (Some [div_of_three])) (Some (Container 0))
                       None None None None None None None None) [] [0]).
    - by vm_compute.
    - done.
    - done.
    - econstructor; [by vm_compute|]. constructor.
    - simpl. lia.
    - simpl. exists [div_of_three]. split; [done|simpl; lia]. }
  split; [exact Hunits|]. split; [by rewrite <- Hunits|].
  split; [rewrite <- Hunits; apply (Hidle [yield_always; yield_always])|].
  split.
  - apply (proj1 (proj2 (Hidle [no_deadline]))). by vm_compute.
  - apply (proj2 (proj2 (Hidle _))); [done|]. rewrite Hunits. simpl. lia.
Defined.
(** ** No fiber of a real run has a previous version *)



















Section RealRunsHooks.
Variable component : nat -> props -> prog.










End RealRunsHooks.
(** ** [useEffect]: when the callback is scheduled *)


Section EffectsOfRealRuns.
Variable component : nat -> props -> prog.



End EffectsOfRealRuns.

